(** * Malphas runtime core: channels, legions and the run-queue fabric

    A shallow embedding of [runtime/runtime.c]: the bounded channel
    ([runtime_channel_*]), the legion life cycle ([runtime_legion_*]) and the
    per-worker run queues ([push_to_local_queue], [pop_from_local_queue],
    [steal_from_queue]).

    Conventions of the embedding.
    - [size_t] fields are [Z] values kept in [0, 2^64); every arithmetic
      operation of the source on them is written with its wrap-around
      ([wrap64]).  [int] and [atomic_int] values are [Z]; [%] on [int] is the
      truncating remainder [Z.rem]; atomic read-modify-write wraps ([wrap_int]).
    - A pointer to a legion or to a channel is [option nat]: [None] is [NULL],
      [Some a] is the address [a] in the corresponding heap of the [World].
    - A critical section (the code between [pthread_mutex_lock] and
      [pthread_mutex_unlock] on the channel mutex) is one atomic transition.
      A blocking operation is therefore a function that performs one pass
      through its critical section and reports whether the caller returned,
      parked itself or went to sleep on a condition variable; after a wake-up
      the source re-enters the same test, that is, the same function.
    - The calling thread is identified by the value of its thread-local slot
      ([pthread_getspecific]), the parameter [tls].
    - A read or write of a field of [*g_scheduler] while [g_scheduler] is
      [NULL] kills the process; the [World] records it in [fault]. *)

From Stdlib Require Import ZArith List Lia Bool.
From Stdlib Require Import Init.Byte.
From Stdlib Require Strings.Byte.
From stdpp Require Import base gmap list.

Local Open Scope Z_scope.

(** ** Machine integers *)

Definition wrap64 (x : Z) : Z := x mod 2 ^ 64.

(** Two's complement wrap-around of a 32-bit [int] (atomic read-modify-write). *)
Definition wrap_int (x : Z) : Z := (x + 2 ^ 31) mod 2 ^ 32 - 2 ^ 31.

(** The conversion [(int8_t)x]. *)
Definition to_int8 (x : Z) : Z := (x + 2 ^ 7) mod 2 ^ 8 - 2 ^ 7.

(** Array access with an [int] or [size_t] index.  An index outside the array
    is undefined behaviour in C; here a read yields [None] and a write leaves
    the array as it is. *)
Definition zlookup {A} (l : list A) (i : Z) : option A :=
  if i <? 0 then None else l !! Z.to_nat i.

Definition zupdate {A} (l : list A) (i : Z) (x : A) : list A :=
  if i <? 0 then l else <[Z.to_nat i := x]> l.

(** ** Constants *)

Definition LEGION_STACK_SIZE : Z := 256 * 1024.
Definition LEGION_STACK_MAX : Z := 2 * 1024 * 1024.
Definition LEGION_STACK_GUARD_SIZE : Z := 4096.
Definition MAX_OS_THREADS : Z := 4.
Definition LEGION_QUEUE_SIZE : Z := 256.
Definition WORK_STEAL_ATTEMPTS : Z := 3.

(** ** Data model *)

Inductive LegionState :=
| LEGION_STATE_RUNNABLE
| LEGION_STATE_RUNNING
| LEGION_STATE_BLOCKED
| LEGION_STATE_DEAD.

Definition LegionState_eqb (a b : LegionState) : bool :=
  match a, b with
  | LEGION_STATE_RUNNABLE, LEGION_STATE_RUNNABLE
  | LEGION_STATE_RUNNING, LEGION_STATE_RUNNING
  | LEGION_STATE_BLOCKED, LEGION_STATE_BLOCKED
  | LEGION_STATE_DEAD, LEGION_STATE_DEAD => true
  | _, _ => false
  end.

(** What a saved register can hold: a plain word, the address of one of the
    two runtime entry points, or the address of a legion. *)
Inductive reg :=
| RWord (z : Z)
| RTrampoline
| RLegionEntry
| RLegion (a : nat).

(** The two layouts of [struct Context]. *)
Inductive Context :=
| Ctx_x86_64 (rbx rbp r12 r13 r14 r15 rsp rip : reg)
| Ctx_aarch64 (x19 x20 x21 x22 x23 x24 x25 x26 x27 x28 fp lr sp : reg).

Inductive Arch := X86_64 | AArch64.

(** [memset(ctx, 0, sizeof(Context))] *)
Definition zero_context (a : Arch) : Context :=
  let z := RWord 0 in
  match a with
  | X86_64 => Ctx_x86_64 z z z z z z z z
  | AArch64 => Ctx_aarch64 z z z z z z z z z z z z z
  end.

Record Legion := mkLegion {
  l_fn : Z;
  l_arg : Z;
  l_stack : Z;
  l_stack_base : Z;
  l_stack_size : Z;
  l_stack_cap : Z;
  l_ctx : Context;
  l_ctx_saved : Context;
  l_state : LegionState;
  l_next : option nat;
  l_blocked_on : option nat;
  l_id : Z;
  l_thread_id : Z;
  l_stack_overflow : Z
}.

Definition set_l_state (s : LegionState) (l : Legion) : Legion :=
  mkLegion (l_fn l) (l_arg l) (l_stack l) (l_stack_base l) (l_stack_size l)
    (l_stack_cap l) (l_ctx l) (l_ctx_saved l) s (l_next l) (l_blocked_on l)
    (l_id l) (l_thread_id l) (l_stack_overflow l).

Definition set_l_next (n : option nat) (l : Legion) : Legion :=
  mkLegion (l_fn l) (l_arg l) (l_stack l) (l_stack_base l) (l_stack_size l)
    (l_stack_cap l) (l_ctx l) (l_ctx_saved l) (l_state l) n (l_blocked_on l)
    (l_id l) (l_thread_id l) (l_stack_overflow l).

Definition set_l_blocked_on (c : option nat) (l : Legion) : Legion :=
  mkLegion (l_fn l) (l_arg l) (l_stack l) (l_stack_base l) (l_stack_size l)
    (l_stack_cap l) (l_ctx l) (l_ctx_saved l) (l_state l) (l_next l) c
    (l_id l) (l_thread_id l) (l_stack_overflow l).

Definition set_l_thread_id (t : Z) (l : Legion) : Legion :=
  mkLegion (l_fn l) (l_arg l) (l_stack l) (l_stack_base l) (l_stack_size l)
    (l_stack_cap l) (l_ctx l) (l_ctx_saved l) (l_state l) (l_next l)
    (l_blocked_on l) (l_id l) t (l_stack_overflow l).

(** [struct Channel] without its mutex and condition variables. *)
Record Channel := mkChannel {
  ch_buffer : list byte;
  ch_elem_size : Z;
  ch_capacity : Z;
  ch_head : Z;
  ch_tail : Z;
  ch_count : Z;
  ch_closed : Z;
  ch_blocked_senders : option nat;
  ch_blocked_receivers : option nat
}.

Definition set_ch_closed (x : Z) (c : Channel) : Channel :=
  mkChannel (ch_buffer c) (ch_elem_size c) (ch_capacity c) (ch_head c)
    (ch_tail c) (ch_count c) x (ch_blocked_senders c) (ch_blocked_receivers c).

Definition set_ch_blocked_senders (x : option nat) (c : Channel) : Channel :=
  mkChannel (ch_buffer c) (ch_elem_size c) (ch_capacity c) (ch_head c)
    (ch_tail c) (ch_count c) (ch_closed c) x (ch_blocked_receivers c).

Definition set_ch_blocked_receivers (x : option nat) (c : Channel) : Channel :=
  mkChannel (ch_buffer c) (ch_elem_size c) (ch_capacity c) (ch_head c)
    (ch_tail c) (ch_count c) (ch_closed c) (ch_blocked_senders c) x.

(** [Scheduler] without its threads, mutexes and condition variables. *)
Record Scheduler := mkScheduler {
  s_num_threads : Z;
  s_run_queue : list (list (option nat));
  s_queue_head : list Z;
  s_queue_tail : list Z;
  s_active_legions : Z;
  s_shutdown : Z;
  s_current_legion : list (option nat)
}.

Definition set_s_run_queue (q : list (list (option nat))) (s : Scheduler) :=
  mkScheduler (s_num_threads s) q (s_queue_head s) (s_queue_tail s)
    (s_active_legions s) (s_shutdown s) (s_current_legion s).

Definition set_s_queue_head (h : list Z) (s : Scheduler) :=
  mkScheduler (s_num_threads s) (s_run_queue s) h (s_queue_tail s)
    (s_active_legions s) (s_shutdown s) (s_current_legion s).

Definition set_s_queue_tail (t : list Z) (s : Scheduler) :=
  mkScheduler (s_num_threads s) (s_run_queue s) (s_queue_head s) t
    (s_active_legions s) (s_shutdown s) (s_current_legion s).

Definition set_s_active_legions (n : Z) (s : Scheduler) :=
  mkScheduler (s_num_threads s) (s_run_queue s) (s_queue_head s)
    (s_queue_tail s) n (s_shutdown s) (s_current_legion s).

Definition set_s_current_legion (c : list (option nat)) (s : Scheduler) :=
  mkScheduler (s_num_threads s) (s_run_queue s) (s_queue_head s)
    (s_queue_tail s) (s_active_legions s) (s_shutdown s) c.

(** The process: both heaps and the two globals [g_scheduler] and
    [g_legion_id_counter].  [fault] records that the code has read or
    written a field of [*g_scheduler] while [g_scheduler] was [NULL]: the
    process is killed there by the signal, and what the functions of the
    embedding compute from such a world describes no execution. *)
Record World := mkWorld {
  legions : gmap nat Legion;
  channels : gmap nat Channel;
  g_scheduler : option Scheduler;
  g_legion_id_counter : Z;
  fault : bool
}.

Definition set_legions (m : gmap nat Legion) (w : World) : World :=
  mkWorld m (channels w) (g_scheduler w) (g_legion_id_counter w) (fault w).

Definition set_channels (m : gmap nat Channel) (w : World) : World :=
  mkWorld (legions w) m (g_scheduler w) (g_legion_id_counter w) (fault w).

Definition set_g_scheduler (s : option Scheduler) (w : World) : World :=
  mkWorld (legions w) (channels w) s (g_legion_id_counter w) (fault w).

(** A dereference of the null [g_scheduler]. *)
Definition null_scheduler_access (w : World) : World :=
  mkWorld (legions w) (channels w) (g_scheduler w) (g_legion_id_counter w)
    true.

(** [legion->field = v]: a store through a dangling pointer is outside the
    model and leaves the heap as it is. *)
Definition update_legion (a : nat) (f : Legion -> Legion) (w : World) : World :=
  set_legions (alter f a (legions w)) w.

Definition update_channel (a : nat) (f : Channel -> Channel) (w : World) : World :=
  set_channels (alter f a (channels w)) w.

(** ** Thread-local worker id *)

(** [set_thread_id] stores [(void * )(intptr_t)id] in the thread-local slot. *)
Definition set_thread_id (id : Z) : Z := id.

(** [get_thread_id]: a [NULL] slot reads as [-1]. *)
Definition get_thread_id (tls : Z) : Z :=
  if tls =? 0 then -1 else tls.

Definition runtime_get_current_legion (tls : Z) (w : World) : option nat :=
  match g_scheduler w with
  | None => None
  | Some s =>
      let thread_id := get_thread_id tls in
      if (thread_id <? 0) || (thread_id >=? MAX_OS_THREADS) then None
      else default None (zlookup (s_current_legion s) thread_id)
  end.

(** ** Run queues *)

Definition queue_head_of (s : Scheduler) (t : Z) : Z :=
  default 0 (zlookup (s_queue_head s) t).

Definition queue_tail_of (s : Scheduler) (t : Z) : Z :=
  default 0 (zlookup (s_queue_tail s) t).

Definition queue_slot (s : Scheduler) (t i : Z) : option nat :=
  default None (zlookup (default [] (zlookup (s_run_queue s) t)) i).

(** [g_scheduler->run_queue[t][i] = legion] *)
Definition store_slot (t i : Z) (legion : option nat) (s : Scheduler) : Scheduler :=
  set_s_run_queue
    (zupdate (s_run_queue s) t
       (zupdate (default [] (zlookup (s_run_queue s) t)) i legion)) s.

Definition store_head (t v : Z) (s : Scheduler) : Scheduler :=
  set_s_queue_head (zupdate (s_queue_head s) t v) s.

Definition store_tail (t v : Z) (s : Scheduler) : Scheduler :=
  set_s_queue_tail (zupdate (s_queue_tail s) t v) s.

Definition push_to_local_queue (thread_id : Z) (legion : option nat)
    (s : Scheduler) : Scheduler * Z :=
  let tail := queue_tail_of s thread_id in
  let next_tail := Z.rem (tail + 1) LEGION_QUEUE_SIZE in
  if next_tail =? queue_head_of s thread_id then (s, 0)
  else (store_tail thread_id next_tail (store_slot thread_id tail legion s), 1).

Definition pop_from_local_queue (thread_id : Z) (s : Scheduler)
    : Scheduler * option nat :=
  let head := queue_head_of s thread_id in
  let tail := queue_tail_of s thread_id in
  if head =? tail then (s, None)
  else
    let legion := queue_slot s thread_id head in
    (store_head thread_id (Z.rem (head + 1) LEGION_QUEUE_SIZE) s, legion).

(** [atomic_compare_exchange_strong] on one cell: the new contents and the
    outcome. *)
Definition compare_exchange (cell expected desired : Z) : Z * bool :=
  if cell =? expected then (desired, true) else (cell, false).

Definition steal_from_queue (victim_thread_id : Z) (s : Scheduler)
    : Scheduler * option nat :=
  let head := queue_head_of s victim_thread_id in
  let tail := queue_tail_of s victim_thread_id in
  if head =? tail then (s, None)
  else
    let expected := head in
    let next_head := Z.rem (head + 1) LEGION_QUEUE_SIZE in
    let '(cell, ok) :=
      compare_exchange (queue_head_of s victim_thread_id) expected next_head in
    if ok then
      let s' := store_head victim_thread_id cell s in
      (s', queue_slot s' victim_thread_id head)
    else (s, None).

Definition get_queue_length (thread_id : Z) (s : Scheduler) : Z :=
  let head := queue_head_of s thread_id in
  let tail := queue_tail_of s thread_id in
  if tail >=? head then tail - head
  else (LEGION_QUEUE_SIZE - head) + tail.

(** The loop [for (i = 1; i < MAX_OS_THREADS; i++)] of
    [find_least_loaded_thread], unrolled over the remaining indices. *)
Fixpoint least_loaded_scan (s : Scheduler) (idxs : list Z)
    (best_thread best_load : Z) : Z :=
  match idxs with
  | [] => best_thread
  | i :: rest =>
      let load := get_queue_length i s in
      if load <? best_load then least_loaded_scan s rest i load
      else least_loaded_scan s rest best_thread best_load
  end.

Definition find_least_loaded_thread (s : Scheduler) : Z :=
  least_loaded_scan s [1; 2; 3] 0 (get_queue_length 0 s).

Definition fetch_add_active (d : Z) (s : Scheduler) : Scheduler :=
  set_s_active_legions (wrap_int (s_active_legions s + d)) s.

Definition runtime_legion_start (legion : option nat) (w : World) : World :=
  match legion, g_scheduler w with
  | Some _, Some s =>
      let s := fetch_add_active 1 s in
      let queue_idx := find_least_loaded_thread s in
      let '(s1, pushed) := push_to_local_queue queue_idx legion s in
      if pushed =? 0 then
        (* queue full: the mutex-protected path *)
        let tail := queue_tail_of s1 queue_idx in
        let next_tail := Z.rem (tail + 1) LEGION_QUEUE_SIZE in
        if negb (next_tail =? queue_head_of s1 queue_idx) then
          set_g_scheduler
            (Some (store_tail queue_idx next_tail
                     (store_slot queue_idx tail legion s1))) w
        else set_g_scheduler (Some s1) w
      else set_g_scheduler (Some s1) w
  | _, _ => w
  end.

(** ** Legion life cycle *)

(** Applies [f] to [*g_scheduler]; with [g_scheduler == NULL] the access is
    a null dereference. *)
Definition with_scheduler (f : Scheduler -> Scheduler) (w : World) : World :=
  match g_scheduler w with
  | Some s => set_g_scheduler (Some (f s)) w
  | None => null_scheduler_access w
  end.

(** [g_scheduler->current_legion[thread_id] = NULL] *)
Definition clear_current (thread_id : Z) (s : Scheduler) : Scheduler :=
  set_s_current_legion (zupdate (s_current_legion s) thread_id None) s.

Definition allocate_stack_with_guard (mem : option Z) : Z :=
  match mem with
  | None => 0                                   (* MAP_FAILED: return NULL *)
  | Some m => wrap64 (m + LEGION_STACK_GUARD_SIZE)
  end.

Definition malphas_context_make_trampoline (a : Arch) (fn arg : reg)
    (stack_base stack_size : Z) : Context :=
  let sp := wrap64 (stack_base + stack_size) in
  let sp := Z.land sp (wrap64 (Z.lnot 15)) in
  let z := RWord 0 in
  match a with
  | AArch64 =>
      Ctx_aarch64 arg fn z z z z z z z z (RWord sp) RTrampoline (RWord sp)
  | X86_64 =>
      Ctx_x86_64 arg z fn z z z (RWord (wrap64 (sp - 8))) RTrampoline
  end.

(** [runtime_legion_spawn].  The results of the allocator are parameters:
    [a] is the address [runtime_alloc] returns for the [Legion], [mem] the
    result of [mmap] ([None] for [MAP_FAILED]) and [fallback] the address of
    the unguarded allocation used when [mmap] failed. *)
Definition runtime_legion_spawn (arch : Arch) (a : nat) (mem : option Z)
    (fallback : Z) (fn arg : Z) (stack_size : Z) (w : World)
    : World * option nat :=
  let stack_size := if stack_size =? 0 then LEGION_STACK_SIZE else stack_size in
  let stack_size :=
    if stack_size >? LEGION_STACK_MAX then LEGION_STACK_MAX else stack_size in
  let stack_base := allocate_stack_with_guard mem in
  let stack_base := if stack_base =? 0 then fallback else stack_base in
  let stack := stack_base in
  let id := g_legion_id_counter w in
  let ctx :=
    malphas_context_make_trampoline arch RLegionEntry (RLegion a) stack
      stack_size in
  let legion :=
    {| l_fn := fn; l_arg := arg; l_stack := stack; l_stack_base := stack_base;
       l_stack_size := stack_size; l_stack_cap := stack_size;
       l_ctx := ctx; l_ctx_saved := zero_context arch;
       l_state := LEGION_STATE_RUNNABLE; l_next := None;
       l_blocked_on := None; l_id := id; l_thread_id := -1;
       l_stack_overflow := 0 |} in
  (mkWorld (<[a := legion]> (legions w)) (channels w) (g_scheduler w)
     (wrap_int (id + 1)) (fault w),
   Some a).

(** The spill loop of [runtime_legion_yield]: the first other queue that
    accepts the legion ends the loop. *)
Fixpoint yield_spill (thread_id : Z) (current : option nat) (idxs : list Z)
    (s : Scheduler) : Scheduler :=
  match idxs with
  | [] => s
  | i :: rest =>
      if i =? thread_id then yield_spill thread_id current rest s
      else
        let '(s1, pushed) := push_to_local_queue i current s in
        if pushed =? 0 then yield_spill thread_id current rest s1 else s1
  end.

(** [runtime_legion_yield], up to the switch to the scheduler context.  The
    registers that [malphas_context_switch] saves are not part of the state.
    The function starts with [get_thread_id()], which reads
    [g_scheduler->thread_local_id] without a test for [NULL]. *)
Definition runtime_legion_yield (tls : Z) (w : World) : World :=
  match g_scheduler w with
  | None => null_scheduler_access w
  | Some s =>
      let thread_id := get_thread_id tls in
      if (thread_id <? 0) || (thread_id >=? MAX_OS_THREADS) then w
      else
        match default None (zlookup (s_current_legion s) thread_id) with
        | None => w
        | Some cur =>
            let w := update_legion cur (set_l_state LEGION_STATE_RUNNABLE) w in
            let '(s1, pushed) := push_to_local_queue thread_id (Some cur) s in
            let s2 :=
              if pushed =? 0
              then yield_spill thread_id (Some cur) [0; 1; 2; 3] s1
              else s1 in
            let w := set_g_scheduler (Some (clear_current thread_id s2)) w in
            update_legion cur (set_l_thread_id (-1)) w
        end
  end.

(** [runtime_legion_block].  After the test of [legion] the first statement
    is [get_thread_id()], which reads [g_scheduler->thread_local_id] without
    a test for [NULL]: with no scheduler nothing is stored. *)
Definition runtime_legion_block (tls : Z) (legion channel : option nat)
    (w : World) : World :=
  match legion, g_scheduler w with
  | None, _ => w
  | Some l, None => null_scheduler_access w
  | Some l, Some _ =>
      let thread_id := get_thread_id tls in
      let w :=
        if (thread_id >=? 0) && (thread_id <? MAX_OS_THREADS) then
          update_legion l (set_l_thread_id (-1))
            (with_scheduler (clear_current thread_id) w)
        else w in
      let w := update_legion l (set_l_state LEGION_STATE_BLOCKED) w in
      let w := update_legion l (set_l_blocked_on channel) w in
      with_scheduler (fetch_add_active (-1)) w
  end.

(** [legion->state], read through a pointer known to be non-null. *)
Definition legion_state (l : nat) (w : World) : option LegionState :=
  l_state <$> legions w !! l.

Definition is_blocked (l : nat) (w : World) : bool :=
  match legion_state l w with
  | Some st => LegionState_eqb st LEGION_STATE_BLOCKED
  | None => false
  end.

Definition unblock_legion_from_channel (legion : option nat) (w : World)
    : World :=
  match legion with
  | None => w
  | Some l =>
      if negb (is_blocked l w) then w
      else
        let w := update_legion l (set_l_state LEGION_STATE_RUNNABLE) w in
        let w := update_legion l (set_l_blocked_on None) w in
        let w := with_scheduler (fetch_add_active 1) w in
        runtime_legion_start (Some l) w
  end.

Definition runtime_legion_unblock (legion : option nat) (w : World) : World :=
  match legion with
  | None => w
  | Some l =>
      if negb (is_blocked l w) then w
      else
        let w := update_legion l (set_l_state LEGION_STATE_RUNNABLE) w in
        let w := update_legion l (set_l_blocked_on None) w in
        let w := with_scheduler (fetch_add_active 1) w in
        runtime_legion_start (Some l) w
  end.

(** The dispatch of [runtime_scheduler_run] (step 4), up to the switch into
    the legion: a RUNNABLE legion becomes the current legion of the worker. *)
Definition dispatch (thread_id : Z) (legion : option nat) (w : World) : World :=
  match legion with
  | None => w
  | Some l =>
      match legion_state l w with
      | Some LEGION_STATE_RUNNABLE =>
          let w :=
            with_scheduler
              (fun s =>
                 set_s_current_legion
                   (zupdate (s_current_legion s) thread_id (Some l)) s) w in
          let w := update_legion l (set_l_thread_id thread_id) w in
          update_legion l (set_l_state LEGION_STATE_RUNNING) w
      | _ => w
      end
  end.

(** ** Channels *)

(** [memcpy(buf + off, src, n)]: the first [n] bytes of [src] overwrite the
    bytes of [buf] from offset [off] on; [buf] keeps its length. *)
Definition memcpy_into (buf : list byte) (off : Z) (src : list byte) (n : Z)
    : list byte :=
  if off <? 0 then buf
  else list_inserts (Z.to_nat off) (take (Z.to_nat n) src) buf.

(** The [n] bytes of [buf] from offset [off] on, as [memcpy] copies them into
    a fresh allocation. *)
Definition memcpy_from (buf : list byte) (off : Z) (n : Z) : list byte :=
  take (Z.to_nat n) (drop (Z.to_nat off) buf).

(** [runtime_channel_new]; [a] is the address [runtime_alloc] returns for the
    [Channel], and the buffer is the zeroed block of
    [elem_size * capacity] bytes. *)
Definition runtime_channel_new (a : nat) (elem_size capacity : Z) (w : World)
    : World * option nat :=
  let ch :=
    {| ch_buffer := repeat x00 (Z.to_nat (wrap64 (elem_size * capacity)));
       ch_elem_size := elem_size;
       ch_capacity := capacity;
       ch_head := 0; ch_tail := 0; ch_count := 0;
       ch_closed := 0;
       ch_blocked_senders := None;
       ch_blocked_receivers := None |} in
  (set_channels (<[a := ch]> (channels w)) w, Some a).

(** How one pass through [runtime_channel_send] ends. *)
Inductive SendOutcome :=
| SendReturned      (* the call returned *)
| SendParked        (* linked into blocked_senders; the caller yields next *)
| SendCondWait.     (* pthread_cond_wait on not_full *)

(** How one pass through [runtime_channel_recv] ends; a returned pointer is
    [None] for [NULL] and [Some bs] for a fresh block holding [bs]. *)
Inductive RecvOutcome :=
| RecvReturned (result : option (list byte))
| RecvParked
| RecvCondWait.

(** The enqueue shared by [runtime_channel_send] and
    [runtime_channel_try_send]:
    [memcpy(buffer + tail * elem_size, value, elem_size);
     tail = (tail + 1) % capacity; count++]. *)
Definition enqueue (value : list byte) (c : Channel) : Channel :=
  mkChannel
    (memcpy_into (ch_buffer c) (wrap64 (ch_tail c * ch_elem_size c)) value
       (ch_elem_size c))
    (ch_elem_size c) (ch_capacity c) (ch_head c)
    (wrap64 (ch_tail c + 1) mod ch_capacity c)
    (wrap64 (ch_count c + 1))
    (ch_closed c) (ch_blocked_senders c) (ch_blocked_receivers c).

(** The dequeue shared by [runtime_channel_recv] and
    [runtime_channel_try_recv]: the copy of the slot at [head], then
    [head = (head + 1) % capacity; count--]. *)
Definition dequeue (c : Channel) : Channel * list byte :=
  (mkChannel (ch_buffer c) (ch_elem_size c) (ch_capacity c)
     (wrap64 (ch_head c + 1) mod ch_capacity c)
     (ch_tail c)
     (wrap64 (ch_count c - 1))
     (ch_closed c) (ch_blocked_senders c) (ch_blocked_receivers c),
   memcpy_from (ch_buffer c) (wrap64 (ch_head c * ch_elem_size c))
     (ch_elem_size c)).

(** [legion->next], read through a non-null pointer. *)
Definition legion_next (l : nat) (w : World) : option nat :=
  match legions w !! l with
  | Some L => l_next L
  | None => None
  end.

(** [if (ch->blocked_receivers) { ... unblock_legion_from_channel(receiver); }] *)
Definition wake_receiver (p : nat) (w : World) : World :=
  match channels w !! p with
  | Some c =>
      match ch_blocked_receivers c with
      | Some receiver =>
          let w :=
            update_channel p
              (set_ch_blocked_receivers (legion_next receiver w)) w in
          let w := update_legion receiver (set_l_next None) w in
          unblock_legion_from_channel (Some receiver) w
      | None => w
      end
  | None => w
  end.

(** [if (ch->blocked_senders) { ... unblock_legion_from_channel(sender); }] *)
Definition wake_sender (p : nat) (w : World) : World :=
  match channels w !! p with
  | Some c =>
      match ch_blocked_senders c with
      | Some sender =>
          let w :=
            update_channel p
              (set_ch_blocked_senders (legion_next sender w)) w in
          let w := update_legion sender (set_l_next None) w in
          unblock_legion_from_channel (Some sender) w
      | None => w
      end
  | None => w
  end.

Definition runtime_channel_send (tls : Z) (ch : option nat)
    (value : list byte) (w : World) : World * SendOutcome :=
  match ch with
  | None => (w, SendReturned)
  | Some p =>
      match channels w !! p with
      | None => (w, SendReturned)               (* dangling: outside the model *)
      | Some c =>
          if (ch_count c >=? ch_capacity c) && (ch_closed c =? 0) then
            match runtime_get_current_legion tls w with
            | Some current =>
                let w :=
                  update_legion current
                    (set_l_next (ch_blocked_senders c)) w in
                let w :=
                  update_channel p (set_ch_blocked_senders (Some current)) w in
                (runtime_legion_block tls (Some current) (Some p) w,
                 SendParked)
            | None => (w, SendCondWait)
            end
          else if negb (ch_closed c =? 0) then (w, SendReturned)
          else
            let w := update_channel p (enqueue value) w in
            (wake_receiver p w, SendReturned)
      end
  end.

Definition runtime_channel_recv (tls : Z) (ch : option nat) (w : World)
    : World * RecvOutcome :=
  match ch with
  | None => (w, RecvReturned None)
  | Some p =>
      match channels w !! p with
      | None => (w, RecvReturned None)          (* dangling: outside the model *)
      | Some c =>
          if (ch_count c =? 0) && (ch_closed c =? 0) then
            match runtime_get_current_legion tls w with
            | Some current =>
                let w :=
                  update_legion current
                    (set_l_next (ch_blocked_receivers c)) w in
                let w :=
                  update_channel p (set_ch_blocked_receivers (Some current)) w in
                (runtime_legion_block tls (Some current) (Some p) w,
                 RecvParked)
            | None => (w, RecvCondWait)
            end
          else if (ch_count c =? 0) && negb (ch_closed c =? 0) then
            (w, RecvReturned None)
          else
            let result := snd (dequeue c) in
            let w := update_channel p (fun c => fst (dequeue c)) w in
            (wake_sender p w, RecvReturned (Some result))
      end
  end.

Definition runtime_channel_close (ch : option nat) (w : World) : World :=
  match ch with
  | None => w
  | Some p => update_channel p (set_ch_closed 1) w
  end.

Definition runtime_channel_is_closed (ch : option nat) (w : World) : Z :=
  match ch with
  | None => 1
  | Some p =>
      match channels w !! p with
      | Some c => to_int8 (ch_closed c)
      | None => 0
      end
  end.

Definition runtime_channel_try_send (ch : option nat) (value : list byte)
    (w : World) : World * Z :=
  match ch with
  | None => (w, 0)
  | Some p =>
      match channels w !! p with
      | None => (w, 0)
      | Some c =>
          if negb (ch_closed c =? 0) then (w, 0)
          else if ch_count c >=? ch_capacity c then (w, 0)
          else (update_channel p (enqueue value) w, 1)
      end
  end.

(** What [runtime_channel_try_recv] leaves in [*value]. *)
Inductive OutParam :=
| NotWritten
| Written (v : option (list byte)).

(** [runtime_channel_try_recv]; [value] tells whether the out-parameter is a
    non-null pointer. *)
Definition runtime_channel_try_recv (ch : option nat) (value : bool)
    (w : World) : World * Z * OutParam :=
  match ch, value with
  | Some p, true =>
      match channels w !! p with
      | None => (w, 0, NotWritten)
      | Some c =>
          if (ch_count c =? 0) && (ch_closed c =? 0) then (w, 0, NotWritten)
          else if (ch_count c =? 0) && negb (ch_closed c =? 0) then
            (w, 0, Written None)
          else
            let result := snd (dequeue c) in
            (update_channel p (fun c => fst (dequeue c)) w, 1,
             Written (Some result))
      end
  | _, _ => (w, 0, NotWritten)
  end.

(** ** Operation sequences on one channel *)

(** One pass of a thread through a channel operation.  A blocking operation
    that parked its legion goes on to [runtime_legion_yield], as the source
    does after releasing the mutex. *)
Inductive ChanOp :=
| OpSend (tls : Z) (value : list byte)
| OpRecv (tls : Z)
| OpTrySend (value : list byte)
| OpTryRecv (value : bool)
| OpClose.

Definition exec_op (ch : option nat) (op : ChanOp) (w : World) : World :=
  match op with
  | OpSend tls value =>
      let '(w', out) := runtime_channel_send tls ch value w in
      match out with
      | SendParked => runtime_legion_yield tls w'
      | _ => w'
      end
  | OpRecv tls =>
      let '(w', out) := runtime_channel_recv tls ch w in
      match out with
      | RecvParked => runtime_legion_yield tls w'
      | _ => w'
      end
  | OpTrySend value => fst (runtime_channel_try_send ch value w)
  | OpTryRecv value => fst (fst (runtime_channel_try_recv ch value w))
  | OpClose => runtime_channel_close ch w
  end.

Definition run_ops (ch : option nat) (ops : list ChanOp) (w : World) : World :=
  foldl (fun w op => exec_op ch op w) w ops.

(** Invariant I2 on the counters, in the inductive form
    [tail = (head + count) mod capacity]. *)
Definition counters_ok (C : Z) (c : Channel) : Prop :=
  ch_capacity c = C /\
  0 <= ch_count c <= C /\
  0 <= ch_head c < C /\
  0 <= ch_tail c < C /\
  (ch_head c + ch_count c) mod C = ch_tail c.

(** The buffer holds [capacity] slots of [elem_size] bytes. *)
Definition buffer_ok (E C : Z) (c : Channel) : Prop :=
  ch_elem_size c = E /\
  0 <= E /\ E * C < 2 ^ 64 /\
  Z.of_nat (length (ch_buffer c)) = E * C.

Definition chan_wf (E C : Z) (c : Channel) : Prop :=
  1 <= C /\ counters_ok C c /\ buffer_ok E C c.

(** Slot [i] of the buffer. *)
Definition slot (c : Channel) (i : Z) : list byte :=
  memcpy_from (ch_buffer c) (i * ch_elem_size c) (ch_elem_size c).

(** The buffered values, oldest first: the [count] slots from [head] on,
    around the ring. *)
Definition chan_contents (c : Channel) : list (list byte) :=
  map (fun k => slot c ((ch_head c + Z.of_nat k) mod ch_capacity c))
    (seq 0 (Z.to_nat (ch_count c))).

(** The channel at [a] is well formed, its [closed] flag is [cl], and it
    buffers the values [q], oldest first. *)
Definition holds (E C : Z) (a : nat) (w : World) (cl : Z)
    (q : list (list byte)) : Prop :=
  exists c, channels w !! a = Some c /\ chan_wf E C c /\
            ch_closed c = cl /\ chan_contents c = q.

(** ** One sender, one receiver *)

Record Spsc := mkSpsc {
  sp_world : World;
  sp_pending : list (list byte);       (* values the sender has still to send *)
  sp_received : list (list byte)       (* values the receiver has obtained *)
}.

Inductive Turn :=
| SenderTurn (tls : Z)
| ReceiverTurn (tls : Z).

(** The sender works on the first pending value until its [send] returns;
    the receiver appends every value a [recv] returns. *)
Definition spsc_step (ch : option nat) (st : Spsc) (t : Turn) : Spsc :=
  match t with
  | SenderTurn tls =>
      match sp_pending st with
      | [] => st
      | v :: rest =>
          let '(w, out) := runtime_channel_send tls ch v (sp_world st) in
          match out with
          | SendReturned => mkSpsc w rest (sp_received st)
          | SendParked =>
              mkSpsc (runtime_legion_yield tls w) (sp_pending st)
                (sp_received st)
          | SendCondWait => mkSpsc w (sp_pending st) (sp_received st)
          end
      end
  | ReceiverTurn tls =>
      let '(w, out) := runtime_channel_recv tls ch (sp_world st) in
      match out with
      | RecvReturned (Some v) =>
          mkSpsc w (sp_pending st) (sp_received st ++ [v])
      | RecvReturned None => mkSpsc w (sp_pending st) (sp_received st)
      | RecvParked =>
          mkSpsc (runtime_legion_yield tls w) (sp_pending st) (sp_received st)
      | RecvCondWait => mkSpsc w (sp_pending st) (sp_received st)
      end
  end.

Definition spsc_run (ch : option nat) (sched : list Turn) (st : Spsc) : Spsc :=
  foldl (spsc_step ch) st sched.

(** A fresh channel at address [a] and the values [vs] still to be sent. *)
Definition spsc_init (a : nat) (E k : Z) (vs : list (list byte)) (w : World)
    : Spsc :=
  mkSpsc (fst (runtime_channel_new a E k w)) vs [].

(** The schedule in which sender and receiver take turns, [n] times. *)
Fixpoint ping_pong (n : nat) : list Turn :=
  match n with
  | O => []
  | S m => SenderTurn 0 :: ReceiverTurn 0 :: ping_pong m
  end.

(** [n] consecutive receives by one thread, with what each returned. *)
Fixpoint recv_n (tls : Z) (ch : option nat) (n : nat) (w : World)
    : World * list RecvOutcome :=
  match n with
  | O => (w, [])
  | S m =>
      let '(w1, out) := runtime_channel_recv tls ch w in
      let '(w2, outs) := recv_n tls ch m w1 in
      (w2, out :: outs)
  end.

Definition closed_at (a : nat) (w : World) : Prop :=
  exists c, channels w !! a = Some c /\ ch_closed c <> 0.

(** ** Park lists *)

(** [is_chain m p xs]: following [next] from [p] in the legion heap [m]
    visits exactly the legions [xs] and ends at [NULL]. *)
Inductive is_chain (m : gmap nat Legion) : option nat -> list nat -> Prop :=
| chain_nil : is_chain m None []
| chain_cons l L xs :
    m !! l = Some L ->
    is_chain m (l_next L) xs ->
    is_chain m (Some l) (l :: xs).

(** The same walk as a function, for at most [fuel] links. *)
Fixpoint park_list (m : gmap nat Legion) (fuel : nat) (p : option nat)
    : list nat :=
  match fuel, p with
  | S f, Some l =>
      l :: park_list m f
             (match m !! l with Some L => l_next L | None => None end)
  | _, _ => []
  end.

(** ** Run-queue contents *)

(** The slots from [head] up to [tail], around the ring. *)
Definition queue_contents (t : Z) (s : Scheduler) : list (option nat) :=
  map (fun k =>
         queue_slot s t
           (Z.rem (queue_head_of s t + Z.of_nat k) LEGION_QUEUE_SIZE))
    (seq 0 (Z.to_nat (get_queue_length t s))).

Definition option_nat_eqb (a b : option nat) : bool :=
  match a, b with
  | Some x, Some y => Nat.eqb x y
  | None, None => true
  | _, _ => false
  end.

(** Is the legion in the run queue of some worker? *)
Definition legion_queued (l : nat) (w : World) : bool :=
  match g_scheduler w with
  | None => false
  | Some s =>
      existsb
        (fun t => existsb (option_nat_eqb (Some l)) (queue_contents t s))
        [0; 1; 2; 3]
  end.

Definition queue_full (t : Z) (s : Scheduler) : bool :=
  Z.rem (queue_tail_of s t + 1) LEGION_QUEUE_SIZE =? queue_head_of s t.

(** ** Owner pop against a concurrent steal

    The two routines at the granularity of their shared-memory accesses: every
    atomic load, store and compare-exchange and every read of a queue slot is
    one step of the thread that performs it. *)

Inductive PopPc :=
| PopLoadHead
| PopLoadTail (head : Z)
| PopReadSlot (head : Z)
| PopStoreHead (head : Z) (legion : option nat)
| PopDone (result : option nat).

Inductive StealPc :=
| StealLoadHead
| StealLoadTail (head : Z)
| StealCas (head : Z)
| StealReadSlot (head : Z)
| StealDone (result : option nat).

Definition pop_step (thread_id : Z) (pc : PopPc) (s : Scheduler)
    : PopPc * Scheduler :=
  match pc with
  | PopLoadHead => (PopLoadTail (queue_head_of s thread_id), s)
  | PopLoadTail head =>
      let tail := queue_tail_of s thread_id in
      if head =? tail then (PopDone None, s) else (PopReadSlot head, s)
  | PopReadSlot head => (PopStoreHead head (queue_slot s thread_id head), s)
  | PopStoreHead head legion =>
      (PopDone legion,
       store_head thread_id (Z.rem (head + 1) LEGION_QUEUE_SIZE) s)
  | PopDone r => (PopDone r, s)
  end.

Definition steal_step (victim_thread_id : Z) (pc : StealPc) (s : Scheduler)
    : StealPc * Scheduler :=
  match pc with
  | StealLoadHead => (StealLoadTail (queue_head_of s victim_thread_id), s)
  | StealLoadTail head =>
      let tail := queue_tail_of s victim_thread_id in
      if head =? tail then (StealDone None, s) else (StealCas head, s)
  | StealCas head =>
      let next_head := Z.rem (head + 1) LEGION_QUEUE_SIZE in
      let '(cell, ok) :=
        compare_exchange (queue_head_of s victim_thread_id) head next_head in
      if ok then (StealReadSlot head, store_head victim_thread_id cell s)
      else (StealDone None, s)
  | StealReadSlot head =>
      (StealDone (queue_slot s victim_thread_id head), s)
  | StealDone r => (StealDone r, s)
  end.

Inductive Who := Owner | Thief.

(** The owner of queue [t] pops while a thief steals from the same queue. *)
Definition race_step (t : Z) (st : Scheduler * PopPc * StealPc) (who : Who)
    : Scheduler * PopPc * StealPc :=
  let '(s, ppc, spc) := st in
  match who with
  | Owner => let '(ppc', s') := pop_step t ppc s in (s', ppc', spc)
  | Thief => let '(spc', s') := steal_step t spc s in (s', ppc, spc')
  end.

Definition race_run (t : Z) (sched : list Who) (s : Scheduler)
    : Scheduler * PopPc * StealPc :=
  foldl (race_step t) (s, PopLoadHead, StealLoadHead) sched.

(** ** Concrete states used in the examples below *)

Definition empty_world : World := mkWorld ∅ ∅ None 0 false.

(** A worker's ring with the legions [base], ..., [base + 254] in slots
    0 to 254: with [head = 0] and [tail = 255] the ring is full. *)
Definition full_ring (base : nat) : list (option nat) :=
  map Some (seq base 255) ++ [None].

Definition full_scheduler : Scheduler :=
  {| s_num_threads := MAX_OS_THREADS;
     s_run_queue :=
       [full_ring 1000; full_ring 2000; full_ring 3000; full_ring 4000];
     s_queue_head := [0; 0; 0; 0];
     s_queue_tail := [255; 255; 255; 255];
     s_active_legions := 1020;
     s_shutdown := 0;
     s_current_legion := [None; None; None; None] |}.

Definition full_world : World :=
  mkWorld ∅ ∅ (Some full_scheduler) 1020 false.

(** A scheduler as [runtime_scheduler_init] leaves it. *)
Definition idle_scheduler : Scheduler :=
  {| s_num_threads := MAX_OS_THREADS;
     s_run_queue := repeat (repeat None 256) 4;
     s_queue_head := [0; 0; 0; 0];
     s_queue_tail := [0; 0; 0; 0];
     s_active_legions := 0;
     s_shutdown := 0;
     s_current_legion := [None; None; None; None] |}.

(** Worker 1 has the single legion 7 in its queue. *)
Definition one_legion_scheduler : Scheduler :=
  fst (push_to_local_queue 1 (Some 7%nat) idle_scheduler).

(** The invariant of a run with one sender and one receiver: the channel is
    open and well formed, and the values received, buffered and still to be
    sent are, in this order, the values [vs]. *)
Definition spsc_inv (E C : Z) (a : nat) (vs : list (list byte)) (st : Spsc)
    : Prop :=
  exists q,
    holds E C a (sp_world st) 0 q /\
    sp_received st ++ q ++ sp_pending st = vs /\
    Forall (fun v => Z.of_nat (length v) = E) (sp_pending st).

(** What a wake-up leaves of legion [l]: it is off the park list, and if it
    was BLOCKED in [w] it is RUNNABLE in [w'] and blocked on nothing. *)
Definition woken (l : nat) (w w' : World) : Prop :=
  exists L L',
    legions w !! l = Some L /\ legions w' !! l = Some L' /\
    l_next L' = None /\
    (l_state L = LEGION_STATE_BLOCKED ->
     l_state L' = LEGION_STATE_RUNNABLE /\ l_blocked_on L' = None) /\
    (l_state L <> LEGION_STATE_BLOCKED ->
     l_state L' = l_state L /\ l_blocked_on L' = l_blocked_on L).

(** What parking leaves of legion [l]: BLOCKED on channel [a], linked in
    front of [old_head]. *)
Definition parked (l : nat) (a : nat) (old_head : option nat) (w' : World)
    : Prop :=
  exists L',
    legions w' !! l = Some L' /\
    l_next L' = old_head /\
    l_state L' = LEGION_STATE_BLOCKED /\
    l_blocked_on L' = Some a.

(** Two spawned legions, 7 and 8, under an idle scheduler. *)
Definition two_legions_world : World :=
  let w := mkWorld ∅ ∅ (Some idle_scheduler) 0 false in
  let w := fst (runtime_legion_spawn X86_64 7 (Some 1048576) 0 100 0 0 w) in
  fst (runtime_legion_spawn X86_64 8 (Some 4194304) 0 100 0 0 w).

(** A channel of capacity 1 at address 1 that is full; legion 8, running on
    worker 2, has parked itself in a send; legion 7 runs on worker 1. *)
Definition full_channel_world : World :=
  let w := fst (runtime_channel_new 1 1 1 two_legions_world) in
  let w := fst (runtime_channel_try_send (Some 1%nat) [x05] w) in
  let w := dispatch 2 (Some 8%nat) w in
  let w := fst (runtime_channel_send 2 (Some 1%nat) [x06] w) in
  dispatch 1 (Some 7%nat) w.

(** A full channel of capacity 1 at address 1 while legion 7 runs on
    worker 0. *)
Definition worker0_full_world : World :=
  let w := fst (runtime_channel_new 1 1 1 two_legions_world) in
  let w := fst (runtime_channel_try_send (Some 1%nat) [x05] w) in
  dispatch 0 (Some 7%nat) w.

(** An empty channel of capacity 1 at address 1 while legion 7 runs on
    worker 0. *)
Definition worker0_empty_world : World :=
  dispatch 0 (Some 7%nat)
    (fst (runtime_channel_new 1 1 1 two_legions_world)).

(** The same after legion 7 has parked itself in a send as well. *)
Definition two_senders_world : World :=
  fst (runtime_channel_send 1 (Some 1%nat) [x07] full_channel_world).

(** A channel of capacity 1 at address 1 that is empty; legion 8, running on
    worker 2, has parked itself in a recv; legion 7 runs on worker 1. *)
Definition empty_channel_world : World :=
  let w := fst (runtime_channel_new 1 1 1 two_legions_world) in
  let w := dispatch 2 (Some 8%nat) w in
  let w := fst (runtime_channel_recv 2 (Some 1%nat) w) in
  dispatch 1 (Some 7%nat) w.

(** The same after legion 7 has parked itself in a recv as well. *)
Definition two_receivers_world : World :=
  fst (runtime_channel_recv 1 (Some 1%nat) empty_channel_world).

(** A channel of capacity 2 with the one-byte values 1 and 2 buffered, then
    closed. *)
Definition closed_channel_world : World :=
  let w := fst (runtime_channel_new 1 1 2 empty_world) in
  let w := fst (runtime_channel_try_send (Some 1%nat) [x01] w) in
  let w := fst (runtime_channel_try_send (Some 1%nat) [x02] w) in
  runtime_channel_close (Some 1%nat) w.

(** The channel record at address 1 in each of these four worlds. *)
Definition full_channel : Channel :=
  mkChannel [x05] 1 1 0 0 1 0 (Some 8%nat) None.

Definition two_senders_channel : Channel :=
  mkChannel [x05] 1 1 0 0 1 0 (Some 7%nat) None.

Definition empty_channel : Channel :=
  mkChannel [x00] 1 1 0 0 0 0 None (Some 8%nat).

Definition two_receivers_channel : Channel :=
  mkChannel [x00] 1 1 0 0 0 0 None (Some 7%nat).

(** The shape [runtime_scheduler_init] gives the queues and the queue
    operations keep: four rings of 256 slots, indices within the ring. *)
Definition sched_wf (s : Scheduler) : Prop :=
  length (s_run_queue s) = 4%nat /\
  Forall (fun q => length q = 256%nat) (s_run_queue s) /\
  length (s_queue_head s) = 4%nat /\
  length (s_queue_tail s) = 4%nat /\
  Forall (fun h => 0 <= h < LEGION_QUEUE_SIZE) (s_queue_head s) /\
  Forall (fun t => 0 <= t < LEGION_QUEUE_SIZE) (s_queue_tail s).

(** Walks a concrete park list. *)
Ltac walk_chain :=
  repeat (eapply chain_cons; [vm_compute; reflexivity | cbn [l_next]]);
  apply chain_nil.

Ltac by_decide := apply (bool_decide_unpack _); vm_compute; reflexivity.

(** ** The worker loop *)

(** The steal rotation of [runtime_scheduler_run]: for each [attempt] the
    victim is [(thread_id + attempt + 1) % MAX_OS_THREADS], and the first
    steal that returns a legion ends the loop. *)
Fixpoint steal_rotation (thread_id : Z) (attempts : list Z) (s : Scheduler)
    : Scheduler * option nat :=
  match attempts with
  | [] => (s, None)
  | attempt :: rest =>
      let victim := Z.rem (thread_id + attempt + 1) MAX_OS_THREADS in
      let '(s', legion) := steal_from_queue victim s in
      match legion with
      | Some _ => (s', legion)
      | None => steal_rotation thread_id rest s'
      end
  end.

(** Steps 1 and 2 of the loop body of [runtime_scheduler_run]: the pop from
    the worker's own queue and, when that gives nothing, the steal rotation
    over [WORK_STEAL_ATTEMPTS] victims. *)
Definition find_work (thread_id : Z) (s : Scheduler)
    : Scheduler * option nat :=
  let '(s1, legion) := pop_from_local_queue thread_id s in
  match legion with
  | Some _ => (s1, legion)
  | None => steal_rotation thread_id [0; 1; 2] s1
  end.

(** The order in which worker [thread_id] looks at the queues. *)
Definition search_order (thread_id : Z) : list Z :=
  [thread_id;
   Z.rem (thread_id + 0 + 1) MAX_OS_THREADS;
   Z.rem (thread_id + 1 + 1) MAX_OS_THREADS;
   Z.rem (thread_id + 2 + 1) MAX_OS_THREADS].

(** ** Channel operations, continued *)

Definition is_close (op : ChanOp) : bool :=
  match op with
  | OpClose => true
  | _ => false
  end.

(** ** Strings *)

(** [String]: the length and the block [data] points to ([None] for a null
    [data]).  A pointer to a [String] is an [option String]. *)
Record String := mkString {
  str_len : Z;
  str_data : option (list byte)
}.

(** [runtime_string_new]: a block of [len + 1] zeroed bytes, the first [len]
    bytes of [data] copied in, and the terminator stored at [len]. *)
Definition runtime_string_new (data : list byte) (len : Z) : String :=
  let block := repeat x00 (Z.to_nat (wrap64 (len + 1))) in
  let block := memcpy_into block 0 data len in
  mkString len (Some (zupdate block len x00)).

(** The [len] bytes of a string, as [memcpy] and [memcmp] read them. *)
Definition str_bytes (s : String) : list byte :=
  take (Z.to_nat (str_len s)) (default [] (str_data s)).

Definition runtime_string_cstr (s : option String) : list byte :=
  match s with
  | Some s => default [] (str_data s)
  | None => [x00]
  end.

Definition runtime_string_concat (a b : option String) : String :=
  match a, b with
  | None, None => runtime_string_new [] 0
  | None, Some b => runtime_string_new (default [] (str_data b)) (str_len b)
  | Some a, None => runtime_string_new (default [] (str_data a)) (str_len a)
  | Some a, Some b =>
      let total_len := wrap64 (str_len a + str_len b) in
      let block := repeat x00 (Z.to_nat (wrap64 (total_len + 1))) in
      let block :=
        memcpy_into block 0 (default [] (str_data a)) (str_len a) in
      let block :=
        memcpy_into block (str_len a) (default [] (str_data b)) (str_len b) in
      mkString total_len (Some (zupdate block total_len x00))
  end.

Definition runtime_string_from_bool (value : Z) : String :=
  if negb (value =? 0) then runtime_string_new [x74; x72; x75; x65] 4
  else runtime_string_new [x66; x61; x6c; x73; x65] 5.

(** [memcmp(a, b, n) == 0] on blocks that hold at least [n] bytes. *)
Fixpoint bytes_eqb (a b : list byte) : bool :=
  match a, b with
  | [], [] => true
  | x :: a', y :: b' => Strings.Byte.eqb x y && bytes_eqb a' b'
  | _, _ => false
  end.

Definition string_equal (a b : option String) : Z :=
  match a, b with
  | None, None => 1
  | None, Some _ | Some _, None => 0
  | Some a, Some b =>
      if negb (str_len a =? str_len b) then 0
      else if bytes_eqb (str_bytes a) (str_bytes b) then 1 else 0
  end.

Definition runtime_string_equal (a b : option String) : Z := string_equal a b.

(** The value of a [char] converted to [size_t]: with a signed [char] the
    bytes from 128 on are negative and wrap around. *)
Definition char_to_size_t (signed_char : bool) (b : byte) : Z :=
  let u := Z.of_N (Strings.Byte.to_N b) in
  if signed_char && (128 <=? u) then wrap64 (u - 256) else u.

(** [hash_string]: [hash = ((hash << 5) + hash) + data[i]] from 5381 on. *)
Definition hash_string (signed_char : bool) (key : option String) : Z :=
  match key with
  | None => 0
  | Some k =>
      match str_data k with
      | None => 0
      | Some _ =>
          fold_left
            (fun hash c =>
               wrap64 (wrap64 (wrap64 (Z.shiftl hash 5) + hash)
                       + char_to_size_t signed_char c))
            (str_bytes k) 5381
      end
  end.

(** ** Hash maps *)

Definition HASHMAP_INITIAL_SIZE : Z := 16.

(** A [HashMapEntry] without its [next] link: a bucket is the list of its
    entries from the head of the chain on.  The value is a pointer. *)
Record HashMapEntry := mkEntry {
  e_key : option String;
  e_value : option nat
}.

Record HashMap := mkHashMap {
  hm_buckets : list (list HashMapEntry);
  hm_size : Z;
  hm_capacity : Z
}.

Definition runtime_hashmap_new : HashMap :=
  mkHashMap (repeat [] (Z.to_nat HASHMAP_INITIAL_SIZE)) 0
    HASHMAP_INITIAL_SIZE.

(** The walk over a chain that [runtime_hashmap_put] does: the value of the
    first entry whose key equals [key] is replaced; [None] when no entry
    matches. *)
Fixpoint chain_update (key : option String) (value : option nat)
    (chain : list HashMapEntry) : option (list HashMapEntry) :=
  match chain with
  | [] => None
  | entry :: rest =>
      if negb (string_equal (e_key entry) key =? 0)
      then Some (mkEntry (e_key entry) value :: rest)
      else (fun r => entry :: r) <$> chain_update key value rest
  end.

(** The walk of [runtime_hashmap_get] and [runtime_hashmap_contains_key]:
    the first entry whose key equals [key]. *)
Fixpoint chain_find (key : option String) (chain : list HashMapEntry)
    : option HashMapEntry :=
  match chain with
  | [] => None
  | entry :: rest =>
      if negb (string_equal (e_key entry) key =? 0) then Some entry
      else chain_find key rest
  end.

Definition bucket_index (signed_char : bool) (map : HashMap)
    (key : option String) : Z :=
  hash_string signed_char key mod hm_capacity map.

Definition bucket_at (map : HashMap) (index : Z) : list HashMapEntry :=
  default [] (zlookup (hm_buckets map) index).

Definition runtime_hashmap_put (signed_char : bool) (map : option HashMap)
    (key : option String) (value : option nat) : option HashMap :=
  match map, key with
  | Some m, Some _ =>
      let index := bucket_index signed_char m key in
      match chain_update key value (bucket_at m index) with
      | Some chain =>
          Some (mkHashMap (zupdate (hm_buckets m) index chain) (hm_size m)
                  (hm_capacity m))
      | None =>
          Some (mkHashMap
                  (zupdate (hm_buckets m) index
                     (mkEntry key value :: bucket_at m index))
                  (wrap64 (hm_size m + 1)) (hm_capacity m))
      end
  | _, _ => map
  end.

Definition runtime_hashmap_get (signed_char : bool) (map : option HashMap)
    (key : option String) : option nat :=
  match map, key with
  | Some m, Some _ =>
      match chain_find key (bucket_at m (bucket_index signed_char m key)) with
      | Some entry => e_value entry
      | None => None
      end
  | _, _ => None
  end.

Definition runtime_hashmap_contains_key (signed_char : bool)
    (map : option HashMap) (key : option String) : Z :=
  match map, key with
  | Some m, Some _ =>
      match chain_find key (bucket_at m (bucket_index signed_char m key)) with
      | Some _ => 1
      | None => 0
      end
  | _, _ => 0
  end.

Definition runtime_hashmap_len (map : option HashMap) : Z :=
  match map with
  | Some m => hm_size m
  | None => 0
  end.

Definition runtime_hashmap_is_empty (map : option HashMap) : Z :=
  match map with
  | None => 1
  | Some m => if hm_size m =? 0 then 1 else 0
  end.

(** A string as the runtime makes it: a non-null block that holds at least
    [len] bytes. *)
Definition string_ok (s : String) : Prop :=
  0 <= str_len s /\
  exists d, str_data s = Some d /\ (Z.to_nat (str_len s) <= length d)%nat.

(** All keys of a chain, from its head on. *)
Definition entry_keys (chain : list HashMapEntry) : list (option String) :=
  e_key <$> chain.

(** No two keys of the list are equal strings. *)
Definition keys_distinct (keys : list (option String)) : Prop :=
  forall (j1 j2 : nat) k1 k2,
    keys !! j1 = Some k1 -> keys !! j2 = Some k2 ->
    string_equal k1 k2 <> 0 -> j1 = j2.

(** The shape every map built by [runtime_hashmap_new] and
    [runtime_hashmap_put] has: 16 buckets, every entry in the bucket of its
    hash, no two entries of a bucket with equal keys, and [size] the number
    of entries. *)
Definition hashmap_ok (signed_char : bool) (m : HashMap) : Prop :=
  hm_capacity m = HASHMAP_INITIAL_SIZE /\
  length (hm_buckets m) = Z.to_nat HASHMAP_INITIAL_SIZE /\
  (forall (i : nat) chain key,
     hm_buckets m !! i = Some chain -> key ∈ entry_keys chain ->
     bucket_index signed_char m key = Z.of_nat i) /\
  (forall (i : nat) chain,
     hm_buckets m !! i = Some chain -> keys_distinct (entry_keys chain)) /\
  hm_size m = Z.of_nat (length (concat (hm_buckets m))).

(** ** Slices *)

(** [Slice]; [sl_data] is the block [data] points to.  A pointer to a
    [Slice] is an [option Slice], and an operation that writes through the
    pointer returns the slice it leaves. *)
Record Slice := mkSlice {
  sl_data : list byte;
  sl_len : Z;
  sl_cap : Z;
  sl_elem_size : Z
}.

(** A call either returns or ends the process in [abort()]. *)
Inductive Run (A : Type) :=
| Returns (a : A)
| Aborts.
Arguments Returns {A} a.
Arguments Aborts {A}.

(** [memset(buf + off, c, n)] *)
Definition memset_into (buf : list byte) (off : Z) (c : byte) (n : Z)
    : list byte :=
  if off <? 0 then buf
  else list_inserts (Z.to_nat off) (repeat c (Z.to_nat n)) buf.

(** [memmove(buf + dst, buf + src, n)] within one block. *)
Definition memmove_within (buf : list byte) (dst src n : Z) : list byte :=
  memcpy_into buf dst (memcpy_from buf src n) n.

(** [GC_realloc(data, size)]: a block of [size] bytes that starts with the
    old contents; [junk] is what the allocator leaves behind them. *)
Definition gc_realloc (data : list byte) (size : Z) (junk : list byte)
    : list byte :=
  resize (Z.to_nat size) x00 (data ++ junk).

Definition runtime_slice_new (elem_size len cap : Z) : Slice :=
  let cap := if cap <? len then len else cap in
  let cap := if cap =? 0 then 1 else cap in
  let data := repeat x00 (Z.to_nat (wrap64 (elem_size * cap))) in
  mkSlice (memset_into data 0 x00 (wrap64 (elem_size * cap))) len cap
    elem_size.

(** [runtime_slice_get] returns a pointer into the block: the offset of the
    element. *)
Definition runtime_slice_get (slice : option Slice) (index : Z) : Run Z :=
  match slice with
  | None => Aborts
  | Some s =>
      if index >=? sl_len s then Aborts
      else Returns (wrap64 (index * sl_elem_size s))
  end.

(** What is read through a pointer that [runtime_slice_get] returned. *)
Definition slice_deref (s : Slice) (off : Z) : list byte :=
  memcpy_from (sl_data s) off (sl_elem_size s).

Definition runtime_slice_set (slice : option Slice) (index : Z)
    (value : list byte) : Run Slice :=
  match slice with
  | None => Aborts
  | Some s =>
      if index >=? sl_len s then Aborts
      else
        Returns
          (mkSlice
             (memcpy_into (sl_data s) (wrap64 (index * sl_elem_size s)) value
                (sl_elem_size s))
             (sl_len s) (sl_cap s) (sl_elem_size s))
  end.

(** The growth step shared by [runtime_slice_push] and
    [runtime_slice_insert]; [junk] is [None] when [GC_realloc] fails. *)
Definition grow_if_full (s : Slice) (junk : option (list byte)) : Run Slice :=
  if sl_len s >=? sl_cap s then
    let new_cap := wrap64 (sl_cap s * 2) in
    let new_cap := if new_cap =? 0 then 1 else new_cap in
    match junk with
    | None => Aborts
    | Some j =>
        Returns
          (mkSlice
             (gc_realloc (sl_data s) (wrap64 (sl_elem_size s * new_cap)) j)
             (sl_len s) new_cap (sl_elem_size s))
    end
  else Returns s.

Definition runtime_slice_push (slice : option Slice) (value : list byte)
    (junk : option (list byte)) : Run Slice :=
  match slice with
  | None => Aborts
  | Some s =>
      match grow_if_full s junk with
      | Aborts => Aborts
      | Returns s =>
          Returns
            (mkSlice
               (memcpy_into (sl_data s) (wrap64 (sl_len s * sl_elem_size s))
                  value (sl_elem_size s))
               (wrap64 (sl_len s + 1)) (sl_cap s) (sl_elem_size s))
      end
  end.

Definition runtime_slice_len (slice : option Slice) : Z :=
  match slice with
  | Some s => sl_len s
  | None => 0
  end.

Definition runtime_slice_is_empty (slice : option Slice) : Z :=
  match slice with
  | None => 1
  | Some s => if sl_len s =? 0 then 1 else 0
  end.

Definition runtime_slice_cap (slice : option Slice) : Z :=
  match slice with
  | Some s => sl_cap s
  | None => 0
  end.

(** The loop [while (new_cap < needed)] of [runtime_slice_reserve]; [None]
    when [fuel] iterations do not end it. *)
Fixpoint reserve_loop (fuel : nat) (new_cap needed : Z) : option Z :=
  if new_cap <? needed then
    match fuel with
    | O => None
    | S fuel' =>
        let new_cap := wrap64 (new_cap * 2) in
        let new_cap := if new_cap =? 0 then 1 else new_cap in
        reserve_loop fuel' new_cap needed
    end
  else Some new_cap.

(** [runtime_slice_reserve]; [None] when the loop does not end within
    [fuel] iterations. *)
Definition runtime_slice_reserve (fuel : nat) (slice : option Slice)
    (additional : Z) (junk : option (list byte)) : option (Run Slice) :=
  match slice with
  | None => Some Aborts
  | Some s =>
      let needed := wrap64 (sl_len s + additional) in
      if needed >? sl_cap s then
        match reserve_loop fuel (sl_cap s) needed with
        | None => None
        | Some new_cap =>
            match junk with
            | None => Some Aborts
            | Some j =>
                Some
                  (Returns
                     (mkSlice
                        (gc_realloc (sl_data s)
                           (wrap64 (sl_elem_size s * new_cap)) j)
                        (sl_len s) new_cap (sl_elem_size s)))
            end
        end
      else Some (Returns s)
  end.

Definition runtime_slice_clear (slice : option Slice) : Run Slice :=
  match slice with
  | None => Aborts
  | Some s => Returns (mkSlice (sl_data s) 0 (sl_cap s) (sl_elem_size s))
  end.

(** [runtime_slice_pop]: the slice it leaves and the returned pointer,
    [None] for NULL and [Some bs] for a fresh block holding [bs]. *)
Definition runtime_slice_pop (slice : option Slice)
    : option Slice * option (list byte) :=
  match slice with
  | None => (None, None)
  | Some s =>
      if sl_len s =? 0 then (Some s, None)
      else
        let len := wrap64 (sl_len s - 1) in
        (Some (mkSlice (sl_data s) len (sl_cap s) (sl_elem_size s)),
         Some (memcpy_from (sl_data s) (wrap64 (len * sl_elem_size s))
                 (sl_elem_size s)))
  end.

Definition runtime_slice_remove (slice : option Slice) (index : Z)
    : Run Slice :=
  match slice with
  | None => Aborts
  | Some s =>
      if index >=? sl_len s then Aborts
      else
        let elems_to_move := wrap64 (wrap64 (sl_len s - index) - 1) in
        let dest := wrap64 (index * sl_elem_size s) in
        let src := wrap64 (dest + sl_elem_size s) in
        let data :=
          if elems_to_move >? 0
          then memmove_within (sl_data s) dest src
                 (wrap64 (elems_to_move * sl_elem_size s))
          else sl_data s in
        Returns (mkSlice data (wrap64 (sl_len s - 1)) (sl_cap s)
                   (sl_elem_size s))
  end.

Definition runtime_slice_insert (slice : option Slice) (index : Z)
    (value : list byte) (junk : option (list byte)) : Run Slice :=
  match slice with
  | None => Aborts
  | Some s =>
      if index >? sl_len s then Aborts
      else
        match grow_if_full s junk with
        | Aborts => Aborts
        | Returns s =>
            let data :=
              if index <? sl_len s
              then memmove_within (sl_data s)
                     (wrap64 (wrap64 (index + 1) * sl_elem_size s))
                     (wrap64 (index * sl_elem_size s))
                     (wrap64 (wrap64 (sl_len s - index) * sl_elem_size s))
              else sl_data s in
            Returns
              (mkSlice
                 (memcpy_into data (wrap64 (index * sl_elem_size s)) value
                    (sl_elem_size s))
                 (wrap64 (sl_len s + 1)) (sl_cap s) (sl_elem_size s))
        end
  end.

Definition runtime_slice_copy (slice : option Slice) : option Slice :=
  match slice with
  | None => None
  | Some s =>
      let size := wrap64 (sl_elem_size s * sl_cap s) in
      let used := wrap64 (sl_elem_size s * sl_len s) in
      let data := repeat x00 (Z.to_nat size) in
      let data := memcpy_into data 0 (sl_data s) used in
      let data :=
        if sl_len s <? sl_cap s
        then memset_into data used x00
               (wrap64 (sl_elem_size s * wrap64 (sl_cap s - sl_len s)))
        else data in
      Some (mkSlice data (sl_len s) (sl_cap s) (sl_elem_size s))
  end.

Definition runtime_slice_subslice (slice : option Slice) (start end_ : Z)
    : Run Slice :=
  match slice with
  | None => Aborts
  | Some s =>
      if (start >? end_) || (end_ >? sl_len s) then Aborts
      else
        let sub_len := wrap64 (end_ - start) in
        let size := wrap64 (sl_elem_size s * sub_len) in
        let src := wrap64 (start * sl_elem_size s) in
        Returns
          (mkSlice
             (memcpy_into (repeat x00 (Z.to_nat size)) 0
                (memcpy_from (sl_data s) src size) size)
             sub_len sub_len (sl_elem_size s))
  end.

(** The elements of a slice: the [len] runs of [elem_size] bytes from the
    start of the block on. *)
Definition slice_elems (s : Slice) : list (list byte) :=
  map (fun k => memcpy_from (sl_data s) (Z.of_nat k * sl_elem_size s)
                  (sl_elem_size s))
    (seq 0 (Z.to_nat (sl_len s))).

(** A slice whose block has room for [cap] elements and whose sizes fit a
    [size_t]. *)
Definition slice_ok (s : Slice) : Prop :=
  0 <= sl_elem_size s /\
  0 <= sl_len s <= sl_cap s /\
  sl_cap s < 2 ^ 64 /\
  sl_elem_size s * sl_cap s < 2 ^ 64 /\
  Z.of_nat (length (sl_data s)) = sl_elem_size s * sl_cap s.

(** ** Concrete slices, strings and channels *)

(** The two-byte elements (1,2), (3,4), (5,6) in a slice that is full. *)
Definition three_pairs : Slice :=
  mkSlice [x01; x02; x03; x04; x05; x06] 3 3 2.

(** The strings "ab" and "cd". *)
Definition str_ab : String := runtime_string_new [x61; x62] 2.
Definition str_cd : String := runtime_string_new [x63; x64] 2.

(** A new channel of capacity 2 for one-byte values at address 1. *)
Definition fresh_channel_world : World :=
  fst (runtime_channel_new 1 1 2 empty_world).

(** The same with a second channel, of capacity 1, at address 2. *)
Definition two_channels_world : World :=
  fst (runtime_channel_new 2 1 1 fresh_channel_world).

(** The empty string. *)
Definition str_empty : String := runtime_string_new [] 0.

(** Closes a goal about concrete values by evaluation. *)
Ltac by_evaluation :=
  vm_compute; repeat split; repeat constructor; try reflexivity; discriminate.

(** * Properties *)

(** ** Frame lemmas: scheduler-side code never touches a channel *)

Lemma channels_update_legion a f w :
  channels (update_legion a f w) = channels w.
Proof. reflexivity. Qed.

Lemma channels_with_scheduler f w :
  channels (with_scheduler f w) = channels w.
Proof. unfold with_scheduler. destruct (g_scheduler w); reflexivity. Qed.

Lemma legions_with_scheduler f w :
  legions (with_scheduler f w) = legions w.
Proof. unfold with_scheduler. destruct (g_scheduler w); reflexivity. Qed.

Lemma g_scheduler_with_scheduler f w :
  g_scheduler (with_scheduler f w) = f <$> g_scheduler w.
Proof.
  unfold with_scheduler.
  destruct (g_scheduler w) eqn:Hs; cbn [g_scheduler set_g_scheduler
    null_scheduler_access]; [reflexivity|exact Hs].
Qed.

Lemma with_scheduler_Some f w s :
  g_scheduler w = Some s ->
  with_scheduler f w = set_g_scheduler (Some (f s)) w.
Proof. intros Hs. unfold with_scheduler. now rewrite Hs. Qed.

Lemma channels_runtime_legion_start l w :
  channels (runtime_legion_start l w) = channels w.
Proof.
  unfold runtime_legion_start.
  destruct l as [l|]; [|reflexivity].
  destruct (g_scheduler w) as [s|]; [|reflexivity].
  destruct (push_to_local_queue _ _ _) as [s1 pushed].
  destruct (pushed =? 0); [|reflexivity].
  destruct (negb _); reflexivity.
Qed.

Lemma channels_unblock_legion_from_channel l w :
  channels (unblock_legion_from_channel l w) = channels w.
Proof.
  unfold unblock_legion_from_channel.
  destruct l as [l|]; [|reflexivity].
  destruct (negb _); [reflexivity|].
  now rewrite channels_runtime_legion_start, channels_with_scheduler.
Qed.

Lemma channels_runtime_legion_block tls l c w :
  channels (runtime_legion_block tls l c w) = channels w.
Proof.
  unfold runtime_legion_block.
  destruct l as [l|]; [|reflexivity].
  destruct (g_scheduler w) as [s|]; [|reflexivity].
  rewrite channels_with_scheduler.
  destruct (_ && _); cbn [update_legion set_legions channels];
    [apply channels_with_scheduler|reflexivity].
Qed.

Lemma channels_runtime_legion_yield tls w :
  channels (runtime_legion_yield tls w) = channels w.
Proof.
  unfold runtime_legion_yield.
  destruct (g_scheduler w) as [s|]; [|reflexivity].
  destruct (_ || _); [reflexivity|].
  destruct (default None _) as [cur|]; [|reflexivity].
  destruct (push_to_local_queue _ _ _) as [s1 pushed].
  reflexivity.
Qed.

Lemma lookup_update_channel a f w c :
  channels w !! a = Some c ->
  channels (update_channel a f w) !! a = Some (f c).
Proof.
  intros H. unfold update_channel. simpl.
  rewrite lookup_alter_eq, H. reflexivity.
Qed.

Lemma wake_receiver_lookup a w c :
  channels w !! a = Some c ->
  exists r, channels (wake_receiver a w) !! a
            = Some (set_ch_blocked_receivers r c).
Proof.
  intros H. unfold wake_receiver. rewrite H.
  destruct (ch_blocked_receivers c) as [r|] eqn:Hr.
  - eexists. rewrite channels_unblock_legion_from_channel,
      channels_update_legion.
    now apply lookup_update_channel.
  - exists None. rewrite H. f_equal. destruct c; simpl in *; now subst.
Qed.

Lemma wake_sender_lookup a w c :
  channels w !! a = Some c ->
  exists r, channels (wake_sender a w) !! a
            = Some (set_ch_blocked_senders r c).
Proof.
  intros H. unfold wake_sender. rewrite H.
  destruct (ch_blocked_senders c) as [r|] eqn:Hr.
  - eexists. rewrite channels_unblock_legion_from_channel,
      channels_update_legion.
    now apply lookup_update_channel.
  - exists None. rewrite H. f_equal. destruct c; simpl in *; now subst.
Qed.

(** ** NULL channel pointers (C9) *)

(** C9: every public channel operation is total on a NULL channel pointer:
    send and close return at once with no effect, recv returns NULL, try_send
    and try_recv return 0 (and leave the out-parameter alone), and is_closed
    reports 1. *)
Theorem channel_ops_on_null :
  forall (tls : Z) (value : list byte) (out : bool) (w : World),
    runtime_channel_send tls None value w = (w, SendReturned) /\
    runtime_channel_close None w = w /\
    runtime_channel_recv tls None w = (w, RecvReturned None) /\
    runtime_channel_try_send None value w = (w, 0) /\
    runtime_channel_try_recv None out w = (w, 0, NotWritten) /\
    runtime_channel_is_closed None w = 1.
Proof.
  intros tls value out w. repeat split.
Qed.

(** ** Unblocking is guarded by the state (C10) *)

Lemma is_blocked_false l w L :
  legions w !! l = Some L ->
  l_state L <> LEGION_STATE_BLOCKED ->
  is_blocked l w = false.
Proof.
  intros HL Hst. unfold is_blocked, legion_state. rewrite HL. simpl.
  destruct (l_state L); simpl; congruence.
Qed.

(** C10: [runtime_legion_unblock] and [unblock_legion_from_channel] applied
    to a legion whose state is not BLOCKED change nothing: the legion (its
    state and blocked_on with it), the active_legions counter and all run
    queues stay as they were, and the legion is not enqueued again. *)
Theorem unblock_not_blocked_is_noop :
  forall (w : World) (l : nat) (L : Legion),
    legions w !! l = Some L ->
    l_state L <> LEGION_STATE_BLOCKED ->
    runtime_legion_unblock (Some l) w = w /\
    unblock_legion_from_channel (Some l) w = w.
Proof.
  intros w l L HL Hst.
  unfold runtime_legion_unblock, unblock_legion_from_channel.
  rewrite (is_blocked_false l w L HL Hst). simpl. split; reflexivity.
Qed.

(** ** Send on a closed channel (C5) *)

(** C5: on a closed channel [runtime_channel_send] returns without changing
    anything: the channel (count, head, tail, buffer) and the rest of the
    world are as before; the value is dropped. *)
Theorem send_on_closed_is_dropped :
  forall (tls : Z) (a : nat) (value : list byte) (w : World) (c : Channel),
    channels w !! a = Some c ->
    ch_closed c <> 0 ->
    runtime_channel_send tls (Some a) value w = (w, SendReturned).
Proof.
  intros tls a value w c Hc Hclosed.
  unfold runtime_channel_send. rewrite Hc.
  assert (Hz : (ch_closed c =? 0) = false) by (apply Z.eqb_neq; assumption).
  rewrite Hz, andb_false_r. reflexivity.
Qed.

(** ** The counter invariant I2 (C2) *)

Lemma wrap64_small x : 0 <= x < 2 ^ 64 -> wrap64 x = x.
Proof. intros H. unfold wrap64. now apply Z.mod_small. Qed.

Lemma counters_ok_new a E C w :
  1 <= C ->
  exists c, channels (fst (runtime_channel_new a E C w)) !! a = Some c /\
            counters_ok C c /\ ch_closed c = 0 /\ ch_count c = 0 /\
            ch_elem_size c = E /\
            ch_buffer c = repeat x00 (Z.to_nat (wrap64 (E * C))).
Proof.
  intros HC. eexists. split.
  - simpl. apply lookup_insert_eq.
  - unfold counters_ok. simpl. rewrite Z.mod_0_l by lia.
    repeat split; lia.
Qed.

Lemma counters_ok_enqueue C v c :
  C < 2 ^ 64 ->
  counters_ok C c ->
  ch_count c < C ->
  counters_ok C (enqueue v c).
Proof.
  intros HC (Hcap & Hcnt & Hh & Ht & Hrel) Hlt.
  unfold counters_ok, enqueue. simpl. rewrite Hcap.
  rewrite !wrap64_small by lia.
  repeat split; try lia.
  - apply Z.mod_pos_bound. lia.
  - apply Z.mod_pos_bound. lia.
  - rewrite <- Hrel. rewrite Zplus_mod_idemp_l. f_equal. lia.
Qed.

Lemma counters_ok_dequeue C c :
  C < 2 ^ 64 ->
  counters_ok C c ->
  ch_count c <> 0 ->
  counters_ok C (fst (dequeue c)).
Proof.
  intros HC (Hcap & Hcnt & Hh & Ht & Hrel) Hne.
  unfold counters_ok, dequeue. simpl. rewrite Hcap.
  rewrite !wrap64_small by lia.
  repeat split; try lia.
  - apply Z.mod_pos_bound. lia.
  - apply Z.mod_pos_bound. lia.
  - rewrite <- Hrel. rewrite Zplus_mod_idemp_l. f_equal. lia.
Qed.

(** *** Properties of the channel record kept by every operation

    A property of the channel that survives an enqueue into a channel with
    room, a dequeue from a non-empty channel, a change of either park list
    and the setting of [closed] holds after every operation. *)

Section Preservation.
Variable P : Channel -> Prop.
Hypothesis P_enqueue :
  forall v c, P c -> ch_count c < ch_capacity c -> P (enqueue v c).
Hypothesis P_dequeue :
  forall c, P c -> ch_count c <> 0 -> P (fst (dequeue c)).
Hypothesis P_senders : forall r c, P c -> P (set_ch_blocked_senders r c).
Hypothesis P_receivers : forall r c, P c -> P (set_ch_blocked_receivers r c).
Hypothesis P_closed : forall c, P c -> P (set_ch_closed 1 c).

Lemma send_preserves tls a v w c :
  channels w !! a = Some c ->
  P c ->
  exists c', channels (fst (runtime_channel_send tls (Some a) v w)) !! a
             = Some c' /\ P c'.
Proof.
  intros Hc Hok. unfold runtime_channel_send. rewrite Hc.
  destruct ((ch_count c >=? ch_capacity c) && (ch_closed c =? 0)) eqn:Hfull.
  - destruct (runtime_get_current_legion tls w) as [cur|]; cbn [fst].
    + rewrite channels_runtime_legion_block.
      eexists. split.
      * apply lookup_update_channel. rewrite channels_update_legion. exact Hc.
      * now apply P_senders.
    + eauto.
  - destruct (negb (ch_closed c =? 0)) eqn:Hcl; cbn [fst]; [eauto|].
    apply negb_false_iff, Z.eqb_eq in Hcl.
    rewrite Hcl, andb_true_r in Hfull.
    assert (Hlt : ch_count c < ch_capacity c).
    { rewrite Z.geb_leb in Hfull. apply Z.leb_gt in Hfull. lia. }
    destruct (wake_receiver_lookup a (update_channel a (enqueue v) w)
                (enqueue v c)) as [r Hr].
    { now apply lookup_update_channel. }
    eexists. split; [exact Hr|].
    apply P_receivers. now apply P_enqueue.
Qed.

Lemma recv_preserves tls a w c :
  channels w !! a = Some c ->
  P c ->
  exists c', channels (fst (runtime_channel_recv tls (Some a) w)) !! a
             = Some c' /\ P c'.
Proof.
  intros Hc Hok. unfold runtime_channel_recv. rewrite Hc.
  destruct ((ch_count c =? 0) && (ch_closed c =? 0)) eqn:Hempty.
  - destruct (runtime_get_current_legion tls w) as [cur|]; cbn [fst].
    + rewrite channels_runtime_legion_block.
      eexists. split.
      * apply lookup_update_channel. rewrite channels_update_legion. exact Hc.
      * now apply P_receivers.
    + eauto.
  - destruct ((ch_count c =? 0) && negb (ch_closed c =? 0)) eqn:Hcl;
      cbn [fst]; [eauto|].
    assert (Hne : ch_count c <> 0).
    { destruct (ch_count c =? 0) eqn:Hz; [|now apply Z.eqb_neq].
      destruct (ch_closed c =? 0); simpl in *; discriminate. }
    destruct (wake_sender_lookup a
                (update_channel a (fun c => fst (dequeue c)) w)
                (fst (dequeue c))) as [r Hr].
    { now apply (lookup_update_channel a (fun c => fst (dequeue c))). }
    eexists. split; [exact Hr|].
    apply P_senders. now apply P_dequeue.
Qed.

Lemma try_send_preserves a v w c :
  channels w !! a = Some c ->
  P c ->
  exists c', channels (fst (runtime_channel_try_send (Some a) v w)) !! a
             = Some c' /\ P c'.
Proof.
  intros Hc Hok. unfold runtime_channel_try_send. rewrite Hc.
  destruct (negb (ch_closed c =? 0)); cbn [fst]; [eauto|].
  destruct (ch_count c >=? ch_capacity c) eqn:Hfull; cbn [fst]; [eauto|].
  eexists. split; [apply lookup_update_channel; exact Hc|].
  apply P_enqueue; auto.
  rewrite Z.geb_leb in Hfull. apply Z.leb_gt in Hfull. lia.
Qed.

Lemma try_recv_preserves a out w c :
  channels w !! a = Some c ->
  P c ->
  exists c', channels (fst (fst (runtime_channel_try_recv (Some a) out w))) !! a
             = Some c' /\ P c'.
Proof.
  intros Hc Hok. unfold runtime_channel_try_recv.
  destruct out; [|cbn [fst]; eauto]. rewrite Hc.
  destruct ((ch_count c =? 0) && (ch_closed c =? 0)) eqn:Hempty;
    cbn [fst]; [eauto|].
  destruct ((ch_count c =? 0) && negb (ch_closed c =? 0)) eqn:Hcl;
    cbn [fst]; [eauto|].
  assert (Hne : ch_count c <> 0).
  { destruct (ch_count c =? 0) eqn:Hz; [|now apply Z.eqb_neq].
    destruct (ch_closed c =? 0); simpl in *; discriminate. }
  eexists. split.
  - apply (lookup_update_channel a (fun c => fst (dequeue c))). exact Hc.
  - now apply P_dequeue.
Qed.

Lemma exec_op_preserves a op w c :
  channels w !! a = Some c ->
  P c ->
  exists c', channels (exec_op (Some a) op w) !! a = Some c' /\ P c'.
Proof.
  intros Hc Hok. destruct op as [tls v|tls|v|out|]; unfold exec_op.
  - destruct (send_preserves tls a v w c Hc Hok) as (c' & H1 & H2).
    destruct (runtime_channel_send tls (Some a) v w) as [w' o].
    cbn [fst] in H1.
    destruct o; try rewrite channels_runtime_legion_yield; eauto.
  - destruct (recv_preserves tls a w c Hc Hok) as (c' & H1 & H2).
    destruct (runtime_channel_recv tls (Some a) w) as [w' o].
    cbn [fst] in H1.
    destruct o; try rewrite channels_runtime_legion_yield; eauto.
  - now apply (try_send_preserves a v w c).
  - now apply (try_recv_preserves a out w c).
  - eexists. split; [apply lookup_update_channel; exact Hc|].
    now apply P_closed.
Qed.

Lemma run_ops_preserves a ops : forall w c,
  channels w !! a = Some c ->
  P c ->
  exists c', channels (run_ops (Some a) ops w) !! a = Some c' /\ P c'.
Proof.
  induction ops as [|op ops IH]; intros w c Hc Hok; simpl.
  - eauto.
  - destruct (exec_op_preserves a op w c Hc Hok) as (c1 & Hc1 & Hok1).
    exact (IH _ c1 Hc1 Hok1).
Qed.
End Preservation.

Lemma run_ops_preserves_counters a ops w c C :
  C < 2 ^ 64 ->
  channels w !! a = Some c ->
  counters_ok C c ->
  exists c', channels (run_ops (Some a) ops w) !! a = Some c' /\
             counters_ok C c'.
Proof.
  intros HC. apply run_ops_preserves.
  - intros v c0 Hok Hlt. apply counters_ok_enqueue; auto.
    destruct Hok as (Hcap & _). now rewrite <- Hcap.
  - intros c0 Hok Hne. now apply counters_ok_dequeue.
  - intros r c0 Hok. exact Hok.
  - intros r c0 Hok. exact Hok.
  - intros c0 Hok. exact Hok.
Qed.

(** [closed] is monotonic: no operation clears it. *)
Lemma run_ops_keeps_closed a ops w :
  closed_at a w -> closed_at a (run_ops (Some a) ops w).
Proof.
  intros (c & Hc & Hcl).
  apply (run_ops_preserves (fun c => ch_closed c <> 0)) with (c := c);
    try assumption; simpl; intros; try assumption; lia.
Qed.

Lemma counters_ok_spec_form C c :
  1 <= C ->
  counters_ok C c ->
  ch_count c <> C ->
  (ch_tail c - ch_head c + C) mod C = ch_count c.
Proof.
  intros HC (Hcap & Hcnt & Hh & Ht & Hrel) Hne.
  rewrite <- Hrel.
  destruct (Z_lt_ge_dec (ch_head c + ch_count c) C) as [Hlt|Hge].
  - rewrite (Z.mod_small (ch_head c + ch_count c)) by lia.
    replace (ch_head c + ch_count c - ch_head c + C)
      with (ch_count c + 1 * C) by lia.
    rewrite Z.mod_add by lia. apply Z.mod_small. lia.
  - replace (ch_head c + ch_count c)
      with ((ch_head c + ch_count c - C) + 1 * C) by lia.
    rewrite Z.mod_add by lia.
    rewrite (Z.mod_small (ch_head c + ch_count c - C)) by lia.
    replace (ch_head c + ch_count c - C - ch_head c + C)
      with (ch_count c) by lia.
    apply Z.mod_small. lia.
Qed.

(** C2: after any sequence of send, recv, try_send, try_recv and close on a
    fresh channel of capacity [C], the channel satisfies [0 <= count <= C],
    [head < C], [tail < C], and [(tail - head + C) mod C = count] whenever
    [count <> C].  [C] is a [size_t] and at least 1, as the contract of
    [runtime_channel_new] demands. *)
Theorem channel_counters_invariant :
  forall (a : nat) (E C : Z) (w : World) (ops : list ChanOp),
    1 <= C < 2 ^ 64 ->
    exists c,
      channels (run_ops (Some a) ops (fst (runtime_channel_new a E C w))) !! a
        = Some c /\
      ch_capacity c = C /\
      0 <= ch_count c <= C /\
      0 <= ch_head c < C /\
      0 <= ch_tail c < C /\
      (ch_count c <> C ->
       (ch_tail c - ch_head c + C) mod C = ch_count c).
Proof.
  intros a E C w ops [HC1 HC2].
  destruct (counters_ok_new a E C w HC1) as (c0 & Hc0 & Hok0 & _).
  destruct (run_ops_preserves_counters a ops _ c0 C HC2 Hc0 Hok0)
    as (c & Hc & Hok).
  exists c. split; [exact Hc|].
  pose proof (counters_ok_spec_form C c HC1 Hok) as Hspec.
  destruct Hok as (Hcap & Hcnt & Hh & Ht & Hrel).
  repeat split; lia || exact Hspec.
Qed.

(** ** Spawn and the stack size (C6) *)

(** C6, as stated, fails: a request of 4096 bytes is below 256 KiB and is
    kept as it is. *)
Lemma spawn_small_request_kept :
  exists L,
    legions (fst (runtime_legion_spawn X86_64 1 (Some 65536) 0 0 0 4096
                    empty_world)) !! 1%nat = Some L /\
    l_stack_size L = 4096 /\
    ~ (256 * 1024 <= l_stack_size L).
Proof.
  eexists. split; [apply lookup_insert_eq|]. simpl. split; [reflexivity|lia].
Qed.

(** C6, amended: [runtime_legion_spawn] replaces a request of 0 by 256 KiB
    and lowers a request above 2 MiB to 2 MiB; any other request is used as
    it is.  The stack size is therefore at most 2 MiB, and at least 256 KiB
    when the request is 0 or at least 256 KiB.  The legion is returned in
    RUNNABLE state with thread_id -1, off every list, and with the context
    that [malphas_context_make_trampoline] builds on its stack. *)
Theorem spawn_stack_size_and_state :
  forall (arch : Arch) (a : nat) (mem : option Z) (fallback fn arg req : Z)
         (w : World),
    exists L,
      runtime_legion_spawn arch a mem fallback fn arg req w
        = (mkWorld (<[a := L]> (legions w)) (channels w) (g_scheduler w)
             (wrap_int (g_legion_id_counter w + 1)) (fault w), Some a) /\
      l_stack_size L
        = (if req =? 0 then 256 * 1024
           else if req >? 2 * 1024 * 1024 then 2 * 1024 * 1024 else req) /\
      l_stack_size L <= 2 * 1024 * 1024 /\
      (req = 0 \/ 256 * 1024 <= req -> 256 * 1024 <= l_stack_size L) /\
      l_stack_cap L = l_stack_size L /\
      l_state L = LEGION_STATE_RUNNABLE /\
      l_thread_id L = -1 /\
      l_next L = None /\
      l_blocked_on L = None /\
      l_id L = g_legion_id_counter w /\
      l_ctx L = malphas_context_make_trampoline arch RLegionEntry (RLegion a)
                  (l_stack L) (l_stack_size L).
Proof.
  intros arch a mem fallback fn arg req w.
  eexists. split; [reflexivity|]. cbn [l_stack_size l_stack_cap l_state
    l_thread_id l_next l_blocked_on l_id l_ctx l_stack].
  unfold LEGION_STACK_SIZE, LEGION_STACK_MAX.
  repeat split.
  - destruct (req =? 0) eqn:H0; [reflexivity|].
    destruct (req >? 2 * 1024 * 1024); reflexivity.
  - destruct (req =? 0) eqn:H0.
    + simpl. lia.
    + destruct (req >? 2 * 1024 * 1024) eqn:H1; [lia|].
      rewrite Z.gtb_ltb in H1. apply Z.ltb_ge in H1. lia.
  - intros Hreq. destruct (req =? 0) eqn:H0.
    + simpl. lia.
    + apply Z.eqb_neq in H0.
      destruct (req >? 2 * 1024 * 1024) eqn:H1; lia.
Qed.

(** ** Submission to a full scheduler (C1) *)

(** When the queue that [find_least_loaded_thread] picks is full, the
    lock-free push fails, the re-test under the queue mutex fails in the same
    way, and [runtime_legion_start] returns having only counted the legion. *)
Lemma runtime_legion_start_full l w s :
  g_scheduler w = Some s ->
  queue_full (find_least_loaded_thread (fetch_add_active 1 s))
    (fetch_add_active 1 s) = true ->
  runtime_legion_start (Some l) w
  = set_g_scheduler (Some (fetch_add_active 1 s)) w.
Proof.
  intros Hs Hfull. unfold runtime_legion_start. rewrite Hs.
  unfold queue_full in Hfull.
  unfold push_to_local_queue. rewrite Hfull. simpl.
  rewrite Hfull. reflexivity.
Qed.

(** C1 at a full scheduler: all four queues hold 255 legions.  Submitting
    legion 5000 increments [active_legions] and leaves every queue as it was;
    the legion is in no run queue when [runtime_legion_start] returns. *)
Theorem runtime_legion_start_drops_when_full :
  runtime_legion_start (Some 5000%nat) full_world
    = set_g_scheduler (Some (fetch_add_active 1 full_scheduler)) full_world /\
  legion_queued 5000 (runtime_legion_start (Some 5000%nat) full_world) = false /\
  legion_queued 5000 full_world = false.
Proof.
  split; [|split].
  - apply runtime_legion_start_full; [reflexivity|]. vm_compute. reflexivity.
  - vm_compute. reflexivity.
  - vm_compute. reflexivity.
Qed.

(** ** Owner pop against steal (C8) *)

(** Run alone, the four steps of the owner are [pop_from_local_queue]. *)
Lemma pop_steps_alone t s spc :
  foldl (race_step t) (s, PopLoadHead, spc) [Owner; Owner; Owner; Owner]
  = (fst (pop_from_local_queue t s),
     PopDone (snd (pop_from_local_queue t s)), spc).
Proof.
  unfold pop_from_local_queue. simpl.
  destruct (queue_head_of s t =? queue_tail_of s t); reflexivity.
Qed.

(** Run alone, the four steps of a thief are [steal_from_queue]. *)
Lemma steal_steps_alone t s ppc :
  foldl (race_step t) (s, ppc, StealLoadHead) [Thief; Thief; Thief; Thief]
  = (fst (steal_from_queue t s), ppc,
     StealDone (snd (steal_from_queue t s))).
Proof.
  unfold steal_from_queue. simpl.
  destruct (queue_head_of s t =? queue_tail_of s t) eqn:He; [reflexivity|].
  simpl. unfold compare_exchange. rewrite Z.eqb_refl. reflexivity.
Qed.

(** C8 on the code: worker 1 has the single legion 7 in its queue.  Its
    owner reads [head] and [tail], a thief then completes [steal_from_queue]
    on the same queue, and the owner finishes its pop with a plain store to
    [head].  Both return legion 7, taken from slot 0, and the queue is left
    empty with [head = 1]. *)
Theorem owner_pop_and_steal_return_same_slot :
  queue_contents 1 one_legion_scheduler = [Some 7%nat] /\
  queue_head_of one_legion_scheduler 1 = 0 /\
  queue_slot one_legion_scheduler 1 0 = Some 7%nat /\
  exists s',
    race_run 1 [Owner; Owner; Thief; Thief; Thief; Thief; Owner; Owner]
      one_legion_scheduler
    = (s', PopDone (Some 7%nat), StealDone (Some 7%nat)) /\
    queue_head_of s' 1 = 1 /\
    queue_contents 1 s' = [].
Proof.
  split; [vm_compute; reflexivity|].
  split; [vm_compute; reflexivity|].
  split; [vm_compute; reflexivity|].
  eexists. split; [vm_compute; reflexivity|].
  split; vm_compute; reflexivity.
Qed.

(** ** The ring buffer as a queue of values *)

Section Slots.
Context (buf v : list byte) (n : nat).
Hypothesis Hv : length v = n.

(** Reading back the slot that was just written. *)
Lemma slot_written (t : nat) :
  (t * n + n <= length buf)%nat ->
  take n (drop (t * n) (list_inserts (t * n) v buf)) = v.
Proof.
  intros Hfit. apply list_eq. intros j.
  rewrite lookup_take. case_decide as Hj.
  - rewrite lookup_drop, list_lookup_inserts by lia.
    f_equal. lia.
  - symmetry. apply lookup_ge_None_2. lia.
Qed.

(** A write to slot [t] leaves every other slot as it was. *)
Lemma slot_not_written (i t : nat) :
  i <> t ->
  take n (drop (i * n) (list_inserts (t * n) v buf))
  = take n (drop (i * n) buf).
Proof.
  intros Hne. apply list_eq. intros j.
  rewrite !lookup_take. case_decide as Hj; [|reflexivity].
  rewrite !lookup_drop.
  destruct (decide (i < t)%nat) as [Hlt|Hge].
  - apply list_lookup_inserts_lt. nia.
  - apply list_lookup_inserts_ge. nia.
Qed.
End Slots.

Lemma slot_enqueue_tail E C c v :
  chan_wf E C c ->
  Z.of_nat (length v) = E ->
  slot (enqueue v c) (ch_tail c) = v.
Proof.
  intros (HC & (Hcap & Hcnt & Hh & Ht & Hrel) & (HEs & HE & Hmul & Hlen)) Hv.
  unfold slot, enqueue, memcpy_from, memcpy_into. simpl.
  rewrite HEs.
  assert (Hoff : 0 <= ch_tail c * E < 2 ^ 64) by nia.
  rewrite wrap64_small by exact Hoff.
  destruct (ch_tail c * E <? 0) eqn:Hneg; [apply Z.ltb_lt in Hneg; lia|].
  rewrite (take_ge v) by lia.
  rewrite Z2Nat.inj_mul by lia.
  apply slot_written; [lia|].
  apply Nat2Z.inj_le. rewrite Nat2Z.inj_add, Nat2Z.inj_mul, !Z2Nat.id by lia.
  nia.
Qed.

Lemma slot_enqueue_other E C c v i :
  chan_wf E C c ->
  Z.of_nat (length v) = E ->
  0 <= i ->
  i <> ch_tail c ->
  slot (enqueue v c) i = slot c i.
Proof.
  intros (HC & (Hcap & Hcnt & Hh & Ht & Hrel) & (HEs & HE & Hmul & Hlen)) Hv
    Hi Hne.
  unfold slot, enqueue, memcpy_from, memcpy_into. simpl.
  rewrite HEs.
  assert (Hoff : 0 <= ch_tail c * E < 2 ^ 64) by nia.
  rewrite wrap64_small by exact Hoff.
  destruct (ch_tail c * E <? 0) eqn:Hneg; [apply Z.ltb_lt in Hneg; lia|].
  rewrite (take_ge v) by lia.
  rewrite !Z2Nat.inj_mul by lia.
  apply slot_not_written; [lia|].
  intros Heq. apply Hne. apply Z2Nat.inj; lia.
Qed.

Lemma mod_shift_neq x d C :
  0 < d < C -> (x + d) mod C <> x mod C.
Proof.
  intros Hd Heq.
  assert (H0 : ((x + d) - x) mod C = 0).
  { rewrite Zminus_mod, Heq, Z.sub_diag. apply Z.mod_0_l. lia. }
  replace (x + d - x) with d in H0 by lia.
  rewrite Z.mod_small in H0 by lia. lia.
Qed.

Lemma chan_wf_enqueue E C c v :
  C < 2 ^ 64 ->
  chan_wf E C c ->
  ch_count c < C ->
  chan_wf E C (enqueue v c).
Proof.
  intros HC64 (HC & Hcnt & (HEs & HE & Hmul & Hlen)) Hlt.
  split; [exact HC|]. split; [now apply counters_ok_enqueue|].
  unfold buffer_ok, enqueue, memcpy_into. simpl.
  repeat split; try assumption.
  destruct (_ <? 0); [assumption|]. now rewrite length_inserts.
Qed.

Lemma chan_wf_dequeue E C c :
  C < 2 ^ 64 ->
  chan_wf E C c ->
  ch_count c <> 0 ->
  chan_wf E C (fst (dequeue c)).
Proof.
  intros HC64 (HC & Hcnt & Hbuf) Hne.
  split; [exact HC|]. split; [now apply counters_ok_dequeue|exact Hbuf].
Qed.

Lemma length_chan_contents c :
  length (chan_contents c) = Z.to_nat (ch_count c).
Proof. unfold chan_contents. now rewrite length_map, length_seq. Qed.

(** Enqueueing appends to the buffered values. *)
Lemma chan_contents_enqueue E C c v :
  C < 2 ^ 64 ->
  chan_wf E C c ->
  ch_count c < C ->
  Z.of_nat (length v) = E ->
  chan_contents (enqueue v c) = chan_contents c ++ [v].
Proof.
  intros HC64 Hwf Hlt Hv.
  pose proof Hwf as (HC & (Hcap & Hcnt & Hh & Ht & Hrel) & _).
  unfold chan_contents.
  replace (ch_count (enqueue v c)) with (ch_count c + 1)
    by (unfold enqueue; simpl; rewrite wrap64_small; lia).
  replace (Z.to_nat (ch_count c + 1)) with (S (Z.to_nat (ch_count c))) by lia.
  rewrite seq_S, map_app. simpl.
  replace (ch_head (enqueue v c)) with (ch_head c) by reflexivity.
  replace (ch_capacity (enqueue v c)) with (ch_capacity c) by reflexivity.
  rewrite Hcap. f_equal.
  - apply map_ext_in. intros k Hk. apply in_seq in Hk.
    apply (slot_enqueue_other E C); auto.
    + apply Z.mod_pos_bound. lia.
    + rewrite <- Hrel.
      replace (ch_head c + ch_count c)
        with ((ch_head c + Z.of_nat k) + (ch_count c - Z.of_nat k)) by lia.
      intros Heq. symmetry in Heq. revert Heq. apply mod_shift_neq. lia.
  - f_equal. rewrite Z2Nat.id by lia. rewrite Hrel.
    now apply (slot_enqueue_tail E C).
Qed.

(** Dequeueing returns the oldest buffered value and removes it. *)
Lemma chan_contents_dequeue E C c :
  C < 2 ^ 64 ->
  chan_wf E C c ->
  ch_count c <> 0 ->
  chan_contents c = snd (dequeue c) :: chan_contents (fst (dequeue c)).
Proof.
  intros HC64 (HC & (Hcap & Hcnt & Hh & Ht & Hrel) & (HEs & HE & Hmul & Hlen))
    Hne.
  unfold chan_contents.
  replace (ch_count (fst (dequeue c))) with (ch_count c - 1)
    by (unfold dequeue; simpl; rewrite wrap64_small; lia).
  replace (Z.to_nat (ch_count c)) with (S (Z.to_nat (ch_count c - 1))) by lia.
  simpl seq. rewrite <- seq_shift, map_cons, map_map. f_equal.
  - unfold slot, dequeue. simpl. rewrite Hcap, Z.add_0_r.
    rewrite Z.mod_small by lia.
    rewrite wrap64_small by nia. reflexivity.
  - apply map_ext. intros k. unfold slot, dequeue. simpl.
    rewrite Hcap. rewrite wrap64_small by lia.
    rewrite Zplus_mod_idemp_l. do 3 f_equal. lia.
Qed.

(** ** Send and receive on a well-formed channel *)

Section ChannelSteps.
Context (E C : Z) (a : nat).
Hypothesis HC64 : C < 2 ^ 64.

Lemma holds_yield tls w cl q :
  holds E C a w cl q -> holds E C a (runtime_legion_yield tls w) cl q.
Proof.
  intros (c & Hc & H). exists c.
  now rewrite channels_runtime_legion_yield.
Qed.

(** Send with room in an open channel: the value is appended. *)
Lemma send_with_room tls v w q :
  holds E C a w 0 q ->
  (length q < Z.to_nat C)%nat ->
  Z.of_nat (length v) = E ->
  exists w', runtime_channel_send tls (Some a) v w = (w', SendReturned) /\
             holds E C a w' 0 (q ++ [v]).
Proof.
  intros (c & Hc & Hwf & Hcl & Hq) Hroom Hv.
  pose proof Hwf as (HC & (Hcap & Hcnt & _) & _).
  assert (Hlt : ch_count c < C).
  { rewrite <- Hq, length_chan_contents in Hroom. lia. }
  unfold runtime_channel_send. rewrite Hc, Hcl, Hcap.
  replace (ch_count c >=? C) with false
    by (symmetry; rewrite Z.geb_leb; apply Z.leb_gt; lia).
  simpl. eexists. split; [reflexivity|].
  destruct (wake_receiver_lookup a (update_channel a (enqueue v) w)
              (enqueue v c)) as [r Hr].
  { apply lookup_update_channel. exact Hc. }
  eexists. split; [exact Hr|]. split; [|split].
  - apply (chan_wf_enqueue E C c v HC64 Hwf Hlt).
  - exact Hcl.
  - rewrite <- Hq. apply (chan_contents_enqueue E C c v HC64 Hwf Hlt Hv).
Qed.

(** Send on a full open channel: the caller parks or waits; nothing is
    buffered. *)
Lemma send_when_full tls v w q :
  holds E C a w 0 q ->
  (Z.to_nat C <= length q)%nat ->
  exists w' out, runtime_channel_send tls (Some a) v w = (w', out) /\
                 out <> SendReturned /\ holds E C a w' 0 q.
Proof.
  intros (c & Hc & Hwf & Hcl & Hq) Hfull.
  pose proof Hwf as (HC & (Hcap & Hcnt & _) & _).
  assert (Hge : C <= ch_count c).
  { rewrite <- Hq, length_chan_contents in Hfull. lia. }
  unfold runtime_channel_send. rewrite Hc, Hcl, Hcap.
  replace (ch_count c >=? C) with true
    by (symmetry; rewrite Z.geb_leb; apply Z.leb_le; lia).
  simpl andb. cbv iota.
  destruct (runtime_get_current_legion tls w) as [cur|].
  - do 2 eexists. split; [reflexivity|]. split; [discriminate|].
    exists (set_ch_blocked_senders (Some cur) c).
    rewrite channels_runtime_legion_block.
    split; [|split; [exact Hwf|split; [exact Hcl|exact Hq]]].
    apply lookup_update_channel. rewrite channels_update_legion. exact Hc.
  - do 2 eexists. split; [reflexivity|]. split; [discriminate|].
    now exists c.
Qed.

(** Receive from a non-empty channel, open or closed: the oldest value. *)
Lemma recv_nonempty tls w cl v q :
  holds E C a w cl (v :: q) ->
  exists w', runtime_channel_recv tls (Some a) w
             = (w', RecvReturned (Some v)) /\
             holds E C a w' cl q.
Proof.
  intros (c & Hc & Hwf & Hcl & Hq).
  pose proof Hwf as (HC & (Hcap & Hcnt & _) & _).
  assert (Hne : ch_count c <> 0).
  { intros H0. pose proof (length_chan_contents c) as Hl.
    rewrite Hq, H0 in Hl. discriminate. }
  pose proof (chan_contents_dequeue E C c HC64 Hwf Hne) as Hdeq.
  rewrite Hq in Hdeq.
assert (Hv : snd (dequeue c) = v) by congruence.
assert (Hrest : chan_contents (fst (dequeue c)) = q) by congruence.
  unfold runtime_channel_recv. rewrite Hc.
  replace (ch_count c =? 0) with false
    by (symmetry; now apply Z.eqb_neq).
  simpl andb. cbv iota. rewrite <- Hv.
  eexists. split; [reflexivity|].
  destruct (wake_sender_lookup a
              (update_channel a (fun c => fst (dequeue c)) w)
              (fst (dequeue c))) as [r Hr].
  { apply (lookup_update_channel a (fun c => fst (dequeue c))). exact Hc. }
  eexists. split; [exact Hr|]. split; [|split].
  - apply (chan_wf_dequeue E C c HC64 Hwf Hne).
  - exact Hcl.
  - exact Hrest.
Qed.

(** Receive from an empty open channel: the caller parks or waits. *)
Lemma recv_empty_open tls w :
  holds E C a w 0 [] ->
  exists w' out, runtime_channel_recv tls (Some a) w = (w', out) /\
                 (out = RecvParked \/ out = RecvCondWait) /\
                 holds E C a w' 0 [].
Proof.
  intros (c & Hc & Hwf & Hcl & Hq).
  assert (H0 : ch_count c = 0).
  { pose proof (length_chan_contents c) as Hl. rewrite Hq in Hl.
    destruct Hwf as (_ & (_ & Hcnt & _) & _). simpl in Hl. lia. }
  unfold runtime_channel_recv. rewrite Hc, Hcl, H0.
  simpl andb. cbv iota.
  destruct (runtime_get_current_legion tls w) as [cur|].
  - do 2 eexists. split; [reflexivity|]. split; [now left|].
    exists (set_ch_blocked_receivers (Some cur) c).
    rewrite channels_runtime_legion_block.
    split; [|split; [exact Hwf|split; [exact Hcl|exact Hq]]].
    apply lookup_update_channel. rewrite channels_update_legion. exact Hc.
  - do 2 eexists. split; [reflexivity|]. split; [now right|].
    now exists c.
Qed.

(** Receive from an empty closed channel: NULL, at once, nothing changed. *)
Lemma recv_empty_closed tls w cl :
  cl <> 0 ->
  holds E C a w cl [] ->
  runtime_channel_recv tls (Some a) w = (w, RecvReturned None).
Proof.
  intros Hne (c & Hc & Hwf & Hcl & Hq).
  assert (H0 : ch_count c = 0).
  { pose proof (length_chan_contents c) as Hl. rewrite Hq in Hl.
    destruct Hwf as (_ & (_ & Hcnt & _) & _). simpl in Hl. lia. }
  unfold runtime_channel_recv. rewrite Hc, Hcl, H0.
  replace (cl =? 0) with false by (symmetry; now apply Z.eqb_neq).
  reflexivity.
Qed.
End ChannelSteps.

Lemma holds_new a E C w :
  1 <= C -> 0 <= E -> E * C < 2 ^ 64 ->
  holds E C a (fst (runtime_channel_new a E C w)) 0 [].
Proof.
  intros HC HE Hmul.
  eexists. split; [simpl; apply lookup_insert_eq|].
  split; [|split; reflexivity].
  split; [exact HC|]. split.
  - unfold counters_ok. simpl. rewrite Z.mod_0_l by lia. repeat split; lia.
  - unfold buffer_ok. simpl. repeat split; try assumption.
    rewrite repeat_length, wrap64_small by nia. nia.
Qed.

(** ** FIFO order with one sender and one receiver (C3) *)

Section Fifo.
Context (E C : Z) (a : nat) (vs : list (list byte)).
Hypothesis HC : 1 <= C < 2 ^ 64.

Lemma spsc_step_inv st t :
  spsc_inv E C a vs st -> spsc_inv E C a vs (spsc_step (Some a) st t).
Proof.
  intros (q & Hh & Hvs & Hlen).
  destruct st as [w pending received].
  cbn [sp_pending sp_world sp_received] in *.
  destruct t as [tls|tls]; unfold spsc_step;
    cbn [sp_pending sp_world sp_received].
  - destruct pending as [|v rest]; [exists q; auto|].
    apply Forall_cons in Hlen as [Hv Hrest].
    destruct (decide (length q < Z.to_nat C)%nat) as [Hroom|Hfull].
    + destruct (send_with_room E C a (proj2 HC) tls v w q Hh Hroom Hv)
        as (w' & Hsend & Hh').
      rewrite Hsend. exists (q ++ [v]).
      cbn [sp_pending sp_world sp_received]. repeat split; auto.
      rewrite <- Hvs, <- !app_assoc. reflexivity.
    + destruct (send_when_full E C a tls v w q Hh ltac:(lia))
        as (w' & out & Hsend & Hout & Hh').
      rewrite Hsend.
      destruct out; [congruence| |]; exists q;
        cbn [sp_pending sp_world sp_received]; repeat split; auto.
      now apply holds_yield.
  - destruct q as [|v q].
    + destruct (recv_empty_open E C a tls w Hh) as (w' & out & Hrecv & Hout & Hh').
      rewrite Hrecv.
      destruct Hout as [-> | ->]; exists [];
        cbn [sp_pending sp_world sp_received]; repeat split; auto.
      now apply holds_yield.
    + destruct (recv_nonempty E C a (proj2 HC) tls w 0 v q Hh)
        as (w' & Hrecv & Hh').
      rewrite Hrecv. exists q.
      cbn [sp_pending sp_world sp_received]. repeat split; auto.
      rewrite <- Hvs, <- !app_assoc. reflexivity.
Qed.

Lemma spsc_run_inv sched : forall st,
  spsc_inv E C a vs st -> spsc_inv E C a vs (spsc_run (Some a) sched st).
Proof.
  induction sched as [|t sched IH]; intros st Hinv; simpl; [assumption|].
  apply IH. now apply spsc_step_inv.
Qed.

(** When sender and receiver take turns, every turn succeeds. *)
Lemma ping_pong_delivers : forall pending w received,
  holds E C a w 0 [] ->
  Forall (fun v => Z.of_nat (length v) = E) pending ->
  sp_received
    (spsc_run (Some a) (ping_pong (length pending))
       (mkSpsc w pending received))
  = received ++ pending.
Proof.
  induction pending as [|v rest IH]; intros w received Hh Hlen.
  - simpl. now rewrite app_nil_r.
  - apply Forall_cons in Hlen as [Hv Hrest].
    destruct (send_with_room E C a (proj2 HC) 0 v w [] Hh ltac:(simpl; lia) Hv)
      as (w1 & Hsend & Hh1).
    destruct (recv_nonempty E C a (proj2 HC) 0 w1 0 v [] Hh1)
      as (w2 & Hrecv & Hh2).
    assert (H1 : spsc_step (Some a) (mkSpsc w (v :: rest) received)
                   (SenderTurn 0) = mkSpsc w1 rest received).
    { unfold spsc_step. cbn [sp_pending sp_world sp_received].
      now rewrite Hsend. }
    assert (H2 : spsc_step (Some a) (mkSpsc w1 rest received)
                   (ReceiverTurn 0) = mkSpsc w2 rest (received ++ [v])).
    { unfold spsc_step. cbn [sp_pending sp_world sp_received].
      now rewrite Hrecv. }
    change (sp_received
              (spsc_run (Some a) (ping_pong (length rest))
                 (spsc_step (Some a)
                    (spsc_step (Some a) (mkSpsc w (v :: rest) received)
                       (SenderTurn 0))
                    (ReceiverTurn 0)))
            = received ++ v :: rest).
    rewrite H1, H2.
    rewrite (IH w2 (received ++ [v]) Hh2 Hrest).
    now rewrite <- app_assoc.
Qed.
End Fifo.

(** C3: on a fresh channel of capacity [k >= 1], with one sender that sends
    [vs] in order and one receiver, in every interleaving of their attempts
    the values received so far are the first values of [vs], in order, so a
    receiver that has completed [length vs] receives holds exactly [vs]; and
    the receiver does obtain all of [vs] when the two take turns.  The
    values are [E] bytes long and [E * k] bytes fit a [size_t]. *)
Theorem spsc_fifo_order :
  forall (a : nat) (E k : Z) (w : World) (vs : list (list byte))
         (sched : list Turn),
    1 <= k < 2 ^ 64 ->
    0 <= E ->
    E * k < 2 ^ 64 ->
    Forall (fun v => Z.of_nat (length v) = E) vs ->
    let st := spsc_run (Some a) sched (spsc_init a E k vs w) in
    (exists q, holds E k a (sp_world st) 0 q /\
               sp_received st ++ q ++ sp_pending st = vs) /\
    (length (sp_received st) = length vs -> sp_received st = vs) /\
    sp_received
      (spsc_run (Some a) (ping_pong (length vs)) (spsc_init a E k vs w))
    = vs.
Proof.
  intros a E k w vs sched Hk HE Hmul Hlen st.
  assert (Hinit : holds E k a (fst (runtime_channel_new a E k w)) 0 []).
  { apply holds_new; lia. }
  assert (Hinv : spsc_inv E k a vs st).
  { apply spsc_run_inv; [exact Hk|]. exists []. simpl. auto. }
  destruct Hinv as (q & Hh & Hvs & _).
  split; [eauto|]. split.
  - intros Hl. rewrite <- Hvs in Hl. rewrite !length_app in Hl.
    assert (Hq : q ++ sp_pending st = []).
    { apply length_zero_iff_nil. rewrite length_app. lia. }
    rewrite <- Hvs, Hq. now rewrite app_nil_r.
  - unfold spsc_init.
    now rewrite (ping_pong_delivers E k a Hk vs _ [] Hinit Hlen).
Qed.

(** ** Receive on a closed channel (C4) *)

Lemma recv_n_nulls E C a tls w cl n :
  cl <> 0 ->
  holds E C a w cl [] ->
  recv_n tls (Some a) n w = (w, repeat (RecvReturned None) n).
Proof.
  intros Hcl Hh. induction n as [|n IH]; [reflexivity|].
  cbn [recv_n repeat].
  rewrite (recv_empty_closed E C a tls w cl Hcl Hh), IH. reflexivity.
Qed.

Lemma recv_n_drains E C a tls cl n :
  C < 2 ^ 64 ->
  cl <> 0 ->
  forall q w,
    holds E C a w cl q ->
    exists w',
      recv_n tls (Some a) (length q + n) w
      = (w', map (fun v => RecvReturned (Some v)) q
               ++ repeat (RecvReturned None) n) /\
      holds E C a w' cl [].
Proof.
  intros HC Hcl. induction q as [|v q IH]; intros w Hh.
  - exists w. split; [|exact Hh].
    now apply (recv_n_nulls E C a tls w cl n).
  - destruct (recv_nonempty E C a HC tls w cl v q Hh) as (w1 & Hrecv & Hh1).
    destruct (IH w1 Hh1) as (w' & Hrest & Hh').
    exists w'. split; [|exact Hh'].
    cbn [length Nat.add recv_n map app]. rewrite Hrecv, Hrest. reflexivity.
Qed.

Lemma holds_close E C a w cl q :
  holds E C a w cl q ->
  holds E C a (runtime_channel_close (Some a) w) 1 q.
Proof.
  intros (c & Hc & Hwf & _ & Hq).
  exists (set_ch_closed 1 c).
  split; [|split; [exact Hwf|split; [reflexivity|exact Hq]]].
  apply lookup_update_channel. exact Hc.
Qed.

(** C4: on a channel whose [closed] flag is set, and [close] sets it,
    successive receives first return the buffered values, oldest first, and
    from then on return NULL at once, without parking or waiting; and no
    sequence of channel operations clears the flag. *)
Theorem recv_on_closed_drains_then_null :
  forall (E C : Z) (a : nat) (tls : Z) (w : World) (cl : Z)
         (q : list (list byte)) (n : nat) (ops : list ChanOp),
    C < 2 ^ 64 ->
    holds E C a w cl q ->
    holds E C a (runtime_channel_close (Some a) w) 1 q /\
    (cl <> 0 ->
     (exists w',
        recv_n tls (Some a) (length q + n) w
        = (w', map (fun v => RecvReturned (Some v)) q
                 ++ repeat (RecvReturned None) n) /\
        holds E C a w' cl []) /\
     closed_at a (run_ops (Some a) ops w)).
Proof.
  intros E C a tls w cl q n ops HC Hh.
  split; [now apply (holds_close E C a w cl)|].
  intros Hcl. split.
  - now apply recv_n_drains.
  - apply run_ops_keeps_closed.
    destruct Hh as (c & Hc & _ & Hclosed & _).
    exists c. split; [exact Hc|]. now rewrite Hclosed.
Qed.

(** ** Park lists *)

Lemma legions_runtime_legion_start l w :
  legions (runtime_legion_start l w) = legions w.
Proof.
  unfold runtime_legion_start.
  destruct l as [l|]; [|reflexivity].
  destruct (g_scheduler w) as [s|]; [|reflexivity].
  destruct (push_to_local_queue _ _ _) as [s1 pushed].
  destruct (pushed =? 0); [|reflexivity].
  destruct (negb _); reflexivity.
Qed.

Lemma lookup_update_legion_eq a f w L :
  legions w !! a = Some L ->
  legions (update_legion a f w) !! a = Some (f L).
Proof.
  intros H. unfold update_legion. simpl.
  now rewrite lookup_alter_eq, H.
Qed.

Lemma lookup_update_legion_ne a l f w :
  a <> l ->
  legions (update_legion a f w) !! l = legions w !! l.
Proof.
  intros H. unfold update_legion. simpl. now apply lookup_alter_ne.
Qed.

Lemma is_chain_frame m m' p xs :
  is_chain m p xs ->
  (forall l, l ∈ xs -> m' !! l = m !! l) ->
  is_chain m' p xs.
Proof.
  induction 1 as [|l L xs HL Hrest IH]; intros Hsame.
  - constructor.
  - apply chain_cons with L.
    + rewrite Hsame; [exact HL|]. apply list_elem_of_here.
    + apply IH. intros l' Hl'. apply Hsame. now apply list_elem_of_further.
Qed.

(** The walk [park_list] computes the list [is_chain] describes. *)
Lemma park_list_is_chain m p xs :
  is_chain m p xs -> park_list m (length xs) p = xs.
Proof.
  induction 1 as [|l L xs HL Hrest IH]; [reflexivity|].
  simpl. now rewrite HL, IH.
Qed.

(** A thread has a current legion only under a scheduler. *)
Lemma current_legion_scheduler tls w cur :
  runtime_get_current_legion tls w = Some cur -> g_scheduler w <> None.
Proof.
  unfold runtime_get_current_legion. intros H Hs. rewrite Hs in H.
  discriminate.
Qed.

(** [runtime_legion_block] on legion [cur]. *)
Lemma block_lookup_ne tls cur ch w l :
  cur <> l ->
  legions (runtime_legion_block tls (Some cur) ch w) !! l = legions w !! l.
Proof.
  intros Hne. unfold runtime_legion_block.
  destruct (g_scheduler w) as [s|]; [|reflexivity].
  rewrite legions_with_scheduler, !lookup_update_legion_ne by exact Hne.
  destruct (_ && _); [|reflexivity].
  rewrite lookup_update_legion_ne by exact Hne.
  now rewrite legions_with_scheduler.
Qed.

Lemma block_lookup_eq tls cur ch w L :
  g_scheduler w <> None ->
  legions w !! cur = Some L ->
  exists L',
    legions (runtime_legion_block tls (Some cur) ch w) !! cur = Some L' /\
    l_next L' = l_next L /\
    l_state L' = LEGION_STATE_BLOCKED /\
    l_blocked_on L' = ch.
Proof.
  intros Hs HL. unfold runtime_legion_block.
  destruct (g_scheduler w) as [s|]; [|contradiction].
  rewrite legions_with_scheduler.
  destruct (_ && _).
  - eexists. split.
    + apply lookup_update_legion_eq, lookup_update_legion_eq,
        lookup_update_legion_eq.
      rewrite legions_with_scheduler. exact HL.
    + repeat split.
  - eexists. split.
    + apply lookup_update_legion_eq, lookup_update_legion_eq. exact HL.
    + repeat split.
Qed.

(** [unblock_legion_from_channel] on legion [s]. *)
Lemma unblock_lookup_ne s w l :
  s <> l ->
  legions (unblock_legion_from_channel (Some s) w) !! l = legions w !! l.
Proof.
  intros Hne. unfold unblock_legion_from_channel.
  destruct (negb _); [reflexivity|].
  rewrite legions_runtime_legion_start, legions_with_scheduler.
  rewrite !lookup_update_legion_ne by exact Hne. reflexivity.
Qed.

Lemma unblock_lookup_eq s w L :
  legions w !! s = Some L ->
  exists L',
    legions (unblock_legion_from_channel (Some s) w) !! s = Some L' /\
    l_next L' = l_next L /\
    (l_state L = LEGION_STATE_BLOCKED ->
     l_state L' = LEGION_STATE_RUNNABLE /\ l_blocked_on L' = None) /\
    (l_state L <> LEGION_STATE_BLOCKED -> L' = L).
Proof.
  intros HL. unfold unblock_legion_from_channel.
  destruct (is_blocked s w) eqn:Hb; cbn [negb].
  - rewrite legions_runtime_legion_start, legions_with_scheduler.
    eexists. split.
    + apply lookup_update_legion_eq, lookup_update_legion_eq. exact HL.
    + split; [reflexivity|]. split.
      * intros _. split; reflexivity.
      * intros Hst. exfalso.
        rewrite (is_blocked_false s w L HL Hst) in Hb. discriminate.
  - assert (Hst : l_state L <> LEGION_STATE_BLOCKED).
    { intros Hst. unfold is_blocked, legion_state in Hb.
      rewrite HL in Hb. simpl in Hb. rewrite Hst in Hb. discriminate. }
    exists L. split; [exact HL|]. split; [reflexivity|].
    split; [intros H; contradiction|reflexivity].
Qed.

(** Waking the head of [blocked_senders]. *)
Lemma wake_sender_pops a w c s xs :
  channels w !! a = Some c ->
  is_chain (legions w) (ch_blocked_senders c) (s :: xs) ->
  NoDup (s :: xs) ->
  exists c',
    channels (wake_sender a w) !! a = Some c' /\
    is_chain (legions (wake_sender a w)) (ch_blocked_senders c') xs /\
    ch_blocked_receivers c' = ch_blocked_receivers c /\
    woken s w (wake_sender a w) /\
    (forall l, l <> s ->
       legions (wake_sender a w) !! l = legions w !! l).
Proof.
  intros Hc Hchain Hnd.
  inversion Hchain as [|s' S xs' HS Hrest Hhead]; subst.
  apply NoDup_cons in Hnd as [Hnotin _].
  unfold wake_sender. rewrite Hc, <- Hhead.
  assert (Hnext : legion_next s w = l_next S).
  { unfold legion_next. now rewrite HS. }
  rewrite Hnext.
  set (w1 := update_channel a (set_ch_blocked_senders (l_next S)) w).
  set (w2 := update_legion s (set_l_next None) w1).
  assert (HS2 : legions w2 !! s = Some (set_l_next None S)).
  { apply lookup_update_legion_eq. exact HS. }
  destruct (unblock_lookup_eq s w2 _ HS2) as (L' & HL' & Hn & Hb & Hnb).
  assert (Hother : forall l, l <> s ->
            legions (unblock_legion_from_channel (Some s) w2) !! l
            = legions w !! l).
  { intros l Hl. rewrite unblock_lookup_ne by congruence.
    unfold w2. rewrite lookup_update_legion_ne by congruence. reflexivity. }
  exists (set_ch_blocked_senders (l_next S) c). split; [|split; [|split; [|split]]].
  - rewrite channels_unblock_legion_from_channel.
    unfold w2. rewrite channels_update_legion.
    apply lookup_update_channel. exact Hc.
  - apply (is_chain_frame (legions w)); [exact Hrest|].
    intros l Hl. apply Hother. intros ->. contradiction.
  - reflexivity.
  - exists S, L'. split; [exact HS|]. split; [exact HL'|].
    split; [exact Hn|]. split.
    + intros Hst. apply Hb. exact Hst.
    + intros Hst. rewrite (Hnb Hst). split; reflexivity.
  - exact Hother.
Qed.

(** Waking the head of [blocked_receivers]. *)
Lemma wake_receiver_pops a w c r ys :
  channels w !! a = Some c ->
  is_chain (legions w) (ch_blocked_receivers c) (r :: ys) ->
  NoDup (r :: ys) ->
  exists c',
    channels (wake_receiver a w) !! a = Some c' /\
    is_chain (legions (wake_receiver a w)) (ch_blocked_receivers c') ys /\
    ch_blocked_senders c' = ch_blocked_senders c /\
    woken r w (wake_receiver a w) /\
    (forall l, l <> r ->
       legions (wake_receiver a w) !! l = legions w !! l).
Proof.
  intros Hc Hchain Hnd.
  inversion Hchain as [|r' R ys' HR Hrest Hhead]; subst.
  apply NoDup_cons in Hnd as [Hnotin _].
  unfold wake_receiver. rewrite Hc, <- Hhead.
  assert (Hnext : legion_next r w = l_next R).
  { unfold legion_next. now rewrite HR. }
  rewrite Hnext.
  set (w1 := update_channel a (set_ch_blocked_receivers (l_next R)) w).
  set (w2 := update_legion r (set_l_next None) w1).
  assert (HR2 : legions w2 !! r = Some (set_l_next None R)).
  { apply lookup_update_legion_eq. exact HR. }
  destruct (unblock_lookup_eq r w2 _ HR2) as (L' & HL' & Hn & Hb & Hnb).
  assert (Hother : forall l, l <> r ->
            legions (unblock_legion_from_channel (Some r) w2) !! l
            = legions w !! l).
  { intros l Hl. rewrite unblock_lookup_ne by congruence.
    unfold w2. rewrite lookup_update_legion_ne by congruence. reflexivity. }
  exists (set_ch_blocked_receivers (l_next R) c).
  split; [|split; [|split; [|split]]].
  - rewrite channels_unblock_legion_from_channel.
    unfold w2. rewrite channels_update_legion.
    apply lookup_update_channel. exact Hc.
  - apply (is_chain_frame (legions w)); [exact Hrest|].
    intros l Hl. apply Hother. intros ->. contradiction.
  - reflexivity.
  - exists R, L'. split; [exact HR|]. split; [exact HL'|].
    split; [exact Hn|]. split.
    + intros Hst. apply Hb. exact Hst.
    + intros Hst. rewrite (Hnb Hst). split; reflexivity.
  - exact Hother.
Qed.

(** A legion that blocks in [send] becomes the head of [blocked_senders]. *)
Lemma send_parks_at_head tls a w c value cur L xs :
  channels w !! a = Some c ->
  ch_closed c = 0 ->
  ch_capacity c <= ch_count c ->
  runtime_get_current_legion tls w = Some cur ->
  legions w !! cur = Some L ->
  is_chain (legions w) (ch_blocked_senders c) xs ->
  cur ∉ xs ->
  exists w' c',
    runtime_channel_send tls (Some a) value w = (w', SendParked) /\
    channels w' !! a = Some c' /\
    is_chain (legions w') (ch_blocked_senders c') (cur :: xs) /\
    ch_blocked_receivers c' = ch_blocked_receivers c /\
    parked cur a (ch_blocked_senders c) w'.
Proof.
  intros Hc Hcl Hfull Hcur HL Hchain Hnotin.
  unfold runtime_channel_send. rewrite Hc, Hcl, Hcur.
  replace (ch_count c >=? ch_capacity c) with true
    by (symmetry; rewrite Z.geb_leb; now apply Z.leb_le).
  simpl andb. cbv iota.
  set (w1 := update_legion cur (set_l_next (ch_blocked_senders c)) w).
  set (w2 := update_channel a (set_ch_blocked_senders (Some cur)) w1).
  assert (HL2 : legions w2 !! cur
                = Some (set_l_next (ch_blocked_senders c) L)).
  { apply lookup_update_legion_eq. exact HL. }
  destruct (block_lookup_eq tls cur (Some a) w2 _
              (current_legion_scheduler tls w cur Hcur) HL2)
    as (L' & HL' & Hn & Hst & Hbo).
  do 2 eexists. split; [reflexivity|]. split; [|split; [|split]].
  - rewrite channels_runtime_legion_block.
    apply lookup_update_channel. exact Hc.
  - apply chain_cons with L'; [exact HL'|].
    rewrite Hn. cbn [l_next set_l_next].
    apply (is_chain_frame (legions w)); [exact Hchain|].
    intros l Hl. rewrite block_lookup_ne by (intros ->; contradiction).
    unfold w2, w1. cbn [update_channel set_channels legions].
    apply lookup_update_legion_ne. intros ->. contradiction.
  - reflexivity.
  - exists L'. repeat split; assumption.
Qed.

(** A legion that blocks in [recv] becomes the head of
    [blocked_receivers]. *)
Lemma recv_parks_at_head tls a w c cur L ys :
  channels w !! a = Some c ->
  ch_closed c = 0 ->
  ch_count c = 0 ->
  runtime_get_current_legion tls w = Some cur ->
  legions w !! cur = Some L ->
  is_chain (legions w) (ch_blocked_receivers c) ys ->
  cur ∉ ys ->
  exists w' c',
    runtime_channel_recv tls (Some a) w = (w', RecvParked) /\
    channels w' !! a = Some c' /\
    is_chain (legions w') (ch_blocked_receivers c') (cur :: ys) /\
    ch_blocked_senders c' = ch_blocked_senders c /\
    parked cur a (ch_blocked_receivers c) w'.
Proof.
  intros Hc Hcl Hempty Hcur HL Hchain Hnotin.
  unfold runtime_channel_recv. rewrite Hc, Hcl, Hcur, Hempty.
  simpl andb. cbv iota.
  set (w1 := update_legion cur (set_l_next (ch_blocked_receivers c)) w).
  set (w2 := update_channel a (set_ch_blocked_receivers (Some cur)) w1).
  assert (HL2 : legions w2 !! cur
                = Some (set_l_next (ch_blocked_receivers c) L)).
  { apply lookup_update_legion_eq. exact HL. }
  destruct (block_lookup_eq tls cur (Some a) w2 _
              (current_legion_scheduler tls w cur Hcur) HL2)
    as (L' & HL' & Hn & Hst & Hbo).
  do 2 eexists. split; [reflexivity|]. split; [|split; [|split]].
  - rewrite channels_runtime_legion_block.
    apply lookup_update_channel. exact Hc.
  - apply chain_cons with L'; [exact HL'|].
    rewrite Hn. cbn [l_next set_l_next].
    apply (is_chain_frame (legions w)); [exact Hchain|].
    intros l Hl. rewrite block_lookup_ne by (intros ->; contradiction).
    unfold w2, w1. cbn [update_channel set_channels legions].
    apply lookup_update_legion_ne. intros ->. contradiction.
  - reflexivity.
  - exists L'. repeat split; assumption.
Qed.

(** A [recv] that takes a value wakes the head of [blocked_senders]. *)
Lemma recv_wakes_head_sender tls a w c s xs :
  channels w !! a = Some c ->
  ch_count c <> 0 ->
  is_chain (legions w) (ch_blocked_senders c) (s :: xs) ->
  NoDup (s :: xs) ->
  exists w' v c',
    runtime_channel_recv tls (Some a) w = (w', RecvReturned (Some v)) /\
    channels w' !! a = Some c' /\
    is_chain (legions w') (ch_blocked_senders c') xs /\
    ch_blocked_receivers c' = ch_blocked_receivers c /\
    woken s w w'.
Proof.
  intros Hc Hne Hchain Hnd.
  unfold runtime_channel_recv. rewrite Hc.
  replace (ch_count c =? 0) with false by (symmetry; now apply Z.eqb_neq).
  simpl andb. cbv iota zeta.
  set (w1 := update_channel a (fun c => fst (dequeue c)) w).
  assert (Hc1 : channels w1 !! a = Some (fst (dequeue c))).
  { apply (lookup_update_channel a (fun c => fst (dequeue c))). exact Hc. }
  destruct (wake_sender_pops a w1 _ s xs Hc1 Hchain Hnd)
    as (c' & Hc' & Hch' & Hrecvs & Hwoken & _).
  exists (wake_sender a w1), (snd (dequeue c)), c'.
  split; [reflexivity|]. split; [exact Hc'|]. split; [exact Hch'|].
  split; [exact Hrecvs|exact Hwoken].
Qed.

(** A [send] that stores its value wakes the head of
    [blocked_receivers]. *)
Lemma send_wakes_head_receiver tls a w c value r ys :
  channels w !! a = Some c ->
  ch_closed c = 0 ->
  ch_count c < ch_capacity c ->
  is_chain (legions w) (ch_blocked_receivers c) (r :: ys) ->
  NoDup (r :: ys) ->
  exists w' c',
    runtime_channel_send tls (Some a) value w = (w', SendReturned) /\
    channels w' !! a = Some c' /\
    is_chain (legions w') (ch_blocked_receivers c') ys /\
    ch_blocked_senders c' = ch_blocked_senders c /\
    woken r w w'.
Proof.
  intros Hc Hcl Hroom Hchain Hnd.
  unfold runtime_channel_send. rewrite Hc, Hcl.
  replace (ch_count c >=? ch_capacity c) with false
    by (symmetry; rewrite Z.geb_leb; apply Z.leb_gt; lia).
  simpl andb. cbv iota. simpl negb. cbv iota.
  set (w1 := update_channel a (enqueue value) w).
  assert (Hc1 : channels w1 !! a = Some (enqueue value c)).
  { apply lookup_update_channel. exact Hc. }
  destruct (wake_receiver_pops a w1 _ r ys Hc1 Hchain Hnd)
    as (c' & Hc' & Hch' & Hsends & Hwoken & _).
  exists (wake_receiver a w1), c'.
  split; [reflexivity|]. split; [exact Hc'|]. split; [exact Hch'|].
  split; [exact Hsends|exact Hwoken].
Qed.

(** The park lists are stacks for the legions that
    [runtime_get_current_legion] finds.  With [xs] the list of blocked senders
    and [ys] the list of blocked receivers of a channel, both free of
    repetitions: the legion [cur] that blocks in send (full, open channel)
    leaves the senders as [cur :: xs], and the one that blocks in recv
    (empty, open channel) leaves the receivers as [cur :: ys]; a recv that
    takes a value detaches and unblocks the head of the senders and leaves
    its tail, and a send that stores a value does the same with the
    receivers.  The legion woken is therefore the one parked last. *)
Lemma park_lists_are_lifo :
  forall (tls : Z) (a : nat) (w : World) (c : Channel) (value : list byte)
         (xs ys : list nat),
    channels w !! a = Some c ->
    is_chain (legions w) (ch_blocked_senders c) xs ->
    is_chain (legions w) (ch_blocked_receivers c) ys ->
    NoDup xs ->
    NoDup ys ->
    (forall cur L,
       ch_closed c = 0 -> ch_capacity c <= ch_count c ->
       runtime_get_current_legion tls w = Some cur ->
       legions w !! cur = Some L -> cur ∉ xs ->
       exists w' c',
         runtime_channel_send tls (Some a) value w = (w', SendParked) /\
         channels w' !! a = Some c' /\
         is_chain (legions w') (ch_blocked_senders c') (cur :: xs) /\
         parked cur a (ch_blocked_senders c) w') /\
    (forall cur L,
       ch_closed c = 0 -> ch_count c = 0 ->
       runtime_get_current_legion tls w = Some cur ->
       legions w !! cur = Some L -> cur ∉ ys ->
       exists w' c',
         runtime_channel_recv tls (Some a) w = (w', RecvParked) /\
         channels w' !! a = Some c' /\
         is_chain (legions w') (ch_blocked_receivers c') (cur :: ys) /\
         parked cur a (ch_blocked_receivers c) w') /\
    (forall s xs',
       ch_count c <> 0 -> xs = s :: xs' ->
       exists w' v c',
         runtime_channel_recv tls (Some a) w = (w', RecvReturned (Some v)) /\
         channels w' !! a = Some c' /\
         is_chain (legions w') (ch_blocked_senders c') xs' /\
         woken s w w') /\
    (forall r ys',
       ch_closed c = 0 -> ch_count c < ch_capacity c -> ys = r :: ys' ->
       exists w' c',
         runtime_channel_send tls (Some a) value w = (w', SendReturned) /\
         channels w' !! a = Some c' /\
         is_chain (legions w') (ch_blocked_receivers c') ys' /\
         woken r w w').
Proof.
  intros tls a w c value xs ys Hc Hxs Hys Hndx Hndy.
  split; [|split; [|split]].
  - intros cur L Hcl Hfull Hcur HL Hnotin.
    destruct (send_parks_at_head tls a w c value cur L xs
                Hc Hcl Hfull Hcur HL Hxs Hnotin)
      as (w' & c' & H1 & H2 & H3 & _ & H5).
    exists w', c'. auto.
  - intros cur L Hcl Hempty Hcur HL Hnotin.
    destruct (recv_parks_at_head tls a w c cur L ys
                Hc Hcl Hempty Hcur HL Hys Hnotin)
      as (w' & c' & H1 & H2 & H3 & _ & H5).
    exists w', c'. auto.
  - intros s xs' Hne ->.
    destruct (recv_wakes_head_sender tls a w c s xs' Hc Hne Hxs Hndx)
      as (w' & v & c' & H1 & H2 & H3 & _ & H5).
    exists w', v, c'. auto.
  - intros r ys' Hcl Hroom ->.
    destruct (send_wakes_head_receiver tls a w c value r ys'
                Hc Hcl Hroom Hys Hndy)
      as (w' & c' & H1 & H2 & H3 & _ & H5).
    exists w', c'. auto.
Qed.

(** C7: the claim fails for a legion that runs on worker 0.  The worker
    stores its id 0 in the thread-local slot as a null pointer, which
    [get_thread_id] reads as -1, so [runtime_get_current_legion] returns
    NULL on that thread although [current_legion[0]] holds the legion.  In
    the world where legion 7 is RUNNING on worker 0 and the channel at
    address 1 is full and open, its send does not link it to
    [blocked_senders]: the caller waits on the condition variable and the
    world, the empty list of blocked senders included, is as before; the
    same holds of its recv on the empty channel.  On the thread of worker 0
    no send and no recv parks a legion, in any world. *)
Theorem legion_on_worker_0_is_not_parked :
  (exists s L c,
     g_scheduler worker0_full_world = Some s /\
     zlookup (s_current_legion s) 0 = Some (Some 7%nat) /\
     legions worker0_full_world !! 7%nat = Some L /\
     l_state L = LEGION_STATE_RUNNING /\
     l_thread_id L = 0 /\
     channels worker0_full_world !! 1%nat = Some c /\
     ch_closed c = 0 /\
     ch_count c = ch_capacity c /\
     ch_blocked_senders c = None) /\
  runtime_channel_send (set_thread_id 0) (Some 1%nat) [x06]
    worker0_full_world
  = (worker0_full_world, SendCondWait) /\
  (exists s L c,
     g_scheduler worker0_empty_world = Some s /\
     zlookup (s_current_legion s) 0 = Some (Some 7%nat) /\
     legions worker0_empty_world !! 7%nat = Some L /\
     l_state L = LEGION_STATE_RUNNING /\
     l_thread_id L = 0 /\
     channels worker0_empty_world !! 1%nat = Some c /\
     ch_closed c = 0 /\
     ch_count c = 0 /\
     ch_blocked_receivers c = None) /\
  runtime_channel_recv (set_thread_id 0) (Some 1%nat) worker0_empty_world
  = (worker0_empty_world, RecvCondWait) /\
  (forall (w : World) (ch : option nat) (v : list byte),
     snd (runtime_channel_send (set_thread_id 0) ch v w) <> SendParked) /\
  (forall (w : World) (ch : option nat),
     snd (runtime_channel_recv (set_thread_id 0) ch w) <> RecvParked).
Proof.
  assert (Hzero : forall w,
            runtime_get_current_legion (set_thread_id 0) w = None).
  { intros w. unfold runtime_get_current_legion.
    destruct (g_scheduler w); reflexivity. }
  split; [|split; [|split; [|split; [|split]]]].
  - do 3 eexists. repeat split; vm_compute; reflexivity.
  - vm_compute. reflexivity.
  - do 3 eexists. repeat split; vm_compute; reflexivity.
  - vm_compute. reflexivity.
  - intros w ch v. unfold runtime_channel_send.
    destruct ch as [p|]; [|discriminate].
    destruct (channels w !! p) as [c|]; [|discriminate].
    rewrite Hzero.
    destruct (_ && _); [discriminate|].
    destruct (negb _); discriminate.
  - intros w ch. unfold runtime_channel_recv.
    destruct ch as [p|]; [|discriminate].
    destruct (channels w !! p) as [c|]; [|discriminate].
    rewrite Hzero.
    destruct (_ && _); [discriminate|].
    destruct (_ && _); discriminate.
Qed.

(** ** The theorems at concrete inputs *)

(** C2 on a channel of capacity 2 after a mixed sequence of operations. *)
Lemma channel_counters_invariant_witness :
  1 <= 2 < 2 ^ 64 /\
  exists c,
    channels
      (run_ops (Some 1%nat)
         [OpTrySend [x01]; OpSend 0 [x02]; OpSend 0 [x03]; OpRecv 0;
          OpTryRecv true; OpClose; OpRecv 0]
         (fst (runtime_channel_new 1 1 2 empty_world))) !! 1%nat = Some c /\
    ch_capacity c = 2 /\
    0 <= ch_count c <= 2 /\
    0 <= ch_head c < 2 /\
    0 <= ch_tail c < 2 /\
    (ch_count c <> 2 -> (ch_tail c - ch_head c + 2) mod 2 = ch_count c).
Proof.
  split; [lia|].
  apply (channel_counters_invariant 1%nat 1 2 empty_world). lia.
Defined.

(** C3 on a channel of capacity 2: the sender runs ahead until the channel is
    full, waits, and the receiver still obtains 1, 2, 3 in this order. *)
Lemma spsc_fifo_order_witness :
  (1 <= 2 < 2 ^ 64 /\ 0 <= 1 /\ 1 * 2 < 2 ^ 64 /\
   Forall (fun v => Z.of_nat (length v) = 1) [[x01]; [x02]; [x03]]) /\
  sp_received
    (spsc_run (Some 1%nat)
       [SenderTurn 0; SenderTurn 0; SenderTurn 0; ReceiverTurn 0;
        SenderTurn 0; ReceiverTurn 0; ReceiverTurn 0]
       (spsc_init 1 1 2 [[x01]; [x02]; [x03]] empty_world))
  = [[x01]; [x02]; [x03]].
Proof.
  assert (H : 1 <= 2 < 2 ^ 64 /\ 0 <= 1 /\ 1 * 2 < 2 ^ 64 /\
              Forall (fun v => Z.of_nat (length v) = 1)
                [[x01]; [x02]; [x03]]).
  { split; [lia|]. split; [lia|]. split; [lia|].
    repeat constructor. }
  split; [exact H|].
  destruct H as (H1 & H2 & H3 & H4).
  refine (proj1 (proj2 (spsc_fifo_order 1%nat 1 2 empty_world
                          [[x01]; [x02]; [x03]]
                          [SenderTurn 0; SenderTurn 0; SenderTurn 0;
                           ReceiverTurn 0; SenderTurn 0; ReceiverTurn 0;
                           ReceiverTurn 0] H1 H2 H3 H4)) _).
  vm_compute. reflexivity.
Defined.

Lemma closed_channel_world_holds :
  holds 1 2 1 closed_channel_world 1 [[x01]; [x02]].
Proof.
  eexists. split; [vm_compute; reflexivity|].
  split; [|split; reflexivity].
  split; [lia|]. split.
  - unfold counters_ok. simpl. repeat split; lia.
  - unfold buffer_ok. simpl. repeat split; lia.
Defined.

(** C4 on a closed channel that still buffers 1 and 2: four receives return
    1, 2, NULL, NULL, and later operations leave the channel closed. *)
Lemma recv_on_closed_drains_then_null_witness :
  (2 < 2 ^ 64 /\ holds 1 2 1 closed_channel_world 1 [[x01]; [x02]] /\ 1 <> 0) /\
  (exists w',
     recv_n 0 (Some 1%nat) 4 closed_channel_world
     = (w', [RecvReturned (Some [x01]); RecvReturned (Some [x02]);
             RecvReturned None; RecvReturned None]) /\
     holds 1 2 1 w' 1 []) /\
  closed_at 1
    (run_ops (Some 1%nat) [OpSend 0 [x09]; OpRecv 0; OpTryRecv true]
       closed_channel_world).
Proof.
  assert (H64 : 2 < 2 ^ 64) by lia.
  assert (Hne : 1 <> 0) by lia.
  split; [split; [exact H64|split; [exact closed_channel_world_holds|exact Hne]]|].
  exact (proj2 (recv_on_closed_drains_then_null 1 2 1%nat 0
                  closed_channel_world 1 [[x01]; [x02]] 2%nat
                  [OpSend 0 [x09]; OpRecv 0; OpTryRecv true]
                  H64 closed_channel_world_holds) Hne).
Defined.

(** C5 on the closed channel: the value 9 is dropped. *)
Lemma send_on_closed_is_dropped_witness :
  (exists c, channels closed_channel_world !! 1%nat = Some c /\
             ch_closed c <> 0) /\
  runtime_channel_send 0 (Some 1%nat) [x09] closed_channel_world
  = (closed_channel_world, SendReturned).
Proof.
  assert (H : exists c, channels closed_channel_world !! 1%nat = Some c /\
                        ch_closed c <> 0).
  { eexists. split; [vm_compute; reflexivity|]. simpl. lia. }
  split; [exact H|].
  destruct H as (c & Hc & Hcl).
  exact (send_on_closed_is_dropped 0 1%nat [x09] closed_channel_world c Hc Hcl).
Defined.

(** C10 on the RUNNING legion 7. *)
Lemma unblock_not_blocked_is_noop_witness :
  (exists L, legions full_channel_world !! 7%nat = Some L /\
             l_state L <> LEGION_STATE_BLOCKED) /\
  runtime_legion_unblock (Some 7%nat) full_channel_world
  = full_channel_world /\
  unblock_legion_from_channel (Some 7%nat) full_channel_world
  = full_channel_world.
Proof.
  assert (H : exists L, legions full_channel_world !! 7%nat = Some L /\
                        l_state L <> LEGION_STATE_BLOCKED).
  { eexists. split; [vm_compute; reflexivity|]. simpl. discriminate. }
  split; [exact H|].
  destruct H as (L & HL & Hst).
  exact (unblock_not_blocked_is_noop full_channel_world 7%nat L HL Hst).
Defined.

(** The park lists in four concrete worlds with a channel of capacity 1 and
    the legions 7 and 8, legion 7 on worker 1.  Legion 8 is parked; legion 7
    parks behind the list head and is the one the counterpart wakes, leaving
    legion 8 parked. *)
Lemma park_lists_are_lifo_witness :
  (exists w' c',
     runtime_channel_send 1 (Some 1%nat) [x07] full_channel_world
     = (w', SendParked) /\
     channels w' !! 1%nat = Some c' /\
     is_chain (legions w') (ch_blocked_senders c') [7%nat; 8%nat] /\
     parked 7 1 (Some 8%nat) w') /\
  (exists w' c',
     runtime_channel_recv 1 (Some 1%nat) empty_channel_world
     = (w', RecvParked) /\
     channels w' !! 1%nat = Some c' /\
     is_chain (legions w') (ch_blocked_receivers c') [7%nat; 8%nat] /\
     parked 7 1 (Some 8%nat) w') /\
  (exists w' v c',
     runtime_channel_recv 0 (Some 1%nat) two_senders_world
     = (w', RecvReturned (Some v)) /\
     channels w' !! 1%nat = Some c' /\
     is_chain (legions w') (ch_blocked_senders c') [8%nat] /\
     woken 7 two_senders_world w') /\
  (exists w' c',
     runtime_channel_send 0 (Some 1%nat) [x09] two_receivers_world
     = (w', SendReturned) /\
     channels w' !! 1%nat = Some c' /\
     is_chain (legions w') (ch_blocked_receivers c') [8%nat] /\
     woken 7 two_receivers_world w').
Proof.
  split; [|split; [|split]].
  - assert (Hc : channels full_channel_world !! 1%nat = Some full_channel)
      by (vm_compute; reflexivity).
    assert (Hxs : is_chain (legions full_channel_world)
                    (ch_blocked_senders full_channel) [8%nat])
      by walk_chain.
    assert (Hys : is_chain (legions full_channel_world)
                    (ch_blocked_receivers full_channel) [])
      by walk_chain.
    assert (Hndx : NoDup [8%nat]) by by_decide.
    assert (Hndy : NoDup (@nil nat)) by by_decide.
    assert (Hcl : ch_closed full_channel = 0) by reflexivity.
    assert (Hfull : ch_capacity full_channel <= ch_count full_channel)
      by (simpl; lia).
    assert (Hcur : runtime_get_current_legion 1 full_channel_world
                   = Some 7%nat) by (vm_compute; reflexivity).
    assert (Hnotin : 7%nat ∉ [8%nat]) by by_decide.
    assert (HL : exists L, legions full_channel_world !! 7%nat = Some L)
      by (eexists; vm_compute; reflexivity).
    destruct HL as [L HL].
    exact (proj1 (park_lists_are_lifo 1 1%nat full_channel_world
                    full_channel [x07] [8%nat] [] Hc Hxs Hys Hndx Hndy)
             7%nat L Hcl Hfull Hcur HL Hnotin).
  - assert (Hc : channels empty_channel_world !! 1%nat = Some empty_channel)
      by (vm_compute; reflexivity).
    assert (Hxs : is_chain (legions empty_channel_world)
                    (ch_blocked_senders empty_channel) [])
      by walk_chain.
    assert (Hys : is_chain (legions empty_channel_world)
                    (ch_blocked_receivers empty_channel) [8%nat])
      by walk_chain.
    assert (Hndx : NoDup (@nil nat)) by by_decide.
    assert (Hndy : NoDup [8%nat]) by by_decide.
    assert (Hcl : ch_closed empty_channel = 0) by reflexivity.
    assert (Hempty : ch_count empty_channel = 0) by reflexivity.
    assert (Hcur : runtime_get_current_legion 1 empty_channel_world
                   = Some 7%nat) by (vm_compute; reflexivity).
    assert (Hnotin : 7%nat ∉ [8%nat]) by by_decide.
    assert (HL : exists L, legions empty_channel_world !! 7%nat = Some L)
      by (eexists; vm_compute; reflexivity).
    destruct HL as [L HL].
    exact (proj1 (proj2 (park_lists_are_lifo 1 1%nat empty_channel_world
                           empty_channel [] [] [8%nat] Hc Hxs Hys Hndx Hndy))
             7%nat L Hcl Hempty Hcur HL Hnotin).
  - assert (Hc : channels two_senders_world !! 1%nat
                 = Some two_senders_channel)
      by (vm_compute; reflexivity).
    assert (Hxs : is_chain (legions two_senders_world)
                    (ch_blocked_senders two_senders_channel)
                    [7%nat; 8%nat])
      by walk_chain.
    assert (Hys : is_chain (legions two_senders_world)
                    (ch_blocked_receivers two_senders_channel) [])
      by walk_chain.
    assert (Hndx : NoDup [7%nat; 8%nat]) by by_decide.
    assert (Hndy : NoDup (@nil nat)) by by_decide.
    assert (Hne : ch_count two_senders_channel <> 0) by (simpl; lia).
    exact (proj1 (proj2 (proj2 (park_lists_are_lifo 0 1%nat
                                  two_senders_world two_senders_channel []
                                  [7%nat; 8%nat] [] Hc Hxs Hys Hndx Hndy)))
             7%nat [8%nat] Hne eq_refl).
  - assert (Hc : channels two_receivers_world !! 1%nat
                 = Some two_receivers_channel)
      by (vm_compute; reflexivity).
    assert (Hxs : is_chain (legions two_receivers_world)
                    (ch_blocked_senders two_receivers_channel) [])
      by walk_chain.
    assert (Hys : is_chain (legions two_receivers_world)
                    (ch_blocked_receivers two_receivers_channel)
                    [7%nat; 8%nat])
      by walk_chain.
    assert (Hndx : NoDup (@nil nat)) by by_decide.
    assert (Hndy : NoDup [7%nat; 8%nat]) by by_decide.
    assert (Hcl : ch_closed two_receivers_channel = 0) by reflexivity.
    assert (Hroom : ch_count two_receivers_channel
                    < ch_capacity two_receivers_channel) by (simpl; lia).
    exact (proj2 (proj2 (proj2 (park_lists_are_lifo 0 1%nat
                                  two_receivers_world two_receivers_channel
                                  [x09] [] [7%nat; 8%nat]
                                  Hc Hxs Hys Hndx Hndy)))
             7%nat [8%nat] Hcl Hroom eq_refl).
Defined.

(** ** Submission when the chosen queue has room *)

Lemma find_least_loaded_thread_range s :
  0 <= find_least_loaded_thread s < MAX_OS_THREADS.
Proof.
  unfold find_least_loaded_thread, least_loaded_scan, MAX_OS_THREADS.
  repeat match goal with
         | |- context [if ?b then _ else _] => destruct b
         end; lia.
Qed.

Lemma zlookup_lt {A} (l : list A) (i : Z) :
  0 <= i < Z.of_nat (length l) -> exists x, zlookup l i = Some x.
Proof.
  intros Hi. unfold zlookup.
  destruct (i <? 0) eqn:Hneg; [apply Z.ltb_lt in Hneg; lia|].
  apply lookup_lt_is_Some_2. lia.
Qed.

Lemma zlookup_zupdate_eq {A} (l : list A) (i : Z) (x : A) :
  0 <= i < Z.of_nat (length l) -> zlookup (zupdate l i x) i = Some x.
Proof.
  intros Hi. unfold zlookup, zupdate.
  destruct (i <? 0) eqn:Hneg; [apply Z.ltb_lt in Hneg; lia|].
  apply list_lookup_insert_eq. lia.
Qed.

Lemma zlookup_Forall {A} (P : A -> Prop) (l : list A) (i : Z) (x : A) :
  Forall P l -> zlookup l i = Some x -> P x.
Proof.
  intros HP Hx. unfold zlookup in Hx. destruct (i <? 0); [discriminate|].
  rewrite Forall_forall in HP. apply HP.
  apply list_elem_of_lookup. eauto.
Qed.

Section Push.
Context (s : Scheduler) (t : Z) (l : option nat).
Hypothesis Hwf : sched_wf s.
Hypothesis Ht : 0 <= t < MAX_OS_THREADS.

Lemma queue_head_range : 0 <= queue_head_of s t < LEGION_QUEUE_SIZE.
Proof.
  destruct Hwf as (_ & _ & Hlh & _ & Hh & _).
  unfold MAX_OS_THREADS in Ht.
  destruct (zlookup_lt (s_queue_head s) t ltac:(lia)) as [h Hlk].
  unfold queue_head_of. rewrite Hlk. simpl.
  exact (zlookup_Forall _ _ _ _ Hh Hlk).
Qed.

Lemma queue_tail_range : 0 <= queue_tail_of s t < LEGION_QUEUE_SIZE.
Proof.
  destruct Hwf as (_ & _ & _ & Hlt & _ & Htl).
  unfold MAX_OS_THREADS in Ht.
  destruct (zlookup_lt (s_queue_tail s) t ltac:(lia)) as [h Hlk].
  unfold queue_tail_of. rewrite Hlk. simpl.
  exact (zlookup_Forall _ _ _ _ Htl Hlk).
Qed.

(** A push into a queue with room stores the legion at [tail], advances
    [tail], and the legion is the last element of the queue. *)
Lemma push_to_local_queue_room :
  queue_full t s = false ->
  exists s',
    push_to_local_queue t l s = (s', 1) /\
    In l (queue_contents t s').
Proof.
  intros Hroom. unfold queue_full in Hroom.
  pose proof queue_head_range as Hh. pose proof queue_tail_range as Htl.
  unfold LEGION_QUEUE_SIZE, MAX_OS_THREADS in *.
  unfold push_to_local_queue, LEGION_QUEUE_SIZE. rewrite Hroom.
  eexists. split; [reflexivity|].
  set (tail := queue_tail_of s t) in *.
  set (head := queue_head_of s t) in *.
  set (s' := store_tail t (Z.rem (tail + 1) 256) (store_slot t tail l s)).
  destruct Hwf as (Hlq & Hq & Hlh & Hlt & _ & _).
  assert (Hhead' : queue_head_of s' t = head) by reflexivity.
  assert (Htail' : queue_tail_of s' t = Z.rem (tail + 1) 256).
  { unfold queue_tail_of, s', store_tail. simpl.
    rewrite zlookup_zupdate_eq by lia. reflexivity. }
  assert (Hslot : queue_slot s' t tail = l).
  { unfold queue_slot, s', store_tail, store_slot. simpl.
    destruct (zlookup_lt (s_run_queue s) t ltac:(lia)) as [q Hlk].
    rewrite zlookup_zupdate_eq by lia. simpl. rewrite Hlk. simpl.
    pose proof (zlookup_Forall _ _ _ _ Hq Hlk) as Hlen. simpl in Hlen.
    rewrite zlookup_zupdate_eq by lia. reflexivity. }
  apply Z.eqb_neq in Hroom.
  rewrite Z.rem_mod_nonneg in Hroom, Htail' by lia.
  unfold queue_contents. apply in_map_iff.
  exists (Z.to_nat (get_queue_length t s)).
  assert (Hlen : 0 <= get_queue_length t s < 256 /\
                 (head + get_queue_length t s) mod 256 = tail /\
                 get_queue_length t s' = get_queue_length t s + 1).
  { unfold get_queue_length. rewrite Hhead', Htail'.
    fold head. fold tail. unfold LEGION_QUEUE_SIZE.
    destruct (tail >=? head) eqn:Hge; rewrite Z.geb_leb in Hge;
      [apply Z.leb_le in Hge|apply Z.leb_gt in Hge];
      destruct ((tail + 1) mod 256 >=? head) eqn:Hge';
      rewrite Z.geb_leb in Hge';
      [apply Z.leb_le in Hge'|apply Z.leb_gt in Hge'
      |apply Z.leb_le in Hge'|apply Z.leb_gt in Hge'];
      revert Hroom Hge'; Z.div_mod_to_equations; lia. }
  destruct Hlen as (Hl1 & Hl2 & Hl3).
  split.
  - rewrite Hhead', Z2Nat.id by lia. unfold LEGION_QUEUE_SIZE.
    rewrite Z.rem_mod_nonneg by lia. rewrite Hl2. exact Hslot.
  - apply in_seq. rewrite Hl3. lia.
Qed.
End Push.

(** When the queue that [find_least_loaded_thread] picks has room,
    [runtime_legion_start] leaves the legion in that queue. *)
Lemma runtime_legion_start_enqueues l w s :
  g_scheduler w = Some s ->
  sched_wf s ->
  queue_full (find_least_loaded_thread s) s = false ->
  legion_queued l (runtime_legion_start (Some l) w) = true.
Proof.
  intros Hs Hwf Hroom.
  pose proof (find_least_loaded_thread_range s) as Hidx.
  destruct (push_to_local_queue_room (fetch_add_active 1 s)
              (find_least_loaded_thread s) (Some l) Hwf Hidx Hroom)
    as (s' & Hpush & Hin).
  unfold runtime_legion_start. rewrite Hs.
  change (find_least_loaded_thread (fetch_add_active 1 s))
    with (find_least_loaded_thread s).
  rewrite Hpush. change (1 =? 0) with false. cbv iota.
  unfold legion_queued. cbn [g_scheduler set_g_scheduler].
  apply existsb_exists.
  exists (find_least_loaded_thread s). split.
  - unfold MAX_OS_THREADS in Hidx. simpl.
    assert (find_least_loaded_thread s = 0 \/ find_least_loaded_thread s = 1
            \/ find_least_loaded_thread s = 2
            \/ find_least_loaded_thread s = 3) by lia.
    intuition.
  - apply existsb_exists. exists (Some l). split; [exact Hin|].
    simpl. apply Nat.eqb_refl.
Qed.

(** ** The run queues as FIFO queues *)

Lemma zlookup_zupdate_ne {A} (l : list A) (i j : Z) (x : A) :
  i <> j -> zlookup (zupdate l i x) j = zlookup l j.
Proof.
  intros Hne. unfold zlookup, zupdate.
  destruct (j <? 0) eqn:Hj; [reflexivity|].
  destruct (i <? 0) eqn:Hi; [reflexivity|].
  apply Z.ltb_ge in Hj, Hi.
  apply list_lookup_insert_ne. intros Heq. apply Hne.
  apply Z2Nat.inj; assumption.
Qed.

Lemma length_zupdate {A} (l : list A) (i : Z) (x : A) :
  length (zupdate l i x) = length l.
Proof. unfold zupdate. destruct (i <? 0); [reflexivity|apply length_insert]. Qed.

Lemma Forall_zupdate {A} (P : A -> Prop) (l : list A) (i : Z) (x : A) :
  Forall P l -> P x -> Forall P (zupdate l i x).
Proof.
  intros Hl Hx. unfold zupdate. destruct (i <? 0); [exact Hl|].
  now apply Forall_insert.
Qed.

Lemma sched_wf_store_head t v s :
  sched_wf s -> 0 <= v < LEGION_QUEUE_SIZE -> sched_wf (store_head t v s).
Proof.
  intros (H1 & H2 & H3 & H4 & H5 & H6) Hv.
  unfold sched_wf, store_head. simpl.
  rewrite length_zupdate. repeat split; try assumption.
  now apply Forall_zupdate.
Qed.

Lemma sched_wf_store_tail t v s :
  sched_wf s -> 0 <= v < LEGION_QUEUE_SIZE -> sched_wf (store_tail t v s).
Proof.
  intros (H1 & H2 & H3 & H4 & H5 & H6) Hv.
  unfold sched_wf, store_tail. simpl.
  rewrite length_zupdate. repeat split; try assumption.
  now apply Forall_zupdate.
Qed.

Lemma sched_wf_store_slot t i l s :
  sched_wf s -> 0 <= t < MAX_OS_THREADS -> sched_wf (store_slot t i l s).
Proof.
  intros (H1 & H2 & H3 & H4 & H5 & H6) Ht.
  unfold sched_wf, store_slot. simpl.
  rewrite length_zupdate. repeat split; try assumption.
  apply Forall_zupdate; [assumption|].
  rewrite length_zupdate.
  unfold MAX_OS_THREADS in Ht.
  destruct (zlookup_lt (s_run_queue s) t ltac:(lia)) as [q Hq].
  rewrite Hq. simpl. exact (zlookup_Forall _ _ _ _ H2 Hq).
Qed.

Lemma queue_slot_store_slot_eq t i l s :
  sched_wf s -> 0 <= t < MAX_OS_THREADS -> 0 <= i < LEGION_QUEUE_SIZE ->
  queue_slot (store_slot t i l s) t i = l.
Proof.
  intros (H1 & H2 & _) Ht Hi. unfold MAX_OS_THREADS, LEGION_QUEUE_SIZE in *.
  unfold queue_slot, store_slot. simpl.
  destruct (zlookup_lt (s_run_queue s) t ltac:(lia)) as [q Hq].
  rewrite zlookup_zupdate_eq by lia. simpl. rewrite Hq. simpl.
  pose proof (zlookup_Forall _ _ _ _ H2 Hq) as Hlen. simpl in Hlen.
  rewrite zlookup_zupdate_eq by lia. reflexivity.
Qed.

Lemma queue_slot_store_slot_ne t i j l s :
  sched_wf s -> 0 <= t < MAX_OS_THREADS -> i <> j ->
  queue_slot (store_slot t i l s) t j = queue_slot s t j.
Proof.
  intros (H1 & H2 & _) Ht Hne. unfold MAX_OS_THREADS in *.
  unfold queue_slot, store_slot. simpl.
  rewrite zlookup_zupdate_eq by lia. simpl.
  now rewrite zlookup_zupdate_ne.
Qed.

Lemma queue_slot_store_slot_other t t' i j l s :
  t <> t' ->
  queue_slot (store_slot t i l s) t' j = queue_slot s t' j.
Proof.
  intros Hne. unfold queue_slot, store_slot. simpl.
  now rewrite zlookup_zupdate_ne.
Qed.

Lemma queue_tail_of_store_tail_eq t v s :
  sched_wf s -> 0 <= t < MAX_OS_THREADS ->
  queue_tail_of (store_tail t v s) t = v.
Proof.
  intros (_ & _ & _ & H4 & _) Ht. unfold MAX_OS_THREADS in *.
  unfold queue_tail_of, store_tail. simpl.
  now rewrite zlookup_zupdate_eq by lia.
Qed.

Lemma queue_tail_of_store_tail_ne t t' v s :
  t <> t' -> queue_tail_of (store_tail t v s) t' = queue_tail_of s t'.
Proof.
  intros Hne. unfold queue_tail_of, store_tail. simpl.
  now rewrite zlookup_zupdate_ne.
Qed.

Lemma queue_head_of_store_head_eq t v s :
  sched_wf s -> 0 <= t < MAX_OS_THREADS ->
  queue_head_of (store_head t v s) t = v.
Proof.
  intros (_ & _ & H3 & _) Ht. unfold MAX_OS_THREADS in *.
  unfold queue_head_of, store_head. simpl.
  now rewrite zlookup_zupdate_eq by lia.
Qed.

Lemma queue_head_of_store_head_ne t t' v s :
  t <> t' -> queue_head_of (store_head t v s) t' = queue_head_of s t'.
Proof.
  intros Hne. unfold queue_head_of, store_head. simpl.
  now rewrite zlookup_zupdate_ne.
Qed.

(** The contents of a queue depend on its [head], its [tail] and its slots
    only. *)
Lemma queue_contents_ext t s s' :
  queue_head_of s' t = queue_head_of s t ->
  queue_tail_of s' t = queue_tail_of s t ->
  (forall j, queue_slot s' t j = queue_slot s t j) ->
  queue_contents t s' = queue_contents t s.
Proof.
  intros Hh Ht Hs. unfold queue_contents, get_queue_length.
  rewrite Hh, Ht. apply map_ext. intros k. apply Hs.
Qed.

Lemma length_queue_contents t s :
  length (queue_contents t s) = Z.to_nat (get_queue_length t s).
Proof. unfold queue_contents. now rewrite length_map, length_seq. Qed.

Section Queue.
Context (s : Scheduler) (t : Z).
Hypothesis Hwf : sched_wf s.
Hypothesis Ht : 0 <= t < MAX_OS_THREADS.

Lemma get_queue_length_mod :
  get_queue_length t s = (queue_tail_of s t - queue_head_of s t) mod 256.
Proof.
  pose proof (queue_head_range s t Hwf Ht) as Hh.
  pose proof (queue_tail_range s t Hwf Ht) as Htl.
  unfold get_queue_length, LEGION_QUEUE_SIZE in *.
  destruct (queue_tail_of s t >=? queue_head_of s t) eqn:Hge;
    rewrite Z.geb_leb in Hge;
    [apply Z.leb_le in Hge|apply Z.leb_gt in Hge];
    Z.div_mod_to_equations; lia.
Qed.

Lemma queue_full_length :
  queue_full t s = true <-> get_queue_length t s = 255.
Proof.
  pose proof (queue_head_range s t Hwf Ht) as Hh.
  pose proof (queue_tail_range s t Hwf Ht) as Htl.
  rewrite get_queue_length_mod. unfold queue_full, LEGION_QUEUE_SIZE in *.
  rewrite Z.rem_mod_nonneg by lia. rewrite Z.eqb_eq.
  split; intros H; revert H; Z.div_mod_to_equations; lia.
Qed.

(** A push into a queue with room appends the legion and leaves the other
    queues alone. *)
Lemma push_appends l :
  queue_full t s = false ->
  exists s',
    push_to_local_queue t l s = (s', 1) /\
    sched_wf s' /\
    queue_contents t s' = queue_contents t s ++ [l] /\
    (forall t', t' <> t -> queue_contents t' s' = queue_contents t' s) /\
    s_active_legions s' = s_active_legions s /\
    s_current_legion s' = s_current_legion s.
Proof.
  intros Hroom.
  pose proof (queue_head_range s t Hwf Ht) as Hh.
  pose proof (queue_tail_range s t Hwf Ht) as Htl.
  pose proof get_queue_length_mod as Hlen.
  unfold queue_full in Hroom.
  unfold push_to_local_queue. rewrite Hroom.
  unfold LEGION_QUEUE_SIZE in *.
  rewrite Z.rem_mod_nonneg in * by lia. apply Z.eqb_neq in Hroom.
  set (tail := queue_tail_of s t) in *.
  set (head := queue_head_of s t) in *.
  set (s1 := store_slot t tail l s).
  set (s' := store_tail t ((tail + 1) mod 256) s1).
  assert (Hwf1 : sched_wf s1) by now apply sched_wf_store_slot.
  assert (Hwf' : sched_wf s').
  { apply sched_wf_store_tail; [exact Hwf1|].
    unfold LEGION_QUEUE_SIZE. apply Z.mod_pos_bound. lia. }
  assert (Hhead' : queue_head_of s' t = head) by reflexivity.
  assert (Htail' : queue_tail_of s' t = (tail + 1) mod 256).
  { apply queue_tail_of_store_tail_eq; assumption. }
  assert (Hlen' : get_queue_length t s' = get_queue_length t s + 1).
  { unfold get_queue_length at 1. rewrite Hhead', Htail'.
    rewrite Hlen. unfold LEGION_QUEUE_SIZE.
    destruct ((tail + 1) mod 256 >=? head) eqn:Hge;
      rewrite Z.geb_leb in Hge;
      [apply Z.leb_le in Hge|apply Z.leb_gt in Hge];
      revert Hroom Hge; Z.div_mod_to_equations; lia. }
  exists s'. split; [reflexivity|]. split; [exact Hwf'|].
  split; [|split; [|split; reflexivity]].
  - unfold queue_contents. rewrite Hlen', Hhead'.
    replace (Z.to_nat (get_queue_length t s + 1))
      with (S (Z.to_nat (get_queue_length t s)))
      by (rewrite Hlen; Z.div_mod_to_equations; lia).
    rewrite seq_S, map_app. simpl. f_equal.
    + apply map_ext_in. intros k Hk. apply in_seq in Hk.
      fold head. unfold LEGION_QUEUE_SIZE.
      change (queue_slot s' t (Z.rem (head + Z.of_nat k) 256))
        with (queue_slot s1 t (Z.rem (head + Z.of_nat k) 256)).
      apply queue_slot_store_slot_ne; try assumption.
      rewrite Z.rem_mod_nonneg by lia.
      rewrite Hlen in Hk. revert Hk. Z.div_mod_to_equations. lia.
    + f_equal. unfold LEGION_QUEUE_SIZE.
      rewrite Z.rem_mod_nonneg by (rewrite ?Hlen; Z.div_mod_to_equations; lia).
      replace ((head + Z.of_nat (Z.to_nat (get_queue_length t s))) mod 256)
        with tail
        by (rewrite Hlen; Z.div_mod_to_equations; lia).
      change (queue_slot s' t tail) with (queue_slot s1 t tail).
      apply queue_slot_store_slot_eq; assumption.
  - intros t' Hne. apply queue_contents_ext.
    + reflexivity.
    + unfold s'. rewrite queue_tail_of_store_tail_ne by congruence.
      reflexivity.
    + intros j.
      change (queue_slot s' t' j) with (queue_slot s1 t' j).
      apply queue_slot_store_slot_other. congruence.
Qed.

(** A pop from a non-empty queue returns the oldest entry and leaves the
    rest, and the other queues alone. *)
Lemma pop_takes_oldest x rest :
  queue_contents t s = x :: rest ->
  exists s',
    pop_from_local_queue t s = (s', x) /\
    sched_wf s' /\
    queue_contents t s' = rest /\
    (forall t', t' <> t -> queue_contents t' s' = queue_contents t' s) /\
    s_active_legions s' = s_active_legions s /\
    s_current_legion s' = s_current_legion s.
Proof.
  intros Hq.
  pose proof (queue_head_range s t Hwf Ht) as Hh.
  pose proof (queue_tail_range s t Hwf Ht) as Htl.
  pose proof get_queue_length_mod as Hlen.
  pose proof (length_queue_contents t s) as Hl. rewrite Hq in Hl.
  simpl in Hl.
  unfold LEGION_QUEUE_SIZE in *.
  assert (Hne : queue_head_of s t <> queue_tail_of s t).
  { intros Heq. rewrite Hlen, Heq, Z.sub_diag, Z.mod_0_l in Hl by lia.
    simpl in Hl. lia. }
  unfold pop_from_local_queue.
  replace (queue_head_of s t =? queue_tail_of s t) with false
    by (symmetry; now apply Z.eqb_neq).
  unfold LEGION_QUEUE_SIZE. rewrite Z.rem_mod_nonneg by lia.
  set (tail := queue_tail_of s t) in *.
  set (head := queue_head_of s t) in *.
  set (s' := store_head t ((head + 1) mod 256) s).
  assert (Hwf' : sched_wf s').
  { apply sched_wf_store_head; [exact Hwf|].
    unfold LEGION_QUEUE_SIZE. apply Z.mod_pos_bound. lia. }
  assert (Hhead' : queue_head_of s' t = (head + 1) mod 256).
  { apply queue_head_of_store_head_eq; assumption. }
  assert (Htail' : queue_tail_of s' t = tail) by reflexivity.
  assert (Hlen' : get_queue_length t s = get_queue_length t s' + 1 /\
                  0 <= get_queue_length t s').
  { unfold get_queue_length at 2 3. rewrite Hhead', Htail'.
    rewrite Hlen. unfold LEGION_QUEUE_SIZE.
    destruct (tail >=? (head + 1) mod 256) eqn:Hge;
      rewrite Z.geb_leb in Hge;
      [apply Z.leb_le in Hge|apply Z.leb_gt in Hge];
      revert Hge; Z.div_mod_to_equations; lia. }
  destruct Hlen' as [Hlen' Hpos].
  unfold queue_contents in Hq. fold head in Hq.
  replace (Z.to_nat (get_queue_length t s))
    with (S (Z.to_nat (get_queue_length t s'))) in Hq by lia.
  simpl seq in Hq. rewrite <- seq_shift, map_cons, map_map in Hq.
  injection Hq as Hx Hrest.
  exists s'. split; [|split; [exact Hwf'|split; [|split; [|split; reflexivity]]]].
  - f_equal. rewrite <- Hx. unfold LEGION_QUEUE_SIZE.
    rewrite Z.add_0_r, Z.rem_mod_nonneg, Z.mod_small by lia. reflexivity.
  - rewrite <- Hrest. unfold queue_contents. rewrite Hhead'.
    apply map_ext. intros k. unfold LEGION_QUEUE_SIZE.
    change (queue_slot s' t) with (queue_slot s t).
    f_equal.
    rewrite !Z.rem_mod_nonneg
      by (try apply Z.add_nonneg_nonneg; try apply Z.mod_pos_bound; lia).
    rewrite Zplus_mod_idemp_l. f_equal. lia.
  - intros t' Hne'. apply queue_contents_ext.
    + unfold s'. rewrite queue_head_of_store_head_ne by congruence.
      reflexivity.
    + reflexivity.
    + reflexivity.
Qed.

Lemma pop_empty :
  queue_contents t s = [] ->
  pop_from_local_queue t s = (s, None).
Proof.
  intros Hq.
  pose proof (queue_head_range s t Hwf Ht) as Hh.
  pose proof (queue_tail_range s t Hwf Ht) as Htl.
  pose proof get_queue_length_mod as Hlen.
  pose proof (length_queue_contents t s) as Hl. rewrite Hq in Hl.
  simpl in Hl. unfold LEGION_QUEUE_SIZE in *.
  assert (Heq : queue_head_of s t = queue_tail_of s t).
  { rewrite Hlen in Hl.
    pose proof (Z.mod_pos_bound (queue_tail_of s t - queue_head_of s t) 256
                  ltac:(lia)) as Hb.
    assert (H0 : (queue_tail_of s t - queue_head_of s t) mod 256 = 0) by lia.
    revert H0. Z.div_mod_to_equations. lia. }
  unfold pop_from_local_queue. rewrite Heq, Z.eqb_refl. reflexivity.
Qed.
End Queue.

(** Run without interference, a steal is the owner's pop. *)
Lemma steal_is_pop t s :
  steal_from_queue t s = pop_from_local_queue t s.
Proof.
  unfold steal_from_queue, pop_from_local_queue, compare_exchange.
  destruct (queue_head_of s t =? queue_tail_of s t); [reflexivity|].
  rewrite Z.eqb_refl. reflexivity.
Qed.

(** ** More on the run queues and the scheduler *)

(** X1: a push into a queue that is not full succeeds, puts the legion
    behind the entries already queued and leaves the other queues, the
    counter of active legions and the current legions as they were. *)
Theorem push_to_local_queue_appends :
  forall (s : Scheduler) (t : Z) (l : option nat),
    sched_wf s ->
    0 <= t < MAX_OS_THREADS ->
    queue_full t s = false ->
    exists s',
      push_to_local_queue t l s = (s', 1) /\
      sched_wf s' /\
      queue_contents t s' = queue_contents t s ++ [l] /\
      (forall t', t' <> t -> queue_contents t' s' = queue_contents t' s) /\
      s_active_legions s' = s_active_legions s /\
      s_current_legion s' = s_current_legion s.
Proof. intros s t l Hwf Ht Hroom. now apply push_appends. Qed.

(** X2: a ring of 256 slots takes 255 legions: a queue is full exactly when
    it holds 255 entries, and a push into a full queue returns 0 and changes
    nothing. *)
Theorem push_to_local_queue_full :
  forall (s : Scheduler) (t : Z) (l : option nat),
    sched_wf s ->
    0 <= t < MAX_OS_THREADS ->
    (length (queue_contents t s) <= 255)%nat /\
    (queue_full t s = true <-> length (queue_contents t s) = 255%nat) /\
    (queue_full t s = true -> push_to_local_queue t l s = (s, 0)).
Proof.
  intros s t l Hwf Ht.
  pose proof (queue_full_length s t Hwf Ht) as Hfull.
  pose proof (get_queue_length_mod s t Hwf Ht) as Hlen.
  pose proof (Z.mod_pos_bound (queue_tail_of s t - queue_head_of s t) 256
                ltac:(lia)) as Hb.
  rewrite length_queue_contents.
  split; [lia|]. split.
  - rewrite Hfull. lia.
  - intros Hf. unfold push_to_local_queue. unfold queue_full in Hf.
    now rewrite Hf.
Qed.

(** X3: a pop returns the oldest entry of the queue and leaves the rest in
    order; on an empty queue it returns NULL and changes nothing. *)
Theorem pop_from_local_queue_fifo :
  forall (s : Scheduler) (t : Z),
    sched_wf s ->
    0 <= t < MAX_OS_THREADS ->
    match queue_contents t s with
    | [] => pop_from_local_queue t s = (s, None)
    | x :: rest =>
        exists s',
          pop_from_local_queue t s = (s', x) /\
          sched_wf s' /\
          queue_contents t s' = rest /\
          (forall t', t' <> t -> queue_contents t' s' = queue_contents t' s)
    end.
Proof.
  intros s t Hwf Ht.
  destruct (queue_contents t s) as [|x rest] eqn:Hq.
  - now apply pop_empty.
  - destruct (pop_takes_oldest s t Hwf Ht x rest Hq)
      as (s' & H1 & H2 & H3 & H4 & _).
    exists s'. auto.
Qed.

(** X4: run without interference, [steal_from_queue] does what the owner's
    [pop_from_local_queue] does: a thief takes the oldest legion of the
    victim, and an empty victim gives NULL. *)
Theorem steal_from_queue_is_pop :
  forall (s : Scheduler) (victim : Z),
    steal_from_queue victim s = pop_from_local_queue victim s.
Proof. intros s victim. apply steal_is_pop. Qed.

(** X5: [find_least_loaded_thread] returns a worker whose queue is no longer
    than any other, and among the shortest queues the one with the lowest
    index. *)
Theorem find_least_loaded_thread_minimal :
  forall (s : Scheduler) (t : Z),
    0 <= t < MAX_OS_THREADS ->
    let best := find_least_loaded_thread s in
    0 <= best < MAX_OS_THREADS /\
    get_queue_length best s <= get_queue_length t s /\
    (get_queue_length t s = get_queue_length best s -> best <= t).
Proof.
  intros s t Ht best. subst best.
  unfold find_least_loaded_thread, least_loaded_scan, MAX_OS_THREADS in *.
  assert (Hcases : t = 0 \/ t = 1 \/ t = 2 \/ t = 3) by lia.
  repeat match goal with
         | |- context [if ?a <? ?b then _ else _] =>
             let H := fresh "Hlt" in
             destruct (a <? b) eqn:H;
             [apply Z.ltb_lt in H|apply Z.ltb_ge in H]
         end;
    destruct Hcases as [-> | [-> | [-> | ->]]]; lia.
Qed.

Lemma steal_empty s v :
  sched_wf s -> 0 <= v < MAX_OS_THREADS ->
  queue_contents v s = [] ->
  steal_from_queue v s = (s, None).
Proof. intros Hwf Hv Hq. rewrite steal_is_pop. now apply pop_empty. Qed.

Lemma victim_range t k :
  0 <= t -> 0 <= k ->
  0 <= Z.rem (t + k + 1) MAX_OS_THREADS < MAX_OS_THREADS.
Proof.
  intros Ht Hk. unfold MAX_OS_THREADS.
  rewrite Z.rem_mod_nonneg by lia. apply Z.mod_pos_bound. lia.
Qed.

(** X6: a worker looking for work takes the oldest legion of the first
    non-empty queue in the order own queue, then the queues of the next
    three workers, and leaves every other queue alone; when all four queues
    are empty it finds nothing and changes nothing. *)
Theorem find_work_takes_first_nonempty :
  forall (s : Scheduler) (t : Z),
    sched_wf s ->
    0 <= t < MAX_OS_THREADS ->
    (Forall (fun u => queue_contents u s = []) (search_order t) ->
     find_work t s = (s, None)) /\
    (forall pre u post l rest,
       search_order t = pre ++ u :: post ->
       Forall (fun v => queue_contents v s = []) pre ->
       queue_contents u s = Some l :: rest ->
       exists s',
         find_work t s = (s', Some l) /\
         sched_wf s' /\
         queue_contents u s' = rest /\
         (forall v, v <> u -> queue_contents v s' = queue_contents v s)).
Proof.
  intros s t Hwf Ht.
  assert (Hv1 := victim_range t 0 ltac:(lia) ltac:(lia)).
  assert (Hv2 := victim_range t 1 ltac:(lia) ltac:(lia)).
  assert (Hv3 := victim_range t 2 ltac:(lia) ltac:(lia)).
  assert (Hhit : forall u l rest,
             0 <= u < MAX_OS_THREADS ->
             queue_contents u s = Some l :: rest ->
             exists s',
               steal_from_queue u s = (s', Some l) /\
               sched_wf s' /\
               queue_contents u s' = rest /\
               (forall v, v <> u ->
                          queue_contents v s' = queue_contents v s)).
  { intros u l rest Hu Hq. rewrite steal_is_pop.
    destruct (pop_takes_oldest s u Hwf Hu _ _ Hq)
      as (s' & H1 & H2 & H3 & H4 & _).
    exists s'. auto. }
  split.
  - intros Hall. unfold search_order in Hall.
    apply Forall_cons in Hall as [H0 Hall].
    apply Forall_cons in Hall as [H1 Hall].
    apply Forall_cons in Hall as [H2 Hall].
    apply Forall_cons in Hall as [H3 _].
    unfold find_work. rewrite (pop_empty s t Hwf Ht H0).
    cbn [steal_rotation].
    rewrite (steal_empty s _ Hwf Hv1 H1).
    rewrite (steal_empty s _ Hwf Hv2 H2).
    rewrite (steal_empty s _ Hwf Hv3 H3). reflexivity.
  - intros pre u post l rest Horder Hpre Hq. unfold search_order in Horder.
    unfold find_work.
    destruct pre as [|p0 pre].
    { injection Horder as <- _. rewrite <- steal_is_pop.
      destruct (Hhit t l rest Ht Hq) as (s' & -> & Hrest). exists s'. auto. }
    injection Horder as <- Horder.
    apply Forall_cons in Hpre as [H0 Hpre].
    rewrite (pop_empty s t Hwf Ht H0). cbn [steal_rotation].
    destruct pre as [|p1 pre].
    { injection Horder as <- _.
      destruct (Hhit _ l rest Hv1 Hq) as (s' & -> & Hrest). exists s'. auto. }
    injection Horder as <- Horder.
    apply Forall_cons in Hpre as [H1 Hpre].
    rewrite (steal_empty s _ Hwf Hv1 H1).
    destruct pre as [|p2 pre].
    { injection Horder as <- _.
      destruct (Hhit _ l rest Hv2 Hq) as (s' & -> & Hrest). exists s'. auto. }
    injection Horder as <- Horder.
    apply Forall_cons in Hpre as [H2 Hpre].
    rewrite (steal_empty s _ Hwf Hv2 H2).
    destruct pre as [|p3 pre].
    { injection Horder as <- _.
      destruct (Hhit _ l rest Hv3 Hq) as (s' & -> & Hrest). exists s'. auto. }
    injection Horder as _ Horder. destruct pre; discriminate.
Qed.

(** What [runtime_legion_start] does when the chosen queue has room. *)
Lemma legion_start_with_room :
  forall (w : World) (s : Scheduler) (l : nat),
    g_scheduler w = Some s ->
    sched_wf s ->
    queue_full (find_least_loaded_thread s) s = false ->
    exists s',
      runtime_legion_start (Some l) w = set_g_scheduler (Some s') w /\
      sched_wf s' /\
      queue_contents (find_least_loaded_thread s) s'
      = queue_contents (find_least_loaded_thread s) s ++ [Some l] /\
      (forall t, t <> find_least_loaded_thread s ->
                 queue_contents t s' = queue_contents t s) /\
      s_active_legions s' = wrap_int (s_active_legions s + 1).
Proof.
  intros w s l Hs Hwf Hroom.
  pose proof (find_least_loaded_thread_range s) as Hidx.
  destruct (push_appends (fetch_add_active 1 s)
              (find_least_loaded_thread s) Hwf Hidx (Some l) Hroom)
    as (s' & Hpush & Hwf' & Hq & Hothers & Hact & _).
  unfold runtime_legion_start. rewrite Hs.
  change (find_least_loaded_thread (fetch_add_active 1 s))
    with (find_least_loaded_thread s).
  rewrite Hpush. change (1 =? 0) with false. cbv iota.
  exists s'. split; [reflexivity|]. split; [exact Hwf'|].
  split; [exact Hq|]. split; [exact Hothers|exact Hact].
Qed.

(** X7: when the queue of the least-loaded worker has room,
    [runtime_legion_start] puts the legion behind the entries of that queue,
    counts it in [active_legions] and touches no other queue, no legion and
    no channel. *)
Theorem runtime_legion_start_appends :
  forall (w : World) (s : Scheduler) (l : nat),
    g_scheduler w = Some s ->
    sched_wf s ->
    queue_full (find_least_loaded_thread s) s = false ->
    exists s',
      runtime_legion_start (Some l) w = set_g_scheduler (Some s') w /\
      sched_wf s' /\
      queue_contents (find_least_loaded_thread s) s'
      = queue_contents (find_least_loaded_thread s) s ++ [Some l] /\
      (forall t, t <> find_least_loaded_thread s ->
                 queue_contents t s' = queue_contents t s) /\
      s_active_legions s' = wrap_int (s_active_legions s + 1).
Proof.
  intros w s l Hs Hwf Hroom.
  exact (legion_start_with_room w s l Hs Hwf Hroom).
Qed.

(** ** Yield, block, unblock and dispatch *)

Lemma zlookup_Some_range {A} (l : list A) (i : Z) (x : A) :
  zlookup l i = Some x -> 0 <= i < Z.of_nat (length l).
Proof.
  unfold zlookup. destruct (i <? 0) eqn:Hi; [discriminate|].
  apply Z.ltb_ge in Hi. intros H. apply lookup_lt_Some in H. lia.
Qed.

Lemma current_legion_cleared tls s w :
  g_scheduler w = Some (clear_current (get_thread_id tls) s) ->
  runtime_get_current_legion tls w = None.
Proof.
  intros Hs. unfold runtime_get_current_legion. rewrite Hs.
  destruct (_ || _) eqn:Hr; [reflexivity|].
  apply orb_false_iff in Hr as [Hlo Hhi]. apply Z.ltb_ge in Hlo.
  unfold clear_current. simpl.
  destruct (zlookup (s_current_legion s) (get_thread_id tls)) as [x|] eqn:Hx.
  - apply zlookup_Some_range in Hx.
    now rewrite zlookup_zupdate_eq.
  - unfold zlookup, zupdate in *.
    destruct (get_thread_id tls <? 0); [reflexivity|].
    apply lookup_ge_None in Hx.
    rewrite list_insert_ge by exact Hx.
    now rewrite (lookup_ge_None_2 _ _ Hx).
Qed.

Lemma current_legion_Some tls w l :
  runtime_get_current_legion tls w = Some l ->
  exists s,
    g_scheduler w = Some s /\
    0 <= get_thread_id tls < MAX_OS_THREADS /\
    zlookup (s_current_legion s) (get_thread_id tls) = Some (Some l).
Proof.
  unfold runtime_get_current_legion.
  destruct (g_scheduler w) as [s|]; [|discriminate].
  destruct (_ || _) eqn:Hr; [discriminate|].
  apply orb_false_iff in Hr as [Hlo Hhi]. apply Z.ltb_ge in Hlo.
  rewrite Z.geb_leb in Hhi. apply Z.leb_gt in Hhi.
  destruct (zlookup _ _) as [x|] eqn:Hx; [|discriminate].
  simpl. intros ->. exists s. split; [reflexivity|].
  split; [lia|exact Hx].
Qed.

(** A yield by the legion that [runtime_get_current_legion] finds for the
    calling thread. *)
Lemma yield_requeues_current :
  forall (tls : Z) (w : World) (s : Scheduler) (l : nat) (L : Legion),
    g_scheduler w = Some s ->
    sched_wf s ->
    runtime_get_current_legion tls w = Some l ->
    legions w !! l = Some L ->
    queue_full (get_thread_id tls) s = false ->
    exists s' L',
      g_scheduler (runtime_legion_yield tls w) = Some s' /\
      queue_contents (get_thread_id tls) s'
      = queue_contents (get_thread_id tls) s ++ [Some l] /\
      (forall t, t <> get_thread_id tls ->
                 queue_contents t s' = queue_contents t s) /\
      s_active_legions s' = s_active_legions s /\
      legions (runtime_legion_yield tls w) !! l = Some L' /\
      l_state L' = LEGION_STATE_RUNNABLE /\
      l_thread_id L' = -1 /\
      runtime_get_current_legion tls (runtime_legion_yield tls w) = None /\
      channels (runtime_legion_yield tls w) = channels w.
Proof.
  intros tls w s l L Hs Hwf Hcur HL Hroom.
  destruct (current_legion_Some tls w l Hcur) as (s0 & Hs0 & Hrange & Hslot).
  rewrite Hs in Hs0. injection Hs0 as <-.
  destruct (push_appends s (get_thread_id tls) Hwf Hrange (Some l) Hroom)
    as (s1 & Hpush & Hwf1 & Hq & Hothers & Hact & Hcurr).
  assert (Hy : runtime_legion_yield tls w
               = update_legion l (set_l_thread_id (-1))
                   (set_g_scheduler
                      (Some (clear_current (get_thread_id tls) s1))
                      (update_legion l (set_l_state LEGION_STATE_RUNNABLE)
                         w))).
  { unfold runtime_legion_yield. rewrite Hs.
    replace ((get_thread_id tls <? 0)
             || (get_thread_id tls >=? MAX_OS_THREADS)) with false.
    2:{ symmetry. apply orb_false_iff. split.
        - apply Z.ltb_ge. lia.
        - rewrite Z.geb_leb. apply Z.leb_gt. lia. }
    rewrite Hslot. cbn [default from_option id]. rewrite Hpush.
    change (1 =? 0) with false. reflexivity. }
  rewrite Hy.
  exists (clear_current (get_thread_id tls) s1),
         (set_l_thread_id (-1) (set_l_state LEGION_STATE_RUNNABLE L)).
  split; [reflexivity|]. split; [exact Hq|]. split; [exact Hothers|].
  split; [exact Hact|]. split.
  { apply lookup_update_legion_eq.
    cbn [set_g_scheduler legions].
    apply lookup_update_legion_eq. exact HL. }
  split; [reflexivity|]. split; [reflexivity|]. split; [|reflexivity].
  apply (current_legion_cleared tls s1). reflexivity.
Qed.


(** X8: [runtime_legion_yield] called on the thread of worker [t] while
    legion [l] is the current legion of that worker and the worker's queue
    has room.  On the workers 1, 2 and 3 the yield makes the legion
    RUNNABLE, puts it behind the entries of the worker's queue and frees the
    worker: the worker has no current legion afterwards and the legion's
    thread_id is -1.  On worker 0 the thread-local slot holds the id 0 as a
    null pointer, [get_thread_id] reads it as -1 and the yield returns at
    its first test: nothing changes, so the legion stays RUNNING as the
    current legion of worker 0 and goes on no queue. *)
Theorem runtime_legion_yield_requeues :
  forall (t : Z) (w : World) (s : Scheduler) (l : nat) (L : Legion),
    g_scheduler w = Some s ->
    sched_wf s ->
    0 <= t < MAX_OS_THREADS ->
    zlookup (s_current_legion s) t = Some (Some l) ->
    legions w !! l = Some L ->
    queue_full t s = false ->
    (0 < t ->
     exists s' L',
       g_scheduler (runtime_legion_yield (set_thread_id t) w) = Some s' /\
       queue_contents t s' = queue_contents t s ++ [Some l] /\
       (forall u, u <> t -> queue_contents u s' = queue_contents u s) /\
       s_active_legions s' = s_active_legions s /\
       legions (runtime_legion_yield (set_thread_id t) w) !! l = Some L' /\
       l_state L' = LEGION_STATE_RUNNABLE /\
       l_thread_id L' = -1 /\
       runtime_get_current_legion (set_thread_id t)
         (runtime_legion_yield (set_thread_id t) w) = None /\
       channels (runtime_legion_yield (set_thread_id t) w) = channels w) /\
    (t = 0 ->
     runtime_get_current_legion (set_thread_id t) w = None /\
     runtime_legion_yield (set_thread_id t) w = w).
Proof.
  intros t w s l L Hs Hwf Ht Hslot HL Hroom. split.
  - intros Hpos.
    assert (Hid : get_thread_id (set_thread_id t) = t).
    { unfold get_thread_id, set_thread_id.
      replace (t =? 0) with false by (symmetry; apply Z.eqb_neq; lia).
      reflexivity. }
    assert (Hcur : runtime_get_current_legion (set_thread_id t) w = Some l).
    { unfold runtime_get_current_legion. rewrite Hs, Hid.
      replace ((t <? 0) || (t >=? MAX_OS_THREADS)) with false.
      2:{ symmetry. apply orb_false_iff. split.
          - apply Z.ltb_ge. lia.
          - rewrite Z.geb_leb. apply Z.leb_gt. lia. }
      rewrite Hslot. reflexivity. }
    rewrite <- Hid in Hroom.
    destruct (yield_requeues_current (set_thread_id t) w s l L
                Hs Hwf Hcur HL Hroom)
      as (s' & L' & H1 & H2 & H3 & H4 & H5 & H6 & H7 & H8 & H9).
    rewrite Hid in H2, H3.
    exists s', L'. auto 10.
  - intros ->. split.
    + unfold runtime_get_current_legion. rewrite Hs. reflexivity.
    + unfold runtime_legion_yield. rewrite Hs. reflexivity.
Qed.

(** X9: under a scheduler, a yield outside a legion does nothing, and a
    legion that has just been blocked by its own thread is outside: the
    yield that follows [runtime_legion_block] in send and recv changes
    nothing, so the blocked legion is not put back on a run queue.  With no
    scheduler both functions dereference the null [g_scheduler] in their
    first call of [get_thread_id]. *)
Theorem runtime_legion_yield_outside_legion :
  forall (tls : Z) (w : World) (l : nat) (ch : option nat),
    (g_scheduler w <> None ->
     (runtime_get_current_legion tls w = None ->
      runtime_legion_yield tls w = w) /\
     runtime_get_current_legion tls
       (runtime_legion_block tls (Some l) ch w) = None /\
     runtime_legion_yield tls (runtime_legion_block tls (Some l) ch w)
     = runtime_legion_block tls (Some l) ch w) /\
    (g_scheduler w = None ->
     fault (runtime_legion_yield tls w) = true /\
     fault (runtime_legion_block tls (Some l) ch w) = true /\
     legions (runtime_legion_block tls (Some l) ch w) = legions w).
Proof.
  intros tls w l ch. split.
  - intros Hsched.
    destruct (g_scheduler w) as [s|] eqn:Hs; [clear Hsched|contradiction].
    assert (Hout : forall w0,
              g_scheduler w0 <> None ->
              runtime_get_current_legion tls w0 = None ->
              runtime_legion_yield tls w0 = w0).
    { intros w0 Hw0.
      unfold runtime_get_current_legion, runtime_legion_yield.
      destruct (g_scheduler w0) as [s0|]; [|contradiction].
      destruct (_ || _); [reflexivity|].
      intros ->. reflexivity. }
    assert (Hafter : exists s1,
              g_scheduler (runtime_legion_block tls (Some l) ch w) = Some s1 /\
              (0 <= get_thread_id tls < MAX_OS_THREADS ->
               s1 = clear_current (get_thread_id tls)
                      (fetch_add_active (-1) s))).
    { unfold runtime_legion_block. rewrite Hs.
      destruct ((get_thread_id tls >=? 0)
                && (get_thread_id tls <? MAX_OS_THREADS)) eqn:Hr.
      - eexists. split.
        + rewrite g_scheduler_with_scheduler.
          cbn [update_legion set_legions g_scheduler].
          rewrite g_scheduler_with_scheduler, Hs. reflexivity.
        + intros _. reflexivity.
      - eexists. split.
        + rewrite g_scheduler_with_scheduler.
          cbn [update_legion set_legions g_scheduler].
          rewrite Hs. reflexivity.
        + intros Hrange. exfalso.
          apply andb_false_iff in Hr as [Hr|Hr].
          * rewrite Z.geb_leb in Hr. apply Z.leb_gt in Hr. lia.
          * apply Z.ltb_ge in Hr. lia. }
    destruct Hafter as (s1 & Hs1 & Hclear).
    assert (Hblk : runtime_get_current_legion tls
                     (runtime_legion_block tls (Some l) ch w) = None).
    { destruct ((get_thread_id tls <? 0)
                || (get_thread_id tls >=? MAX_OS_THREADS)) eqn:Hr.
      - unfold runtime_get_current_legion. rewrite Hs1, Hr. reflexivity.
      - apply orb_false_iff in Hr as [Hlo Hhi]. apply Z.ltb_ge in Hlo.
        rewrite Z.geb_leb in Hhi. apply Z.leb_gt in Hhi.
        apply (current_legion_cleared tls (fetch_add_active (-1) s)).
        rewrite Hs1, Hclear by lia. reflexivity. }
    split; [apply Hout; congruence|]. split; [exact Hblk|].
    apply Hout; [congruence|exact Hblk].
  - intros Hs. unfold runtime_legion_yield, runtime_legion_block.
    rewrite Hs. repeat split.
Qed.

(** X10: [runtime_legion_block] marks the legion BLOCKED on the channel,
    keeps its [next] link, counts it out of [active_legions] and changes no
    run queue, no channel and no other legion. *)
Theorem runtime_legion_block_effect :
  forall (tls : Z) (w : World) (s : Scheduler) (l : nat) (L : Legion)
         (ch : option nat),
    g_scheduler w = Some s ->
    legions w !! l = Some L ->
    exists s' L',
      g_scheduler (runtime_legion_block tls (Some l) ch w) = Some s' /\
      legions (runtime_legion_block tls (Some l) ch w) !! l = Some L' /\
      l_state L' = LEGION_STATE_BLOCKED /\
      l_blocked_on L' = ch /\
      l_next L' = l_next L /\
      s_active_legions s' = wrap_int (s_active_legions s - 1) /\
      (forall t, queue_contents t s' = queue_contents t s) /\
      channels (runtime_legion_block tls (Some l) ch w) = channels w /\
      (forall l', l <> l' ->
         legions (runtime_legion_block tls (Some l) ch w) !! l'
         = legions w !! l').
Proof.
  intros tls w s l L ch Hs HL.
  assert (Hsome : g_scheduler w <> None) by congruence.
  destruct (block_lookup_eq tls l ch w L Hsome HL)
    as (L' & HL' & Hn & Hst & Hbo).
  assert (Hsched : exists s',
             g_scheduler (runtime_legion_block tls (Some l) ch w) = Some s' /\
             s_active_legions s' = wrap_int (s_active_legions s - 1) /\
             (forall t, queue_contents t s' = queue_contents t s)).
  { unfold runtime_legion_block. rewrite Hs.
    destruct (_ && _); unfold with_scheduler, update_legion; simpl;
      rewrite Hs; simpl; eexists; (split; [reflexivity|]);
      split; reflexivity. }
  destruct Hsched as (s' & Hs' & Hact & Hq).
  exists s', L'. split; [exact Hs'|]. split; [exact HL'|].
  split; [exact Hst|]. split; [exact Hbo|]. split; [exact Hn|].
  split; [exact Hact|]. split; [exact Hq|].
  split; [apply channels_runtime_legion_block|].
  intros l' Hne. now apply block_lookup_ne.
Qed.

(** X11: unblocking a BLOCKED legion makes it RUNNABLE, clears [blocked_on]
    and submits it: with room in the least-loaded queue the legion is put
    behind the entries of that queue.  [active_legions] is incremented twice,
    once by the unblock and once by the submission.  Both unblock functions
    do the same. *)
Theorem runtime_legion_unblock_requeues :
  forall (w : World) (s : Scheduler) (l : nat) (L : Legion),
    g_scheduler w = Some s ->
    sched_wf s ->
    legions w !! l = Some L ->
    l_state L = LEGION_STATE_BLOCKED ->
    queue_full (find_least_loaded_thread s) s = false ->
    exists s' L',
      g_scheduler (runtime_legion_unblock (Some l) w) = Some s' /\
      legions (runtime_legion_unblock (Some l) w) !! l = Some L' /\
      l_state L' = LEGION_STATE_RUNNABLE /\
      l_blocked_on L' = None /\
      l_next L' = l_next L /\
      queue_contents (find_least_loaded_thread s) s'
      = queue_contents (find_least_loaded_thread s) s ++ [Some l] /\
      s_active_legions s' = wrap_int (wrap_int (s_active_legions s + 1) + 1) /\
      unblock_legion_from_channel (Some l) w
      = runtime_legion_unblock (Some l) w.
Proof.
  intros w s l L Hs Hwf HL Hst Hroom.
  assert (Hb : is_blocked l w = true).
  { unfold is_blocked, legion_state. rewrite HL. simpl. now rewrite Hst. }
  set (w1 := with_scheduler (fetch_add_active 1)
               (update_legion l (set_l_blocked_on None)
                  (update_legion l (set_l_state LEGION_STATE_RUNNABLE) w))).
  assert (Hs1 : g_scheduler w1 = Some (fetch_add_active 1 s)).
  { unfold w1, with_scheduler, update_legion. simpl. now rewrite Hs. }
  destruct (legion_start_with_room w1 (fetch_add_active 1 s) l
              Hs1 Hwf Hroom)
    as (s' & Hstart & Hwf' & Hq & _ & Hact).
  assert (Hu : runtime_legion_unblock (Some l) w
               = set_g_scheduler (Some s') w1).
  { unfold runtime_legion_unblock. rewrite Hb. cbn [negb].
    fold w1. exact Hstart. }
  rewrite Hu.
  exists s', (set_l_blocked_on None (set_l_state LEGION_STATE_RUNNABLE L)).
  split; [reflexivity|]. split.
  { cbn [set_g_scheduler legions]. unfold w1.
    rewrite legions_with_scheduler.
    apply lookup_update_legion_eq, lookup_update_legion_eq. exact HL. }
  split; [reflexivity|]. split; [reflexivity|]. split; [reflexivity|].
  split; [exact Hq|]. split; [exact Hact|].
  unfold unblock_legion_from_channel. rewrite Hb. cbn [negb].
  fold w1. exact Hstart.
Qed.

(** What [unblock_legion_from_channel] does to the scheduler when the
    legion is BLOCKED and the least-loaded queue has room. *)
Lemma unblock_from_channel_requeues w s l L :
  g_scheduler w = Some s ->
  sched_wf s ->
  legions w !! l = Some L ->
  l_state L = LEGION_STATE_BLOCKED ->
  queue_full (find_least_loaded_thread s) s = false ->
  exists s',
    g_scheduler (unblock_legion_from_channel (Some l) w) = Some s' /\
    queue_contents (find_least_loaded_thread s) s'
    = queue_contents (find_least_loaded_thread s) s ++ [Some l] /\
    (forall t, t <> find_least_loaded_thread s ->
               queue_contents t s' = queue_contents t s) /\
    s_active_legions s' = wrap_int (wrap_int (s_active_legions s + 1) + 1).
Proof.
  intros Hs Hwf HL Hst Hroom.
  assert (Hb : is_blocked l w = true).
  { unfold is_blocked, legion_state. rewrite HL. simpl. now rewrite Hst. }
  set (w1 := with_scheduler (fetch_add_active 1)
               (update_legion l (set_l_blocked_on None)
                  (update_legion l (set_l_state LEGION_STATE_RUNNABLE) w))).
  assert (Hs1 : g_scheduler w1 = Some (fetch_add_active 1 s)).
  { unfold w1. rewrite g_scheduler_with_scheduler.
    cbn [update_legion set_legions g_scheduler]. now rewrite Hs. }
  destruct (legion_start_with_room w1 (fetch_add_active 1 s) l
              Hs1 Hwf Hroom)
    as (s' & Hstart & _ & Hq & Hothers & Hact).
  unfold unblock_legion_from_channel. rewrite Hb. cbn [negb].
  fold w1. rewrite Hstart.
  exists s'. split; [reflexivity|]. split; [exact Hq|].
  split; [exact Hothers|exact Hact].
Qed.

(** The legion that a recv or a send wakes is submitted to the scheduler
    again.  When the head [s] of the blocked senders is BLOCKED and the
    least-loaded run queue has room, a recv that takes a value puts [s]
    behind the entries of that queue and leaves the other queues; a send
    that stores a value does the same with the head of the blocked
    receivers.  [active_legions] goes up by two. *)
Lemma woken_legion_is_resubmitted :
  forall (tls : Z) (a : nat) (w : World) (c : Channel) (value : list byte)
         (sch : Scheduler),
    channels w !! a = Some c ->
    g_scheduler w = Some sch ->
    sched_wf sch ->
    queue_full (find_least_loaded_thread sch) sch = false ->
    (forall s S,
       ch_count c <> 0 ->
       ch_blocked_senders c = Some s ->
       legions w !! s = Some S ->
       l_state S = LEGION_STATE_BLOCKED ->
       exists sch',
         g_scheduler (fst (runtime_channel_recv tls (Some a) w))
         = Some sch' /\
         queue_contents (find_least_loaded_thread sch) sch'
         = queue_contents (find_least_loaded_thread sch) sch ++ [Some s] /\
         (forall t, t <> find_least_loaded_thread sch ->
                    queue_contents t sch' = queue_contents t sch) /\
         s_active_legions sch'
         = wrap_int (wrap_int (s_active_legions sch + 1) + 1)) /\
    (forall r R,
       ch_closed c = 0 ->
       ch_count c < ch_capacity c ->
       ch_blocked_receivers c = Some r ->
       legions w !! r = Some R ->
       l_state R = LEGION_STATE_BLOCKED ->
       exists sch',
         g_scheduler (fst (runtime_channel_send tls (Some a) value w))
         = Some sch' /\
         queue_contents (find_least_loaded_thread sch) sch'
         = queue_contents (find_least_loaded_thread sch) sch ++ [Some r] /\
         (forall t, t <> find_least_loaded_thread sch ->
                    queue_contents t sch' = queue_contents t sch) /\
         s_active_legions sch'
         = wrap_int (wrap_int (s_active_legions sch + 1) + 1)).
Proof.
  intros tls a w c value sch Hc Hs Hwf Hroom. split.
  - intros s S Hne Hhead HS Hst.
    unfold runtime_channel_recv. rewrite Hc.
    replace (ch_count c =? 0) with false by (symmetry; now apply Z.eqb_neq).
    simpl andb. cbv iota zeta. cbn [fst].
    set (w1 := update_channel a (fun c => fst (dequeue c)) w).
    assert (Hc1 : channels w1 !! a = Some (fst (dequeue c))).
    { apply (lookup_update_channel a (fun c => fst (dequeue c))).
      exact Hc. }
    unfold wake_sender. rewrite Hc1.
    cbn [dequeue fst ch_blocked_senders]. rewrite Hhead.
    apply (unblock_from_channel_requeues _ sch s (set_l_next None S)).
    + exact Hs.
    + exact Hwf.
    + apply lookup_update_legion_eq. exact HS.
    + exact Hst.
    + exact Hroom.
  - intros r R Hcl Hlt Hhead HR Hst.
    unfold runtime_channel_send. rewrite Hc, Hcl.
    replace (ch_count c >=? ch_capacity c) with false
      by (symmetry; rewrite Z.geb_leb; apply Z.leb_gt; lia).
    simpl andb. cbv iota. simpl negb. cbv iota. cbn [fst].
    set (w1 := update_channel a (enqueue value) w).
    assert (Hc1 : channels w1 !! a = Some (enqueue value c)).
    { apply lookup_update_channel. exact Hc. }
    unfold wake_receiver. rewrite Hc1.
    cbn [enqueue ch_blocked_receivers]. rewrite Hhead.
    apply (unblock_from_channel_requeues _ sch r (set_l_next None R)).
    + exact Hs.
    + exact Hwf.
    + apply lookup_update_legion_eq. exact HR.
    + exact Hst.
    + exact Hroom.
Qed.

(** X12: the dispatch makes a RUNNABLE legion the current legion of the
    worker, RUNNING with the worker's id.  [runtime_get_current_legion],
    called on that worker's thread, finds the legion on workers 1, 2 and 3;
    on worker 0 the thread-local slot holds the id 0 as a null pointer, which
    [get_thread_id] reads as no id, and the result is NULL. *)
Theorem dispatch_makes_current :
  forall (w : World) (s : Scheduler) (t : Z) (l : nat) (L : Legion),
    g_scheduler w = Some s ->
    length (s_current_legion s) = 4%nat ->
    0 <= t < MAX_OS_THREADS ->
    legions w !! l = Some L ->
    l_state L = LEGION_STATE_RUNNABLE ->
    exists L',
      legions (dispatch t (Some l) w) !! l = Some L' /\
      l_state L' = LEGION_STATE_RUNNING /\
      l_thread_id L' = t /\
      runtime_get_current_legion (set_thread_id t) (dispatch t (Some l) w)
      = (if t =? 0 then None else Some l).
Proof.
  intros w s t l L Hs Hlen Ht HL Hst.
  unfold MAX_OS_THREADS in Ht.
  assert (Hd : dispatch t (Some l) w
               = update_legion l (set_l_state LEGION_STATE_RUNNING)
                   (update_legion l (set_l_thread_id t)
                      (with_scheduler
                         (fun s => set_s_current_legion
                                     (zupdate (s_current_legion s) t (Some l))
                                     s) w))).
  { unfold dispatch, legion_state. rewrite HL. simpl. now rewrite Hst. }
  rewrite Hd.
  exists (set_l_state LEGION_STATE_RUNNING (set_l_thread_id t L)).
  split.
  { apply lookup_update_legion_eq, lookup_update_legion_eq.
    rewrite legions_with_scheduler. exact HL. }
  split; [reflexivity|]. split; [reflexivity|].
  unfold runtime_get_current_legion, with_scheduler, update_legion.
  simpl. rewrite Hs. simpl.
  unfold set_thread_id, get_thread_id, MAX_OS_THREADS.
  destruct (t =? 0) eqn:H0; [reflexivity|].
  apply Z.eqb_neq in H0.
  replace ((t <? 0) || (t >=? 4)) with false.
  2:{ symmetry. apply orb_false_iff. split.
      - apply Z.ltb_ge. lia.
      - rewrite Z.geb_leb. apply Z.leb_gt. lia. }
  rewrite zlookup_zupdate_eq by lia. reflexivity.
Qed.

(** ** Non-blocking and blocking channel operations *)

(** X13: [runtime_channel_try_send] on an open channel with room stores the
    value behind the buffered ones and returns 1; on a closed or full channel
    it returns 0 and changes nothing.  It never touches a legion or the
    scheduler: a parked receiver stays parked. *)
Theorem try_send_behaviour :
  forall (E C : Z) (a : nat) (w : World) (cl : Z) (q : list (list byte))
         (v : list byte),
    C < 2 ^ 64 ->
    holds E C a w cl q ->
    Z.of_nat (length v) = E ->
    (cl = 0 -> (length q < Z.to_nat C)%nat ->
     exists w',
       runtime_channel_try_send (Some a) v w = (w', 1) /\
       holds E C a w' 0 (q ++ [v]) /\
       legions w' = legions w /\
       g_scheduler w' = g_scheduler w) /\
    (cl <> 0 \/ (Z.to_nat C <= length q)%nat ->
     runtime_channel_try_send (Some a) v w = (w, 0)).
Proof.
  intros E C a w cl q v HC64 (c & Hc & Hwf & Hcl & Hq) Hv.
  pose proof Hwf as (HC & (Hcap & Hcnt & _) & _).
  pose proof (length_chan_contents c) as Hlen. rewrite Hq in Hlen.
  unfold runtime_channel_try_send. rewrite Hc, Hcl, Hcap.
  split.
  - intros -> Hroom. simpl negb. cbv iota.
    replace (ch_count c >=? C) with false
      by (symmetry; rewrite Z.geb_leb; apply Z.leb_gt; lia).
    eexists. split; [reflexivity|]. split; [|split; reflexivity].
    exists (enqueue v c). split; [apply lookup_update_channel; exact Hc|].
    split; [apply chan_wf_enqueue; auto; lia|]. split; [exact Hcl|].
    rewrite <- Hq. apply (chan_contents_enqueue E C); auto. lia.
  - intros [Hne | Hfull].
    + replace (cl =? 0) with false by (symmetry; now apply Z.eqb_neq).
      reflexivity.
    + destruct (negb (cl =? 0)); [reflexivity|].
      replace (ch_count c >=? C) with true
        by (symmetry; rewrite Z.geb_leb; apply Z.leb_le; lia).
      reflexivity.
Qed.

(** X14: [runtime_channel_try_recv] on a non-empty channel, open or closed,
    returns 1 and hands out the oldest buffered value; on an empty channel
    it returns 0, leaving the out-parameter alone when the channel is open
    and storing NULL in it when the channel is closed.  It never touches a
    legion or the scheduler. *)
Theorem try_recv_behaviour :
  forall (E C : Z) (a : nat) (w : World) (cl : Z) (q : list (list byte)),
    C < 2 ^ 64 ->
    holds E C a w cl q ->
    match q with
    | v :: q' =>
        exists w',
          runtime_channel_try_recv (Some a) true w
          = (w', 1, Written (Some v)) /\
          holds E C a w' cl q' /\
          legions w' = legions w /\
          g_scheduler w' = g_scheduler w
    | [] =>
        runtime_channel_try_recv (Some a) true w
        = (w, 0, if cl =? 0 then NotWritten else Written None)
    end.
Proof.
  intros E C a w cl q HC64 (c & Hc & Hwf & Hcl & Hq).
  pose proof Hwf as (HC & (Hcap & Hcnt & _) & _).
  pose proof (length_chan_contents c) as Hlen. rewrite Hq in Hlen.
  unfold runtime_channel_try_recv. rewrite Hc, Hcl.
  destruct q as [|v q'].
  - simpl in Hlen. replace (ch_count c) with 0 by lia. simpl.
    destruct (cl =? 0); reflexivity.
  - simpl in Hlen.
    assert (Hne : ch_count c <> 0) by lia.
    replace (ch_count c =? 0) with false by (symmetry; now apply Z.eqb_neq).
    simpl andb. cbv iota zeta.
    pose proof (chan_contents_dequeue E C c HC64 Hwf Hne) as Hdeq.
    rewrite Hq in Hdeq.
    assert (Hv : snd (dequeue c) = v) by congruence.
    assert (Hrest : chan_contents (fst (dequeue c)) = q') by congruence.
    rewrite Hv.
    eexists. split; [reflexivity|]. split; [|split; reflexivity].
    exists (fst (dequeue c)). split.
    { apply (lookup_update_channel a (fun c => fst (dequeue c))). exact Hc. }
    split; [now apply chan_wf_dequeue|]. split; [exact Hcl|exact Hrest].
Qed.

(** X15: a send on a full open channel and a recv on an empty open channel
    do not return in that pass.  When [runtime_get_current_legion] finds a
    legion for the calling thread, the legion is parked and the channel
    keeps its buffered values and stays open; when it finds none, the
    caller waits on the condition variable and nothing changes.  It finds
    none on a thread without a worker id and also on the thread of worker
    0, whose id 0 is stored as a null pointer: a legion that runs on
    worker 0 is not parked but holds its worker on the condition
    variable. *)
Theorem full_send_and_empty_recv_block :
  forall (E C : Z) (a : nat) (tls : Z) (w : World) (q : list (list byte))
         (v : list byte),
    holds E C a w 0 q ->
    ((Z.to_nat C <= length q)%nat ->
     (forall cur,
        runtime_get_current_legion tls w = Some cur ->
        exists w',
          runtime_channel_send tls (Some a) v w = (w', SendParked) /\
          holds E C a w' 0 q) /\
     (runtime_get_current_legion tls w = None ->
      runtime_channel_send tls (Some a) v w = (w, SendCondWait)) /\
     runtime_channel_send (set_thread_id 0) (Some a) v w
     = (w, SendCondWait)) /\
    (q = [] ->
     (forall cur,
        runtime_get_current_legion tls w = Some cur ->
        exists w',
          runtime_channel_recv tls (Some a) w = (w', RecvParked) /\
          holds E C a w' 0 []) /\
     (runtime_get_current_legion tls w = None ->
      runtime_channel_recv tls (Some a) w = (w, RecvCondWait)) /\
     runtime_channel_recv (set_thread_id 0) (Some a) w
     = (w, RecvCondWait)).
Proof.
  intros E C a tls w q v (c & Hc & Hwf & Hcl & Hq).
  pose proof Hwf as (HC & (Hcap & Hcnt & _) & _).
  pose proof (length_chan_contents c) as Hlen. rewrite Hq in Hlen.
  assert (Hzero : runtime_get_current_legion (set_thread_id 0) w = None).
  { unfold runtime_get_current_legion.
    destruct (g_scheduler w); reflexivity. }
  split.
  - intros Hfull.
    assert (Hsend : forall tls0,
              runtime_channel_send tls0 (Some a) v w
              = match runtime_get_current_legion tls0 w with
                | Some cur =>
                    (runtime_legion_block tls0 (Some cur) (Some a)
                       (update_channel a (set_ch_blocked_senders (Some cur))
                          (update_legion cur
                             (set_l_next (ch_blocked_senders c)) w)),
                     SendParked)
                | None => (w, SendCondWait)
                end).
    { intros tls0. unfold runtime_channel_send. rewrite Hc, Hcl, Hcap.
      replace (ch_count c >=? C) with true
        by (symmetry; rewrite Z.geb_leb; apply Z.leb_le; lia).
      reflexivity. }
    split; [|split].
    + intros cur Hcur. rewrite Hsend, Hcur.
      eexists. split; [reflexivity|].
      exists (set_ch_blocked_senders (Some cur) c).
      rewrite channels_runtime_legion_block.
      split; [|split; [exact Hwf|split; [exact Hcl|exact Hq]]].
      apply lookup_update_channel. exact Hc.
    + intros Hnone. now rewrite Hsend, Hnone.
    + now rewrite Hsend, Hzero.
  - intros ->. simpl in Hlen.
    assert (Hrecv : forall tls0,
              runtime_channel_recv tls0 (Some a) w
              = match runtime_get_current_legion tls0 w with
                | Some cur =>
                    (runtime_legion_block tls0 (Some cur) (Some a)
                       (update_channel a
                          (set_ch_blocked_receivers (Some cur))
                          (update_legion cur
                             (set_l_next (ch_blocked_receivers c)) w)),
                     RecvParked)
                | None => (w, RecvCondWait)
                end).
    { intros tls0. unfold runtime_channel_recv. rewrite Hc, Hcl.
      replace (ch_count c) with 0 by lia. reflexivity. }
    split; [|split].
    + intros cur Hcur. rewrite Hrecv, Hcur.
      eexists. split; [reflexivity|].
      exists (set_ch_blocked_receivers (Some cur) c).
      rewrite channels_runtime_legion_block.
      split; [|split; [exact Hwf|split; [exact Hcl|exact Hq]]].
      apply lookup_update_channel. exact Hc.
    + intros Hnone. now rewrite Hrecv, Hnone.
    + now rewrite Hrecv, Hzero.
Qed.

Lemma exec_op_closed_flag a op w c :
  channels w !! a = Some c ->
  exists c',
    channels (exec_op (Some a) op w) !! a = Some c' /\
    ch_closed c' = if is_close op then 1 else ch_closed c.
Proof.
  intros Hc.
  pose (P := fun c' : Channel => ch_closed c' = ch_closed c).
  assert (HP : P c) by reflexivity.
  assert (Penq : forall v c0, P c0 -> ch_count c0 < ch_capacity c0 ->
                              P (enqueue v c0)) by (intros; assumption).
  assert (Pdeq : forall c0, P c0 -> ch_count c0 <> 0 -> P (fst (dequeue c0)))
    by (intros; assumption).
  assert (Psnd : forall r c0, P c0 -> P (set_ch_blocked_senders r c0))
    by (intros; assumption).
  assert (Prcv : forall r c0, P c0 -> P (set_ch_blocked_receivers r c0))
    by (intros; assumption).
  destruct op as [tls v|tls|v|out|]; unfold exec_op, is_close.
  - destruct (send_preserves P Penq Psnd Prcv tls a v w c Hc HP)
      as (c' & H1 & H2).
    destruct (runtime_channel_send tls (Some a) v w) as [w' o].
    cbn [fst] in H1.
    destruct o; try rewrite channels_runtime_legion_yield; eauto.
  - destruct (recv_preserves P Pdeq Psnd Prcv tls a w c Hc HP)
      as (c' & H1 & H2).
    destruct (runtime_channel_recv tls (Some a) w) as [w' o].
    cbn [fst] in H1.
    destruct o; try rewrite channels_runtime_legion_yield; eauto.
  - exact (try_send_preserves P Penq a v w c Hc HP).
  - exact (try_recv_preserves P Pdeq a out w c Hc HP).
  - exists (set_ch_closed 1 c). split; [|reflexivity].
    apply lookup_update_channel. exact Hc.
Qed.

Lemma run_ops_closed_flag a ops : forall w c,
  channels w !! a = Some c ->
  exists c',
    channels (run_ops (Some a) ops w) !! a = Some c' /\
    ch_closed c' = if existsb is_close ops then 1 else ch_closed c.
Proof.
  induction ops as [|op ops IH]; intros w c Hc.
  - exists c. auto.
  - destruct (exec_op_closed_flag a op w c Hc) as (c1 & Hc1 & Hcl1).
    destruct (IH _ c1 Hc1) as (c' & Hc' & Hcl').
    exists c'. split; [exact Hc'|].
    cbn [existsb]. rewrite Hcl', Hcl1.
    destruct (is_close op); simpl; [|reflexivity].
    destruct (existsb is_close ops); reflexivity.
Qed.

(** X16: on a channel made by [runtime_channel_new],
    [runtime_channel_is_closed] returns 1 after every sequence of operations
    in which close occurs and 0 after every other sequence: only close
    closes a channel, and nothing reopens it. *)
Theorem is_closed_iff_close_called :
  forall (a : nat) (E C : Z) (w : World) (ops : list ChanOp),
    runtime_channel_is_closed (Some a)
      (run_ops (Some a) ops (fst (runtime_channel_new a E C w)))
    = if existsb is_close ops then 1 else 0.
Proof.
  intros a E C w ops.
  destruct (run_ops_closed_flag a ops (fst (runtime_channel_new a E C w))
              _ (lookup_insert_eq _ _ _))
    as (c' & Hc' & Hcl').
  unfold runtime_channel_is_closed. rewrite Hc', Hcl'.
  destruct (existsb is_close ops); reflexivity.
Qed.

Lemma channels_update_channel_ne a b f w :
  a <> b -> channels (update_channel a f w) !! b = channels w !! b.
Proof. intros Hne. unfold update_channel. simpl. now apply lookup_alter_ne. Qed.

Lemma channels_wake_receiver_ne a b w :
  a <> b -> channels (wake_receiver a w) !! b = channels w !! b.
Proof.
  intros Hne. unfold wake_receiver.
  destruct (channels w !! a) as [c|]; [|reflexivity].
  destruct (ch_blocked_receivers c); [|reflexivity].
  rewrite channels_unblock_legion_from_channel, channels_update_legion.
  now apply channels_update_channel_ne.
Qed.

Lemma channels_wake_sender_ne a b w :
  a <> b -> channels (wake_sender a w) !! b = channels w !! b.
Proof.
  intros Hne. unfold wake_sender.
  destruct (channels w !! a) as [c|]; [|reflexivity].
  destruct (ch_blocked_senders c); [|reflexivity].
  rewrite channels_unblock_legion_from_channel, channels_update_legion.
  now apply channels_update_channel_ne.
Qed.

Lemma exec_op_other_channel a b op w :
  a <> b -> channels (exec_op (Some a) op w) !! b = channels w !! b.
Proof.
  intros Hne. destruct op as [tls v|tls|v|out|]; unfold exec_op.
  - unfold runtime_channel_send.
    destruct (channels w !! a) as [c|]; [|reflexivity].
    destruct (_ && _).
    + destruct (runtime_get_current_legion tls w); [|reflexivity].
      rewrite channels_runtime_legion_yield, channels_runtime_legion_block.
      rewrite channels_update_channel_ne by exact Hne. reflexivity.
    + destruct (negb _); [reflexivity|].
      rewrite channels_wake_receiver_ne by exact Hne.
      now apply channels_update_channel_ne.
  - unfold runtime_channel_recv.
    destruct (channels w !! a) as [c|]; [|reflexivity].
    destruct (_ && _).
    + destruct (runtime_get_current_legion tls w); [|reflexivity].
      rewrite channels_runtime_legion_yield, channels_runtime_legion_block.
      rewrite channels_update_channel_ne by exact Hne. reflexivity.
    + destruct (_ && _); [reflexivity|].
      rewrite channels_wake_sender_ne by exact Hne.
      now apply channels_update_channel_ne.
  - unfold runtime_channel_try_send.
    destruct (channels w !! a) as [c|]; [|reflexivity].
    destruct (negb _); [reflexivity|].
    destruct (_ >=? _); [reflexivity|].
    now apply channels_update_channel_ne.
  - unfold runtime_channel_try_recv. destruct out; [|reflexivity].
    destruct (channels w !! a) as [c|]; [|reflexivity].
    destruct (_ && _); [reflexivity|].
    destruct (_ && _); [reflexivity|].
    now apply channels_update_channel_ne.
  - now apply channels_update_channel_ne.
Qed.

(** X17: operations on one channel never change another channel: after any
    sequence of send, recv, try_send, try_recv and close on the channel at
    [a], every channel at another address is as it was. *)
Theorem channel_ops_leave_other_channels :
  forall (a b : nat) (ops : list ChanOp) (w : World),
    a <> b ->
    channels (run_ops (Some a) ops w) !! b = channels w !! b.
Proof.
  intros a b ops. induction ops as [|op ops IH]; intros w Hne.
  - reflexivity.
  - simpl. rewrite (IH _ Hne). now apply exec_op_other_channel.
Qed.

(** ** Strings *)

Lemma bytes_eqb_eq a : forall b, bytes_eqb a b = true <-> a = b.
Proof.
  induction a as [|x a IH]; intros [|y b]; simpl; split; try easy.
  - intros H. apply andb_true_iff in H as [Hxy Hab].
    apply Strings.Byte.byte_dec_bl in Hxy. apply IH in Hab. congruence.
  - intros H. injection H as -> ->. apply andb_true_iff. split.
    + now apply Strings.Byte.byte_dec_lb.
    + now apply IH.
Qed.

Lemma string_equal_Some a b :
  string_equal (Some a) (Some b) <> 0 <->
  str_len a = str_len b /\ str_bytes a = str_bytes b.
Proof.
  unfold string_equal.
  destruct (str_len a =? str_len b) eqn:Hlen; simpl.
  - apply Z.eqb_eq in Hlen.
    destruct (bytes_eqb (str_bytes a) (str_bytes b)) eqn:Hb.
    + apply bytes_eqb_eq in Hb. split; [auto|intros _; lia].
    + split; [lia|]. intros [_ Heq]. apply bytes_eqb_eq in Heq. congruence.
  - apply Z.eqb_neq in Hlen. split; [lia|]. intros [Heq _]. contradiction.
Qed.

Lemma string_equal_refl a : string_equal a a <> 0.
Proof.
  destruct a as [a|]; [|simpl; lia]. apply string_equal_Some. auto.
Qed.

Lemma string_equal_sym a b :
  string_equal a b <> 0 -> string_equal b a <> 0.
Proof.
  destruct a as [a|], b as [b|]; try (simpl; lia).
  rewrite !string_equal_Some. intros [H1 H2]. split; congruence.
Qed.

Lemma string_equal_trans a b c :
  string_equal a b <> 0 -> string_equal b c <> 0 -> string_equal a c <> 0.
Proof.
  destruct a as [a|], b as [b|], c as [c|]; try (simpl; lia).
  rewrite !string_equal_Some. intros [H1 H2] [H3 H4]. split; congruence.
Qed.

Lemma string_equal_values a b :
  string_equal a b = 0 \/ string_equal a b = 1.
Proof.
  unfold string_equal. destruct a, b; auto.
  destruct (negb _); auto. destruct (bytes_eqb _ _); auto.
Qed.

(** Equal strings with non-null data have the same hash. *)
Lemma hash_string_equal sc a b :
  string_ok a -> string_ok b ->
  string_equal (Some a) (Some b) <> 0 ->
  hash_string sc (Some a) = hash_string sc (Some b).
Proof.
  intros (_ & da & Hda & _) (_ & db & Hdb & _) Heq.
  apply string_equal_Some in Heq as [_ Hbytes].
  unfold hash_string. now rewrite Hda, Hdb, Hbytes.
Qed.

(** X18: [runtime_string_equal] returns 0 or 1 and is an equivalence: it
    holds of a string and itself, in both directions or in none, and
    transitively; two null pointers are equal and a null pointer equals no
    string; two strings are equal exactly when they have the same length and
    the same [len] bytes. *)
Theorem runtime_string_equal_equivalence :
  forall (a b c : option String),
    (runtime_string_equal a b = 0 \/ runtime_string_equal a b = 1) /\
    runtime_string_equal a a = 1 /\
    runtime_string_equal a b = runtime_string_equal b a /\
    (runtime_string_equal a b = 1 -> runtime_string_equal b c = 1 ->
     runtime_string_equal a c = 1) /\
    (runtime_string_equal a b = 1 <->
     match a, b with
     | None, None => True
     | Some x, Some y => str_len x = str_len y /\ str_bytes x = str_bytes y
     | _, _ => False
     end).
Proof.
  intros a b c. unfold runtime_string_equal.
  assert (Hone : forall x y, string_equal x y = 1 <-> string_equal x y <> 0).
  { intros x y. destruct (string_equal_values x y); lia. }
  split; [apply string_equal_values|]. split; [|split; [|split]].
  - apply Hone, string_equal_refl.
  - destruct (string_equal_values a b) as [H0|H1].
    + destruct (string_equal_values b a) as [H0'|H1']; [lia|].
      apply Hone, string_equal_sym, Hone in H1'. lia.
    + rewrite H1. symmetry. apply Hone, string_equal_sym, Hone. exact H1.
  - rewrite !Hone. apply string_equal_trans.
  - rewrite Hone. destruct a as [x|], b as [y|].
    + apply string_equal_Some.
    + simpl. split; [lia|easy].
    + simpl. split; [lia|easy].
    + simpl. split; [auto|lia].
Qed.

(** Two consecutive copies into a block. *)
Lemma inserts_two (buf ka kb : list byte) :
  (length ka + length kb <= length buf)%nat ->
  take (length ka + length kb)
    (list_inserts (length ka) kb (list_inserts 0 ka buf))
  = ka ++ kb.
Proof.
  intros Hfit. apply list_eq. intros i.
  rewrite lookup_take. case_decide as Hi.
  - destruct (decide (i < length ka)%nat) as [Hlt|Hge].
    + rewrite list_lookup_inserts_lt by exact Hlt.
      rewrite list_lookup_inserts by lia.
      rewrite lookup_app_l by exact Hlt. f_equal. lia.
    + rewrite list_lookup_inserts by (rewrite ?length_inserts; lia).
      rewrite lookup_app_r by lia. reflexivity.
  - symmetry. apply lookup_ge_None_2. rewrite length_app. lia.
Qed.

Lemma str_bytes_new data len :
  0 <= len -> len + 1 < 2 ^ 64 ->
  (Z.to_nat len <= length data)%nat ->
  str_len (runtime_string_new data len) = len /\
  str_bytes (runtime_string_new data len) = take (Z.to_nat len) data /\
  default [] (str_data (runtime_string_new data len)) !! Z.to_nat len
  = Some x00 /\
  string_ok (runtime_string_new data len).
Proof.
  intros Hlen Hmax Hdata.
  unfold runtime_string_new, str_bytes, string_ok, memcpy_into, zupdate.
  cbn [str_len str_data default from_option id].
  replace (len <? 0) with false by (symmetry; apply Z.ltb_ge; lia).
  change (0 <? 0) with false. cbv iota.
  rewrite wrap64_small by lia. change (Z.to_nat 0) with 0%nat.
  set (block := repeat x00 (Z.to_nat (len + 1))).
  set (k := take (Z.to_nat len) data).
  assert (Hk : length k = Z.to_nat len) by (unfold k; rewrite length_take; lia).
  assert (Hb : length block = S (Z.to_nat len)).
  { unfold block. rewrite repeat_length. lia. }
  split; [reflexivity|]. split; [|split].
  - rewrite take_insert_ge by lia.
    pose proof (inserts_two block k [] ltac:(simpl; lia)) as H2.
    rewrite Nat.add_0_r, app_nil_r, Hk in H2. simpl in H2. exact H2.
  - apply list_lookup_insert_eq. rewrite length_inserts. lia.
  - split; [exact Hlen|]. eexists. split; [reflexivity|].
    rewrite length_insert, length_inserts. lia.
Qed.

(** X19: [runtime_string_concat] of two strings is the string of their
    bytes, first those of [a], then those of [b], with the terminating zero
    behind them; a null argument counts as the empty string.  The lengths
    add up without wrap-around. *)
Theorem runtime_string_concat_bytes :
  forall (a b : String),
    string_ok a -> string_ok b ->
    str_len a + str_len b + 1 < 2 ^ 64 ->
    let r := runtime_string_concat (Some a) (Some b) in
    str_len r = str_len a + str_len b /\
    str_bytes r = str_bytes a ++ str_bytes b /\
    default [] (str_data r) !! Z.to_nat (str_len r) = Some x00 /\
    string_ok r /\
    str_bytes (runtime_string_concat None (Some b)) = str_bytes b /\
    str_bytes (runtime_string_concat (Some a) None) = str_bytes a /\
    str_bytes (runtime_string_concat None None) = [].
Proof.
  intros a b (Ha & da & Hda & Hla) (Hb & db & Hdb & Hlb) Hmax r.
  assert (Hnone : str_bytes (runtime_string_concat None None) = [])
    by reflexivity.
  assert (Hnb : str_bytes (runtime_string_concat None (Some b))
                = str_bytes b).
  { unfold runtime_string_concat. rewrite Hdb. simpl default.
    destruct (str_bytes_new db (str_len b) Hb ltac:(lia) Hlb) as (_ & H2 & _).
    rewrite H2. unfold str_bytes. now rewrite Hdb. }
  assert (Han : str_bytes (runtime_string_concat (Some a) None)
                = str_bytes a).
  { unfold runtime_string_concat. rewrite Hda. simpl default.
    destruct (str_bytes_new da (str_len a) Ha ltac:(lia) Hla) as (_ & H2 & _).
    rewrite H2. unfold str_bytes. now rewrite Hda. }
  cut (str_len r = str_len a + str_len b /\
       str_bytes r = str_bytes a ++ str_bytes b /\
       default [] (str_data r) !! Z.to_nat (str_len r) = Some x00 /\
       string_ok r).
  { intros (H1 & H2 & H3 & H4).
    split; [exact H1|]. split; [exact H2|]. split; [exact H3|].
    split; [exact H4|]. split; [exact Hnb|]. split; [exact Han|exact Hnone]. }
  subst r.
  unfold runtime_string_concat, str_bytes, string_ok, memcpy_into, zupdate.
  rewrite Hda, Hdb.
  cbn [str_len str_data default from_option id].
  rewrite !wrap64_small by lia.
  replace (str_len a + str_len b <? 0) with false
    by (symmetry; apply Z.ltb_ge; lia).
  replace (str_len a <? 0) with false by (symmetry; apply Z.ltb_ge; lia).
  change (0 <? 0) with false. cbv iota. change (Z.to_nat 0) with 0%nat.
  set (block := repeat x00 (Z.to_nat (str_len a + str_len b + 1))).
  set (ka := take (Z.to_nat (str_len a)) da).
  set (kb := take (Z.to_nat (str_len b)) db).
  assert (Hka : length ka = Z.to_nat (str_len a))
    by (unfold ka; rewrite length_take; lia).
  assert (Hkb : length kb = Z.to_nat (str_len b))
    by (unfold kb; rewrite length_take; lia).
  assert (Hblock : length block
                   = S (Z.to_nat (str_len a) + Z.to_nat (str_len b))).
  { unfold block. rewrite repeat_length. lia. }
  assert (Htot : Z.to_nat (str_len a + str_len b)
                 = (length ka + length kb)%nat) by lia.
  split; [reflexivity|].
  split; [|split].
  - rewrite take_insert_ge by lia. rewrite Htot, <- Hka.
    apply inserts_two. lia.
  - apply list_lookup_insert_eq. rewrite !length_inserts. lia.
  - split; [lia|]. eexists. split; [reflexivity|].
    rewrite length_insert, !length_inserts. lia.
Qed.

(** ** Hash maps *)

Lemma key_test_true a b :
  negb (string_equal a b =? 0) = true <-> string_equal a b <> 0.
Proof. rewrite negb_true_iff, Z.eqb_neq. reflexivity. Qed.

Lemma key_test_false a b :
  negb (string_equal a b =? 0) = false <-> string_equal a b = 0.
Proof. rewrite negb_false_iff, Z.eqb_eq. reflexivity. Qed.

Lemma chain_update_keys key value chain chain' :
  chain_update key value chain = Some chain' ->
  entry_keys chain' = entry_keys chain /\ length chain' = length chain.
Proof.
  revert chain'. induction chain as [|e rest IH]; intros chain' H; simpl in H.
  - discriminate.
  - destruct (negb (string_equal (e_key e) key =? 0)).
    + injection H as <-. split; reflexivity.
    + destruct (chain_update key value rest) as [r|]; [|discriminate].
      injection H as <-. destruct (IH r eq_refl) as [Hk Hl].
      split.
      * unfold entry_keys in *. rewrite !fmap_cons. now f_equal.
      * simpl. congruence.
Qed.

Lemma chain_update_None key value chain :
  chain_update key value chain = None <-> chain_find key chain = None.
Proof.
  induction chain as [|e rest IH]; simpl; [easy|].
  destruct (negb (string_equal (e_key e) key =? 0)); [easy|].
  destruct (chain_update key value rest); split; intros H;
    try discriminate; try (now apply IH); try reflexivity.
  apply IH in H. discriminate.
Qed.

Lemma chain_find_None key chain :
  chain_find key chain = None ->
  forall k, k ∈ entry_keys chain -> string_equal k key = 0.
Proof.
  induction chain as [|e rest IH]; intros H k Hk.
  - unfold entry_keys in Hk. simpl in Hk. inversion Hk.
  - simpl in H.
    destruct (negb (string_equal (e_key e) key =? 0)) eqn:Ht; [discriminate|].
    apply key_test_false in Ht.
    unfold entry_keys in Hk. simpl in Hk.
    apply elem_of_cons in Hk as [-> | Hk]; [exact Ht|].
    now apply IH.
Qed.

(** After the update of [key], a look-up of an equal key finds the new
    value. *)
Lemma chain_find_update_same key key' value chain chain' :
  chain_update key value chain = Some chain' ->
  string_equal key key' <> 0 ->
  exists e, chain_find key' chain' = Some e /\ e_value e = value.
Proof.
  intros Hupd Heq. revert chain' Hupd.
  induction chain as [|e rest IH]; intros chain' H; simpl in H.
  - discriminate.
  - destruct (negb (string_equal (e_key e) key =? 0)) eqn:Ht.
    + injection H as <-. apply key_test_true in Ht.
      simpl.
      replace (negb (string_equal (e_key e) key' =? 0)) with true.
      * eexists. split; reflexivity.
      * symmetry. apply key_test_true.
        exact (string_equal_trans _ _ _ Ht Heq).
    + destruct (chain_update key value rest) as [r|]; [|discriminate].
      injection H as <-. apply key_test_false in Ht.
      simpl.
      replace (negb (string_equal (e_key e) key' =? 0)) with false.
      * now apply IH.
      * symmetry. apply key_test_false.
        destruct (string_equal_values (e_key e) key') as [H0|H1]; [exact H0|].
        exfalso.
        assert (Hne : string_equal (e_key e) key <> 0).
        { apply (string_equal_trans _ key'); [lia|].
          now apply string_equal_sym. }
        contradiction.
Qed.

(** After the update of [key], a look-up of a different key finds what it
    found before. *)
Lemma chain_find_update_other key key' value chain chain' :
  chain_update key value chain = Some chain' ->
  string_equal key key' = 0 ->
  e_value <$> chain_find key' chain' = e_value <$> chain_find key' chain.
Proof.
  intros Hupd Hne. revert chain' Hupd.
  induction chain as [|e rest IH]; intros chain' H; simpl in H.
  - discriminate.
  - destruct (negb (string_equal (e_key e) key =? 0)) eqn:Ht.
    + injection H as <-. apply key_test_true in Ht. simpl.
      replace (negb (string_equal (e_key e) key' =? 0)) with false;
        [reflexivity|].
      symmetry. apply key_test_false.
      destruct (string_equal_values (e_key e) key') as [H0|H1]; [exact H0|].
      exfalso.
      assert (Heq : string_equal key key' <> 0).
      { apply (string_equal_trans _ (e_key e)); [|lia].
        now apply string_equal_sym. }
      contradiction.
    + destruct (chain_update key value rest) as [r|]; [|discriminate].
      injection H as <-. simpl.
      destruct (negb (string_equal (e_key e) key' =? 0)); [reflexivity|].
      now apply IH.
Qed.

Lemma bucket_index_range sc m key :
  hashmap_ok sc m ->
  0 <= bucket_index sc m key < Z.of_nat (length (hm_buckets m)).
Proof.
  intros (Hcap & Hlen & _). unfold bucket_index.
  rewrite Hcap, Hlen. unfold HASHMAP_INITIAL_SIZE.
  apply Z.mod_pos_bound. lia.
Qed.

Lemma bucket_at_zupdate_eq m index chain size cap :
  0 <= index < Z.of_nat (length (hm_buckets m)) ->
  bucket_at (mkHashMap (zupdate (hm_buckets m) index chain) size cap) index
  = chain.
Proof.
  intros Hi. unfold bucket_at. simpl.
  now rewrite zlookup_zupdate_eq.
Qed.

Lemma bucket_at_zupdate_ne m index index' chain size cap :
  index <> index' ->
  bucket_at (mkHashMap (zupdate (hm_buckets m) index chain) size cap) index'
  = bucket_at m index'.
Proof.
  intros Hne. unfold bucket_at. simpl. now rewrite zlookup_zupdate_ne.
Qed.

(** A get after a put of an equal key. *)
Lemma put_then_get_same :
  forall (sc : bool) (m : HashMap) (k k' : String) (v : option nat),
    hashmap_ok sc m ->
    string_ok k -> string_ok k' ->
    string_equal (Some k) (Some k') <> 0 ->
    exists m',
      runtime_hashmap_put sc (Some m) (Some k) v = Some m' /\
      runtime_hashmap_get sc (Some m') (Some k') = v /\
      runtime_hashmap_contains_key sc (Some m') (Some k') = 1.
Proof.
  intros sc m k k' v Hok Hk Hk' Heq.
  pose proof (bucket_index_range sc m (Some k) Hok) as Hidx.
  assert (Hsame : forall size chain,
            bucket_index sc
              (mkHashMap (zupdate (hm_buckets m)
                            (bucket_index sc m (Some k)) chain)
                 size (hm_capacity m)) (Some k')
            = bucket_index sc m (Some k)).
  { intros size chain. unfold bucket_index. cbn [hm_capacity].
    now rewrite (hash_string_equal sc k k' Hk Hk' Heq). }
  unfold runtime_hashmap_put.
  destruct (chain_update (Some k) v
              (bucket_at m (bucket_index sc m (Some k)))) as [chain'|] eqn:Hu.
  - eexists. split; [reflexivity|].
    unfold runtime_hashmap_get, runtime_hashmap_contains_key.
    rewrite Hsame, bucket_at_zupdate_eq by exact Hidx.
    destruct (chain_find_update_same _ (Some k') _ _ _ Hu Heq)
      as (e & -> & Hv).
    split; [exact Hv|reflexivity].
  - eexists. split; [reflexivity|].
    unfold runtime_hashmap_get, runtime_hashmap_contains_key.
    rewrite Hsame, bucket_at_zupdate_eq by exact Hidx.
    cbn [chain_find e_key].
    replace (negb (string_equal (Some k) (Some k') =? 0)) with true
      by (symmetry; now apply key_test_true).
    split; reflexivity.
Qed.

(** X20: for keys whose data block is non-null and holds [len] bytes, a get
    after a put of an equal key returns the value that was put, also when
    another entry of the bucket was there first, and
    [runtime_hashmap_contains_key] returns 1, also for a null value.  The
    condition on the data block is needed: [hash_string] returns 0 for a
    key with a null data block, so in a new map such a key of length 0 goes
    to bucket 0, while an empty string with a data block, which
    [runtime_string_equal] finds equal to it, is looked up in the bucket of
    the hash 5381 and is not found. *)
Theorem hashmap_get_after_put_same :
  forall (sc : bool) (m : HashMap) (k k' : String) (v : option nat),
    hashmap_ok sc m ->
    string_ok k -> string_ok k' ->
    string_equal (Some k) (Some k') <> 0 ->
    (exists m',
       runtime_hashmap_put sc (Some m) (Some k) v = Some m' /\
       runtime_hashmap_get sc (Some m') (Some k') = v /\
       runtime_hashmap_contains_key sc (Some m') (Some k') = 1) /\
    (forall (e : String) (m0 : HashMap),
       string_ok e -> str_len e = 0 ->
       runtime_hashmap_put sc (Some runtime_hashmap_new)
         (Some (mkString 0 None)) v = Some m0 ->
       runtime_string_equal (Some (mkString 0 None)) (Some e) = 1 /\
       runtime_hashmap_contains_key sc (Some m0) (Some (mkString 0 None))
       = 1 /\
       runtime_hashmap_contains_key sc (Some m0) (Some e) = 0 /\
       runtime_hashmap_get sc (Some m0) (Some e) = None).
Proof.
  intros sc m k k' v Hok Hk Hk' Heq. split.
  - apply (put_then_get_same sc m k k' v Hok Hk Hk' Heq).
  - intros [elen edata] m0 (_ & d & Hd & _) Hlen Hput.
    cbn [str_len str_data] in Hd, Hlen. subst elen edata.
    vm_compute in Hput. injection Hput as <-.
    repeat split; vm_compute; reflexivity.
Qed.

(** X21: a put leaves every other key alone: for a key that is not equal to
    the one put, get and contains_key return after the put what they
    returned before it. *)
Theorem hashmap_get_after_put_other :
  forall (sc : bool) (m : HashMap) (k k' : String) (v : option nat),
    hashmap_ok sc m ->
    string_equal (Some k) (Some k') = 0 ->
    exists m',
      runtime_hashmap_put sc (Some m) (Some k) v = Some m' /\
      runtime_hashmap_get sc (Some m') (Some k')
      = runtime_hashmap_get sc (Some m) (Some k') /\
      runtime_hashmap_contains_key sc (Some m') (Some k')
      = runtime_hashmap_contains_key sc (Some m) (Some k').
Proof.
  intros sc m k k' v Hok Hne.
  pose proof (bucket_index_range sc m (Some k) Hok) as Hidx.
  assert (Hfind : forall m',
            hm_capacity m' = hm_capacity m ->
            e_value <$> chain_find (Some k')
                          (bucket_at m' (bucket_index sc m (Some k')))
            = e_value <$> chain_find (Some k')
                            (bucket_at m (bucket_index sc m (Some k'))) ->
            runtime_hashmap_get sc (Some m') (Some k')
            = runtime_hashmap_get sc (Some m) (Some k') /\
            runtime_hashmap_contains_key sc (Some m') (Some k')
            = runtime_hashmap_contains_key sc (Some m) (Some k')).
  { intros m' Hcap Hf.
    unfold runtime_hashmap_get, runtime_hashmap_contains_key.
    replace (bucket_index sc m' (Some k'))
      with (bucket_index sc m (Some k'))
      by (unfold bucket_index; now rewrite Hcap).
    destruct (chain_find (Some k') (bucket_at m' _)) as [e1|],
             (chain_find (Some k') (bucket_at m _)) as [e2|];
      simpl in Hf; try discriminate; split; congruence. }
  unfold runtime_hashmap_put.
  destruct (Z.eq_dec (bucket_index sc m (Some k))
              (bucket_index sc m (Some k'))) as [Hi|Hi].
  - destruct (chain_update (Some k) v
                (bucket_at m (bucket_index sc m (Some k))))
      as [chain'|] eqn:Hu.
    + eexists. split; [reflexivity|]. apply Hfind; [reflexivity|].
      rewrite <- Hi, bucket_at_zupdate_eq by exact Hidx.
      exact (chain_find_update_other _ _ _ _ _ Hu Hne).
    + eexists. split; [reflexivity|]. apply Hfind; [reflexivity|].
      rewrite <- Hi, bucket_at_zupdate_eq by exact Hidx.
      cbn [chain_find e_key].
      replace (negb (string_equal (Some k) (Some k') =? 0)) with false
        by (symmetry; now apply key_test_false).
      reflexivity.
  - destruct (chain_update (Some k) v
                (bucket_at m (bucket_index sc m (Some k))))
      as [chain'|]; eexists; (split; [reflexivity|]);
      (apply Hfind; [reflexivity|]);
      now rewrite bucket_at_zupdate_ne by exact Hi.
Qed.

Lemma length_concat_insert {A} (l : list (list A)) (n : nat) (x old : list A) :
  l !! n = Some old ->
  (length (concat (<[n := x]> l)) + length old
   = length (concat l) + length x)%nat.
Proof.
  intros Hold.
  assert (Hn : (n < length l)%nat) by (eapply lookup_lt_Some; eauto).
  rewrite insert_take_drop by exact Hn.
  rewrite <- (take_drop_middle l n old Hold) at 3.
  rewrite !concat_app. simpl. rewrite !length_app. lia.
Qed.

(** Replacing the chain of bucket [n] keeps the shape of the map when the
    new chain has keys of that bucket only, no two of them equal, and [size]
    follows the length of the chain. *)
Lemma hashmap_ok_replace sc m (n : nat) old chain' size' :
  hashmap_ok sc m ->
  hm_buckets m !! n = Some old ->
  (forall key, key ∈ entry_keys chain' ->
               key ∈ entry_keys old \/
               hash_string sc key mod hm_capacity m = Z.of_nat n) ->
  keys_distinct (entry_keys chain') ->
  size' = hm_size m + Z.of_nat (length chain') - Z.of_nat (length old) ->
  hashmap_ok sc (mkHashMap (<[n := chain']> (hm_buckets m)) size'
                   (hm_capacity m)).
Proof.
  intros (Hcap & Hlen & Hidx & Hdist & Hsize) Hold Hkeys Hd Hsz.
  unfold hashmap_ok. cbn [hm_capacity hm_buckets hm_size].
  split; [exact Hcap|]. split; [now rewrite length_insert|].
  split; [|split].
  - intros i chain key Hi Hkey. unfold bucket_index. cbn [hm_capacity].
    destruct (decide (n = i)) as [->|Hne].
    + rewrite list_lookup_insert_eq in Hi by (eapply lookup_lt_Some; eauto).
      injection Hi as <-.
      destruct (Hkeys key Hkey) as [Hin|Hh]; [|exact Hh].
      exact (Hidx i old key Hold Hin).
    + rewrite list_lookup_insert_ne in Hi by exact Hne.
      exact (Hidx i chain key Hi Hkey).
  - intros i chain Hi.
    destruct (decide (n = i)) as [->|Hne].
    + rewrite list_lookup_insert_eq in Hi by (eapply lookup_lt_Some; eauto).
      injection Hi as <-. exact Hd.
    + rewrite list_lookup_insert_ne in Hi by exact Hne.
      exact (Hdist i chain Hi).
  - pose proof (length_concat_insert (hm_buckets m) n chain' old Hold).
    lia.
Qed.

Lemma hashmap_new_ok sc : hashmap_ok sc runtime_hashmap_new.
Proof.
  unfold hashmap_ok, runtime_hashmap_new. cbn [hm_capacity hm_buckets hm_size].
  split; [reflexivity|]. split; [apply repeat_length|].
  assert (Hempty : forall (i : nat) chain,
            repeat (@nil HashMapEntry) (Z.to_nat HASHMAP_INITIAL_SIZE) !! i
            = Some chain -> chain = []).
  { intros i chain Hi. apply list_elem_of_lookup_2, list_elem_of_In in Hi.
    now apply repeat_spec in Hi. }
  split; [|split].
  - intros i chain key Hi Hkey. apply Hempty in Hi. subst chain.
    inversion Hkey.
  - intros i chain Hi. apply Hempty in Hi. subst chain.
    intros j1 j2 k1 k2 H1. discriminate.
  - reflexivity.
Qed.

(** X22: a put keeps the shape of the map (capacity 16, 16 buckets, every
    entry in the bucket of its hash, no two entries of one bucket with
    equal keys, [size] the number of entries) and adjusts the length:
    [runtime_hashmap_len] grows by one when
    [runtime_hashmap_contains_key] did not find the key and stays as it is
    when it did.  After a put the map is not empty. *)
Theorem hashmap_put_size :
  forall (sc : bool) (m : HashMap) (k : String) (v : option nat),
    hashmap_ok sc m ->
    hm_size m + 1 < 2 ^ 64 ->
    exists m',
      runtime_hashmap_put sc (Some m) (Some k) v = Some m' /\
      hashmap_ok sc m' /\
      runtime_hashmap_len (Some m')
      = runtime_hashmap_len (Some m)
        + (1 - runtime_hashmap_contains_key sc (Some m) (Some k)) /\
      runtime_hashmap_is_empty (Some m') = 0.
Proof.
  intros sc m k v Hok Hmax.
  pose proof (bucket_index_range sc m (Some k) Hok) as Hidx.
  pose proof Hok as (Hcap & Hlen & Hkeys & Hdist & Hsize).
  set (idx := bucket_index sc m (Some k)) in *.
  destruct (zlookup_lt (hm_buckets m) idx Hidx) as [old Hold].
  assert (Hold' : hm_buckets m !! Z.to_nat idx = Some old).
  { unfold zlookup in Hold. destruct (idx <? 0) eqn:Hn; [discriminate|].
    exact Hold. }
  assert (Hbucket : bucket_at m idx = old).
  { unfold bucket_at. now rewrite Hold. }
  assert (Hzu : forall chain, zupdate (hm_buckets m) idx chain
                              = <[Z.to_nat idx := chain]> (hm_buckets m)).
  { intros chain. unfold zupdate.
    destruct (idx <? 0) eqn:Hn; [apply Z.ltb_lt in Hn; lia|reflexivity]. }
  assert (Hsz0 : 0 <= hm_size m) by lia.
  unfold runtime_hashmap_put, runtime_hashmap_contains_key,
    runtime_hashmap_len, runtime_hashmap_is_empty.
  fold idx. rewrite Hbucket.
  destruct (chain_update (Some k) v old) as [chain'|] eqn:Hu.
  - destruct (chain_update_keys _ _ _ _ Hu) as [Hk Hl].
    assert (Hfound : exists e, chain_find (Some k) old = Some e).
    { destruct (chain_find (Some k) old) as [e|] eqn:Hf; [eauto|].
      apply (chain_update_None (Some k) v) in Hf. congruence. }
    destruct Hfound as [e Hf]. rewrite Hf.
    eexists. split; [reflexivity|]. rewrite Hzu. split; [|split].
    + apply (hashmap_ok_replace sc m _ old); auto.
      * intros key Hkey. left. now rewrite <- Hk.
      * rewrite Hk. exact (Hdist _ old Hold').
      * lia.
    + cbn [hm_size]. lia.
    + cbn [hm_size].
      assert (Hpos : 0 < hm_size m).
      { destruct old as [|e0 old']; [discriminate|].
        pose proof (length_concat_insert (hm_buckets m) (Z.to_nat idx)
                      [] (e0 :: old') Hold') as Hc.
        simpl in Hc. lia. }
      replace (hm_size m =? 0) with false
        by (symmetry; apply Z.eqb_neq; lia).
      reflexivity.
  - assert (Hf : chain_find (Some k) old = None)
      by (now apply (chain_update_None (Some k) v)).
    rewrite Hf.
    eexists. split; [reflexivity|]. rewrite Hzu, wrap64_small by lia.
    split; [|split].
    + apply (hashmap_ok_replace sc m _ old); auto.
      * intros key Hkey. unfold entry_keys in Hkey. rewrite fmap_cons in Hkey.
        apply elem_of_cons in Hkey as [-> | Hkey]; [right|now left].
        cbn [e_key]. rewrite Z2Nat.id by lia. reflexivity.
      * unfold entry_keys. rewrite fmap_cons. cbn [e_key].
        intros j1 j2 k1 k2 H1 H2 Heq.
        destruct j1 as [|j1], j2 as [|j2]; simpl in H1, H2.
        -- reflexivity.
        -- exfalso. injection H1 as <-.
           apply list_elem_of_lookup_2 in H2.
           pose proof (chain_find_None _ _ Hf k2 H2) as H0.
           apply string_equal_sym in Heq. contradiction.
        -- exfalso. injection H2 as <-.
           apply list_elem_of_lookup_2 in H1.
           pose proof (chain_find_None _ _ Hf k1 H1) as H0.
           contradiction.
        -- f_equal. exact (Hdist _ old Hold' j1 j2 k1 k2 H1 H2 Heq).
      * simpl length. lia.
    + cbn [hm_size]. lia.
    + cbn [hm_size].
      replace (hm_size m + 1 =? 0) with false
        by (symmetry; apply Z.eqb_neq; lia).
      reflexivity.
Qed.

(** ** Slices *)

Lemma memcpy_from_elem data (k : nat) E :
  0 <= E ->
  memcpy_from data (Z.of_nat k * E) E
  = take (Z.to_nat E) (drop (k * Z.to_nat E) data).
Proof.
  intros HE. unfold memcpy_from. do 2 f_equal.
  rewrite Z2Nat.inj_mul, Nat2Z.id by lia. reflexivity.
Qed.

Lemma length_slice_elems s :
  length (slice_elems s) = Z.to_nat (sl_len s).
Proof. unfold slice_elems. now rewrite length_map, length_seq. Qed.

Lemma slice_elems_lookup s (k : nat) :
  0 <= sl_elem_size s ->
  (k < Z.to_nat (sl_len s))%nat ->
  slice_elems s !! k
  = Some (take (Z.to_nat (sl_elem_size s))
            (drop (k * Z.to_nat (sl_elem_size s)) (sl_data s))).
Proof.
  intros HE Hk. unfold slice_elems.
  change (map ?f ?l) with (f <$> l).
  rewrite list_lookup_fmap, lookup_seq_lt by exact Hk. simpl.
  now rewrite memcpy_from_elem.
Qed.

(** The bytes of element [k] of a slice are the bytes of its block from
    [k * elem_size] on. *)
Lemma slice_elems_elim s (k : nat) x :
  slice_ok s ->
  slice_elems s !! k = Some x ->
  (k < Z.to_nat (sl_len s))%nat /\
  length x = Z.to_nat (sl_elem_size s) /\
  forall j, (j < Z.to_nat (sl_elem_size s))%nat ->
            sl_data s !! (k * Z.to_nat (sl_elem_size s) + j)%nat = x !! j.
Proof.
  intros (HE & Hlen & Hcap & Hmul & Hdata) Hx.
  assert (Hk : (k < Z.to_nat (sl_len s))%nat).
  { apply lookup_lt_Some in Hx. now rewrite length_slice_elems in Hx. }
  rewrite slice_elems_lookup in Hx by assumption. injection Hx as <-.
  split; [exact Hk|]. split.
  - rewrite length_take, length_drop. nia.
  - intros j Hj. rewrite lookup_take_lt, lookup_drop by exact Hj.
    reflexivity.
Qed.

(** A list of byte runs that the block holds one after the other is the
    list of elements. *)
Lemma slice_elems_intro s (T : list (list byte)) :
  0 <= sl_elem_size s ->
  length T = Z.to_nat (sl_len s) ->
  (forall (k : nat) x,
     T !! k = Some x ->
     length x = Z.to_nat (sl_elem_size s) /\
     forall j, (j < Z.to_nat (sl_elem_size s))%nat ->
               sl_data s !! (k * Z.to_nat (sl_elem_size s) + j)%nat
               = x !! j) ->
  slice_elems s = T.
Proof.
  intros HE HT Hall. apply list_eq. intros k.
  destruct (decide (k < Z.to_nat (sl_len s))%nat) as [Hk|Hk].
  - rewrite slice_elems_lookup by assumption.
    destruct (T !! k) as [x|] eqn:Hx.
    2:{ apply lookup_ge_None in Hx. lia. }
    destruct (Hall k x Hx) as [Hlx Hbytes]. f_equal.
    apply list_eq. intros j.
    rewrite lookup_take. case_decide as Hj.
    + rewrite lookup_drop. now apply Hbytes.
    + symmetry. apply lookup_ge_None_2. lia.
  - rewrite (lookup_ge_None_2 (slice_elems s))
      by (rewrite length_slice_elems; lia).
    symmetry. apply lookup_ge_None_2. lia.
Qed.

Lemma memcpy_into_nat buf (i : nat) E v :
  0 <= E -> Z.of_nat i * E < 2 ^ 64 ->
  Z.of_nat (length v) = E ->
  memcpy_into buf (wrap64 (Z.of_nat i * E)) v E
  = list_inserts (i * Z.to_nat E) v buf.
Proof.
  intros HE Hmax Hv. unfold memcpy_into.
  rewrite wrap64_small by nia.
  replace (Z.of_nat i * E <? 0) with false
    by (symmetry; apply Z.ltb_ge; nia).
  rewrite take_ge by lia.
  rewrite Z2Nat.inj_mul, Nat2Z.id by lia. reflexivity.
Qed.

(** X23: a set inside the bounds replaces the element at the index and
    nothing else, and a get at that index then returns a pointer to the
    value that was set; a get or a set at an index from [len] on aborts, and
    so does either on a null slice. *)
Theorem slice_set_then_get :
  forall (s : Slice) (index : Z) (v : list byte),
    slice_ok s ->
    0 <= index ->
    Z.of_nat (length v) = sl_elem_size s ->
    (index < sl_len s ->
     exists s' off,
       runtime_slice_set (Some s) index v = Returns s' /\
       slice_ok s' /\
       sl_len s' = sl_len s /\
       slice_elems s' = <[Z.to_nat index := v]> (slice_elems s) /\
       runtime_slice_get (Some s') index = Returns off /\
       slice_deref s' off = v) /\
    (sl_len s <= index ->
     runtime_slice_set (Some s) index v = Aborts /\
     runtime_slice_get (Some s) index = Aborts) /\
    runtime_slice_set None index v = Aborts /\
    runtime_slice_get None index = Aborts.
Proof.
  intros s index v Hok Hi Hv.
  pose proof Hok as (HE & Hlen & Hcap & Hmul & Hdata).
  split; [|split; [|split; reflexivity]].
  - intros Hlt.
    assert (Hin : (index >=? sl_len s) = false)
      by (rewrite Z.geb_leb; apply Z.leb_gt; lia).
    exists (mkSlice
              (memcpy_into (sl_data s) (wrap64 (index * sl_elem_size s)) v
                 (sl_elem_size s))
              (sl_len s) (sl_cap s) (sl_elem_size s)),
           (wrap64 (index * sl_elem_size s)).
    split; [unfold runtime_slice_set; now rewrite Hin|].
    set (n := Z.to_nat (sl_elem_size s)).
    set (i := Z.to_nat index).
    assert (Hidx : index = Z.of_nat i) by lia.
    assert (Hn : length v = n) by lia.
    assert (Hfit : (i * n + n <= length (sl_data s))%nat) by nia.
    rewrite Hidx.
    rewrite memcpy_into_nat by (try assumption; nia). fold n.
    split; [|split; [reflexivity|split; [|split]]].
    + unfold slice_ok. cbn [sl_data sl_len sl_cap sl_elem_size].
      rewrite length_inserts. repeat split; assumption || lia.
    + apply slice_elems_intro; cbn [sl_data sl_len sl_elem_size];
        [exact HE|now rewrite length_insert, length_slice_elems|].
      fold n. intros k x Hx.
      destruct (decide (i = k)) as [<-|Hne].
      * rewrite list_lookup_insert_eq in Hx
          by (rewrite length_slice_elems; lia).
        injection Hx as <-. split; [exact Hn|].
        intros j Hj. rewrite list_lookup_inserts by lia. f_equal. lia.
      * rewrite list_lookup_insert_ne in Hx by exact Hne.
        destruct (slice_elems_elim s k x Hok Hx) as (Hk & Hlx & Hb).
        split; [exact Hlx|]. intros j Hj.
        rewrite <- (Hb j Hj). fold n.
        destruct (decide (k < i)%nat).
        -- apply list_lookup_inserts_lt. nia.
        -- apply list_lookup_inserts_ge. nia.
    + unfold runtime_slice_get. cbn [sl_len sl_elem_size].
      rewrite <- Hidx. now rewrite Hin.
    + unfold slice_deref. cbn [sl_data sl_elem_size].
      rewrite wrap64_small by nia.
      unfold memcpy_from.
      replace (Z.to_nat (Z.of_nat i * sl_elem_size s)) with (i * n)%nat
        by (unfold n; nia).
      fold n. apply slot_written; assumption.
  - intros Hge. unfold runtime_slice_set, runtime_slice_get.
    replace (index >=? sl_len s) with true
      by (symmetry; rewrite Z.geb_leb; apply Z.leb_le; lia).
    split; reflexivity.
Qed.

(** Slices that agree on the bytes of their elements have the same
    elements. *)
Lemma slice_elems_same s s' :
  slice_ok s ->
  sl_elem_size s' = sl_elem_size s ->
  sl_len s' = sl_len s ->
  (forall p, (p < length (sl_data s))%nat ->
             sl_data s' !! p = sl_data s !! p) ->
  slice_elems s' = slice_elems s.
Proof.
  intros Hok HE Hlen Hbytes.
  pose proof Hok as (HE0 & Hl & Hcap & Hmul & Hdata).
  apply slice_elems_intro.
  - now rewrite HE.
  - now rewrite length_slice_elems, Hlen.
  - rewrite HE. intros k x Hx.
    destruct (slice_elems_elim s k x Hok Hx) as (Hk & Hlx & Hb).
    split; [exact Hlx|]. intros j Hj. rewrite <- (Hb j Hj).
    apply Hbytes. nia.
Qed.

(** The growth step makes room for one more element and keeps the
    elements. *)
Lemma grow_if_full_room s j :
  slice_ok s ->
  2 * sl_cap s < 2 ^ 64 ->
  sl_elem_size s * (2 * sl_cap s) < 2 ^ 64 ->
  sl_elem_size s < 2 ^ 64 ->
  exists s1,
    grow_if_full s (Some j) = Returns s1 /\
    slice_ok s1 /\
    sl_len s1 = sl_len s /\
    sl_elem_size s1 = sl_elem_size s /\
    sl_len s1 < sl_cap s1 /\
    sl_cap s1 = (if sl_len s <? sl_cap s then sl_cap s
                 else if sl_cap s =? 0 then 1 else 2 * sl_cap s) /\
    slice_elems s1 = slice_elems s.
Proof.
  intros Hok H2 Hmul2 HE64.
  pose proof Hok as (HE & Hlen & Hcap & Hmul & Hdata).
  unfold grow_if_full.
  destruct (sl_len s <? sl_cap s) eqn:Hroom.
  - apply Z.ltb_lt in Hroom.
    replace (sl_len s >=? sl_cap s) with false
      by (symmetry; rewrite Z.geb_leb; apply Z.leb_gt; lia).
    exists s. repeat split; try assumption; lia.
  - apply Z.ltb_ge in Hroom.
    replace (sl_len s >=? sl_cap s) with true
      by (symmetry; rewrite Z.geb_leb; apply Z.leb_le; lia).
    rewrite (wrap64_small (sl_cap s * 2)) by lia.
    set (new_cap := if sl_cap s =? 0 then 1 else 2 * sl_cap s).
    assert (Hnc : (if sl_cap s * 2 =? 0 then 1 else sl_cap s * 2) = new_cap).
    { unfold new_cap. destruct (sl_cap s =? 0) eqn:H0.
      - apply Z.eqb_eq in H0. now rewrite H0.
      - apply Z.eqb_neq in H0.
        replace (sl_cap s * 2 =? 0) with false
          by (symmetry; apply Z.eqb_neq; lia). lia. }
    rewrite Hnc.
    assert (Hnew : sl_cap s < new_cap /\ new_cap < 2 ^ 64 /\
                   sl_elem_size s * new_cap < 2 ^ 64).
    { unfold new_cap. destruct (sl_cap s =? 0) eqn:H0.
      - apply Z.eqb_eq in H0. lia.
      - apply Z.eqb_neq in H0. lia. }
    destruct Hnew as (Hgt & Hn64 & Hnmul).
    rewrite wrap64_small by nia.
    eexists. split; [reflexivity|].
    assert (Hok1 : slice_ok
                     (mkSlice
                        (gc_realloc (sl_data s) (sl_elem_size s * new_cap) j)
                        (sl_len s) new_cap (sl_elem_size s))).
    { unfold slice_ok, gc_realloc. cbn [sl_data sl_len sl_cap sl_elem_size].
      rewrite length_resize. repeat split; try lia. nia. }
    split; [exact Hok1|]. split; [reflexivity|]. split; [reflexivity|].
    split; [cbn [sl_len sl_cap]; lia|]. split; [reflexivity|].
    apply slice_elems_same; try assumption; try reflexivity.
    cbn [sl_data]. intros p Hp. unfold gc_realloc.
    rewrite lookup_resize by (rewrite ?length_app; nia).
    now apply lookup_app_l.
Qed.

(** X24: a push puts the value behind the elements of the slice and keeps
    them; the capacity stays when there was room and doubles (from 0 to 1)
    when the slice was full.  The sizes are assumed to fit a [size_t] and
    the reallocation to succeed. *)
Theorem slice_push_appends :
  forall (s : Slice) (v j : list byte),
    slice_ok s ->
    Z.of_nat (length v) = sl_elem_size s ->
    2 * sl_cap s < 2 ^ 64 ->
    sl_elem_size s * (2 * sl_cap s) < 2 ^ 64 ->
    sl_elem_size s < 2 ^ 64 ->
    exists s',
      runtime_slice_push (Some s) v (Some j) = Returns s' /\
      slice_ok s' /\
      slice_elems s' = slice_elems s ++ [v] /\
      runtime_slice_len (Some s') = sl_len s + 1 /\
      runtime_slice_cap (Some s')
      = (if sl_len s <? sl_cap s then sl_cap s
         else if sl_cap s =? 0 then 1 else 2 * sl_cap s).
Proof.
  intros s v j Hok Hv H2 Hmul2 HE64.
  destruct (grow_if_full_room s j Hok H2 Hmul2 HE64)
    as (s1 & Hgrow & Hok1 & Hlen1 & HE1 & Hroom & Hcap1 & Helems).
  pose proof Hok1 as (HE & Hlen & Hcap & Hmul & Hdata).
  unfold runtime_slice_push. rewrite Hgrow. cbv iota beta.
  set (n := Z.to_nat (sl_elem_size s1)).
  set (i := Z.to_nat (sl_len s1)).
  assert (Hi : sl_len s1 = Z.of_nat i) by lia.
  assert (Hn : length v = n) by lia.
  replace (sl_len s1 * sl_elem_size s1) with (Z.of_nat i * sl_elem_size s1)
    by (rewrite <- Hi; reflexivity).
  rewrite memcpy_into_nat by (try lia; nia). fold n.
  rewrite wrap64_small by lia.
  eexists. split; [reflexivity|]. split; [|split; [|split]].
  - unfold slice_ok. cbn [sl_data sl_len sl_cap sl_elem_size].
    rewrite length_inserts. repeat split; assumption || lia.
  - rewrite <- Helems.
    apply slice_elems_intro; cbn [sl_data sl_len sl_elem_size].
    + exact HE.
    + rewrite length_app, length_slice_elems. simpl. lia.
    + fold n. intros k x Hx.
      destruct (decide (k < i)%nat) as [Hk|Hk].
      * rewrite lookup_app_l in Hx by (rewrite length_slice_elems; lia).
        destruct (slice_elems_elim s1 k x Hok1 Hx) as (_ & Hlx & Hb).
        split; [exact Hlx|]. intros j0 Hj. rewrite <- (Hb j0 Hj). fold n.
        apply list_lookup_inserts_lt. nia.
      * rewrite lookup_app_r in Hx by (rewrite length_slice_elems; lia).
        rewrite length_slice_elems in Hx. fold i in Hx.
        destruct (k - i)%nat as [|d] eqn:Hd; [|destruct d; discriminate].
        injection Hx as <-. split; [exact Hn|].
        assert (k = i) by (apply lookup_lt_Some in Hx || lia). subst k.
        intros j0 Hj. rewrite list_lookup_inserts by nia. f_equal. lia.
  - cbn [runtime_slice_len sl_len]. lia.
  - cbn [runtime_slice_cap sl_cap]. exact Hcap1.
Qed.

(** X25: a pop takes the last element off the slice and returns a copy of
    it, leaving the elements before it; on an empty slice and on a null
    slice it returns NULL and changes nothing. *)
Theorem slice_pop_takes_last :
  forall (s : Slice),
    slice_ok s ->
    (sl_len s = 0 -> runtime_slice_pop (Some s) = (Some s, None)) /\
    (sl_len s <> 0 ->
     exists s' last,
       runtime_slice_pop (Some s) = (Some s', Some last) /\
       slice_ok s' /\
       slice_elems s = slice_elems s' ++ [last] /\
       runtime_slice_len (Some s') = sl_len s - 1 /\
       runtime_slice_cap (Some s') = sl_cap s) /\
    runtime_slice_pop None = (None, None).
Proof.
  intros s Hok.
  pose proof Hok as (HE & Hlen & Hcap & Hmul & Hdata).
  split; [|split; [|reflexivity]].
  - intros H0. unfold runtime_slice_pop. now rewrite H0.
  - intros Hne. unfold runtime_slice_pop.
    replace (sl_len s =? 0) with false by (symmetry; now apply Z.eqb_neq).
    rewrite (wrap64_small (sl_len s - 1)) by lia. cbv zeta.
    assert (Hoff : 0 <= (sl_len s - 1) * sl_elem_size s
                   <= sl_elem_size s * sl_cap s).
    { split; [apply Z.mul_nonneg_nonneg; lia|].
      rewrite (Z.mul_comm (sl_len s - 1)).
      apply Z.mul_le_mono_nonneg_l; lia. }
    rewrite wrap64_small by lia.
    do 2 eexists. split; [reflexivity|]. split; [|split; [|split]].
    + unfold slice_ok. cbn [sl_data sl_len sl_cap sl_elem_size].
      repeat split; assumption || lia.
    + unfold slice_elems. cbn [sl_data sl_len sl_elem_size].
      replace (Z.to_nat (sl_len s)) with (S (Z.to_nat (sl_len s - 1)))
        by lia.
      rewrite seq_S, map_app. cbn [map Nat.add]. f_equal. f_equal. f_equal.
      rewrite Z2Nat.id by lia. reflexivity.
    + cbn [runtime_slice_len sl_len]. reflexivity.
    + reflexivity.
Qed.

(** [memmove] and [memcpy] between natural offsets. *)
Lemma memmove_within_nat buf (d s n : nat) :
  memmove_within buf (Z.of_nat d) (Z.of_nat s) (Z.of_nat n)
  = list_inserts d (take n (drop s buf)) buf.
Proof.
  unfold memmove_within, memcpy_into, memcpy_from.
  replace (Z.of_nat d <? 0) with false by (symmetry; apply Z.ltb_ge; lia).
  now rewrite !Nat2Z.id, take_idemp.
Qed.

Lemma lookup_block_move (buf : list byte) (d s n p : nat) :
  (s + n <= length buf)%nat ->
  (d + n <= length buf)%nat ->
  (d <= p < d + n)%nat ->
  list_inserts d (take n (drop s buf)) buf !! p = buf !! (s + (p - d))%nat.
Proof.
  intros Hs Hd Hp.
  assert (Hl : length (take n (drop s buf)) = n)
    by (rewrite length_take, length_drop; lia).
  rewrite list_lookup_inserts by (rewrite ?Hl; lia).
  rewrite lookup_take_lt by lia. apply lookup_drop.
Qed.

Lemma offset_bound (a E c : Z) :
  0 <= a <= c -> 0 <= E -> 0 <= a * E <= E * c.
Proof.
  intros Ha HE. split; [apply Z.mul_nonneg_nonneg; lia|].
  rewrite (Z.mul_comm a). apply Z.mul_le_mono_nonneg_l; lia.
Qed.

Lemma of_nat_offset (a E : Z) :
  0 <= a -> 0 <= E -> Z.of_nat (Z.to_nat a * Z.to_nat E) = a * E.
Proof. intros Ha HE. rewrite Nat2Z.inj_mul, !Z2Nat.id by lia. reflexivity. Qed.

(** X26: removing the element at an index inside the slice leaves the
    other elements in their order, one fewer, in the same block; an index
    from the length on, or a null slice, aborts. *)
Theorem slice_remove_deletes :
  forall (s : Slice) (index : Z),
    slice_ok s ->
    0 <= index ->
    (index < sl_len s ->
     exists s',
       runtime_slice_remove (Some s) index = Returns s' /\
       slice_ok s' /\
       slice_elems s' = delete (Z.to_nat index) (slice_elems s) /\
       runtime_slice_len (Some s') = sl_len s - 1 /\
       runtime_slice_cap (Some s') = sl_cap s) /\
    (sl_len s <= index -> runtime_slice_remove (Some s) index = Aborts) /\
    runtime_slice_remove None index = Aborts.
Proof.
  intros s index Hok Hidx.
  pose proof Hok as (HE & Hlen & Hcap & Hmul & Hdata).
  split; [|split; [|reflexivity]].
  - intros Hlt.
    set (i := Z.to_nat index). set (n := Z.to_nat (sl_elem_size s)).
    set (m := Z.to_nat (sl_len s - index - 1)).
    exists (mkSlice
              (list_inserts (i * n) (take (m * n) (drop (S i * n) (sl_data s)))
                 (sl_data s))
              (sl_len s - 1) (sl_cap s) (sl_elem_size s)).
    assert (Hlenb : (S i * n + m * n <= length (sl_data s))%nat).
    { assert (Z.of_nat (S i * n + m * n) = sl_len s * sl_elem_size s).
      { replace (S i * n + m * n)%nat with ((S i + m) * n)%nat by lia.
        replace (S i + m)%nat with (Z.to_nat (sl_len s)) by lia.
        apply of_nat_offset; lia. }
      pose proof (offset_bound (sl_len s) (sl_elem_size s) (sl_cap s)).
      lia. }
    split; [|split; [|split; [|split]]].
    + unfold runtime_slice_remove.
      replace (index >=? sl_len s) with false
        by (symmetry; rewrite Z.geb_leb; apply Z.leb_gt; lia).
      cbv zeta.
      rewrite (wrap64_small (sl_len s - index)) by lia.
      rewrite (wrap64_small (sl_len s - index - 1)) by lia.
      rewrite (wrap64_small (sl_len s - 1)) by lia.
      pose proof (offset_bound index (sl_elem_size s) (sl_cap s)).
      pose proof (offset_bound (index + 1) (sl_elem_size s) (sl_cap s)).
      pose proof (offset_bound (sl_len s - index - 1) (sl_elem_size s)
                    (sl_cap s)).
      rewrite (wrap64_small (index * sl_elem_size s)) by lia.
      rewrite (wrap64_small (index * sl_elem_size s + sl_elem_size s))
        by lia.
      rewrite (wrap64_small ((sl_len s - index - 1) * sl_elem_size s))
        by lia.
      f_equal. f_equal.
      destruct (sl_len s - index - 1 >? 0) eqn:Hm.
      * rewrite <- (of_nat_offset index (sl_elem_size s)) by lia.
        rewrite <- (of_nat_offset (sl_len s - index - 1) (sl_elem_size s))
          by lia.
        fold i n m.
        replace (Z.of_nat (i * n) + sl_elem_size s)
          with (Z.of_nat (S i * n)) by lia.
        apply memmove_within_nat.
      * assert (m = 0%nat)
          by (rewrite Z.gtb_ltb in Hm; apply Z.ltb_ge in Hm; lia).
        replace (m * n)%nat with 0%nat by lia. reflexivity.
    + unfold slice_ok. cbn [sl_data sl_len sl_cap sl_elem_size].
      rewrite length_inserts. repeat split; assumption || lia.
    + apply slice_elems_intro; cbn [sl_data sl_len sl_elem_size].
      * exact HE.
      * rewrite length_delete.
        -- rewrite length_slice_elems. lia.
        -- apply lookup_lt_is_Some. rewrite length_slice_elems. lia.
      * fold n. intros k x Hx.
        destruct (decide (k < i)%nat) as [Hk|Hk].
        -- rewrite list_lookup_delete_lt in Hx by exact Hk.
           destruct (slice_elems_elim s k x Hok Hx) as (_ & Hlx & Hb).
           split; [exact Hlx|]. intros j Hj. rewrite <- (Hb j Hj). fold n.
           apply list_lookup_inserts_lt. nia.
        -- rewrite list_lookup_delete_ge in Hx by lia.
           destruct (slice_elems_elim s (S k) x Hok Hx) as (Hk' & Hlx & Hb).
           split; [exact Hlx|]. intros j Hj. rewrite <- (Hb j Hj). fold n.
           assert (Hkm : (k < i + m)%nat) by lia.
           rewrite lookup_block_move by nia.
           f_equal. nia.
    + reflexivity.
    + reflexivity.
  - intros Hge. unfold runtime_slice_remove.
    now replace (index >=? sl_len s) with true
      by (symmetry; rewrite Z.geb_leb; apply Z.leb_le; lia).
Qed.

(** Offsets of elements in a block. *)
Lemma offset_lt (k i n j : nat) :
  (k < i)%nat -> (j < n)%nat -> (k * n + j < i * n)%nat.
Proof. intros Hk Hj. nia. Qed.

Lemma offset_shift (i d n j : nat) :
  (i * n + (S (i + d) * n + j - S i * n) = (i + d) * n + j)%nat.
Proof. nia. Qed.

Lemma offset_above (i d n j : nat) :
  (S i * n <= S (i + d) * n + j)%nat.
Proof. nia. Qed.

(** X27: inserting at an index up to the length puts the value at that
    index, keeps the elements before it and moves the ones from it on one
    place up; the slice grows as in a push.  An index beyond the length, or
    a null slice, aborts.  The sizes are assumed to fit a [size_t] and the
    reallocation to succeed. *)
Theorem slice_insert_places :
  forall (s : Slice) (index : Z) (v j : list byte),
    slice_ok s ->
    0 <= index ->
    Z.of_nat (length v) = sl_elem_size s ->
    2 * sl_cap s < 2 ^ 64 ->
    sl_elem_size s * (2 * sl_cap s) < 2 ^ 64 ->
    sl_elem_size s < 2 ^ 64 ->
    (index <= sl_len s ->
     exists s',
       runtime_slice_insert (Some s) index v (Some j) = Returns s' /\
       slice_ok s' /\
       slice_elems s'
       = take (Z.to_nat index) (slice_elems s)
           ++ v :: drop (Z.to_nat index) (slice_elems s) /\
       runtime_slice_len (Some s') = sl_len s + 1 /\
       runtime_slice_cap (Some s')
       = (if sl_len s <? sl_cap s then sl_cap s
          else if sl_cap s =? 0 then 1 else 2 * sl_cap s)) /\
    (sl_len s < index ->
     runtime_slice_insert (Some s) index v (Some j) = Aborts) /\
    runtime_slice_insert None index v (Some j) = Aborts.
Proof.
  intros s index v j Hok Hidx Hv H2 Hmul2 HE64.
  split; [|split; [|reflexivity]].
  - intros Hle.
    destruct (grow_if_full_room s j Hok H2 Hmul2 HE64)
      as (s1 & Hgrow & Hok1 & Hlen1 & HE1 & Hroom & Hcap1 & Helems).
    pose proof Hok1 as (HE & Hlen & Hcap & Hmul & Hdata).
    rewrite <- Helems, <- Hlen1. rewrite <- Hlen1 in Hle.
    set (i := Z.to_nat index). set (n := Z.to_nat (sl_elem_size s1)).
    set (m := Z.to_nat (sl_len s1 - index)).
    assert (Hn : length v = n) by lia.
    assert (Hblock : (S (i + m) * n <= length (sl_data s1))%nat).
    { assert (Z.of_nat (S (i + m) * n)
              = (sl_len s1 + 1) * sl_elem_size s1).
      { replace (S (i + m)) with (Z.to_nat (sl_len s1 + 1)) by lia.
        apply of_nat_offset; lia. }
      pose proof (offset_bound (sl_len s1 + 1) (sl_elem_size s1)
                    (sl_cap s1)).
      lia. }
    exists (mkSlice
              (list_inserts (i * n) v
                 (list_inserts (S i * n)
                    (take (m * n) (drop (i * n) (sl_data s1))) (sl_data s1)))
              (sl_len s1 + 1) (sl_cap s1) (sl_elem_size s1)).
    split; [|split; [|split; [|split]]].
    + unfold runtime_slice_insert.
      replace (index >? sl_len s) with false
        by (symmetry; rewrite Z.gtb_ltb; apply Z.ltb_ge; lia).
      rewrite Hgrow. cbv iota beta zeta.
      rewrite (wrap64_small (index + 1)) by lia.
      rewrite (wrap64_small (sl_len s1 - index)) by lia.
      rewrite (wrap64_small (sl_len s1 + 1)) by lia.
      pose proof (offset_bound index (sl_elem_size s1) (sl_cap s1)).
      pose proof (offset_bound (index + 1) (sl_elem_size s1) (sl_cap s1)).
      pose proof (offset_bound (sl_len s1 - index) (sl_elem_size s1)
                    (sl_cap s1)).
      rewrite (wrap64_small ((index + 1) * sl_elem_size s1)) by lia.
      rewrite (wrap64_small ((sl_len s1 - index) * sl_elem_size s1)) by lia.
      f_equal. f_equal.
      replace (index * sl_elem_size s1)
        with (Z.of_nat i * sl_elem_size s1) by (f_equal; lia).
      rewrite memcpy_into_nat by (try lia; rewrite Z2Nat.id; lia).
      fold n. f_equal.
      destruct (index <? sl_len s1) eqn:Hm.
      * replace (Z.of_nat i * sl_elem_size s1) with (Z.of_nat (i * n))
          by (rewrite Nat2Z.inj_mul; unfold n; rewrite Z2Nat.id by lia;
              reflexivity).
        assert (Hoff : Z.of_nat (i * n) = index * sl_elem_size s1)
          by (apply of_nat_offset; lia).
        rewrite (wrap64_small (Z.of_nat (i * n))) by lia.
        rewrite <- (of_nat_offset (index + 1) (sl_elem_size s1)) by lia.
        rewrite <- (of_nat_offset (sl_len s1 - index) (sl_elem_size s1))
          by lia.
        fold i n m. replace (Z.to_nat (index + 1)) with (S i) by lia.
        apply memmove_within_nat.
      * assert (m = 0%nat) by (apply Z.ltb_ge in Hm; lia).
        replace (m * n)%nat with 0%nat by lia. reflexivity.
    + unfold slice_ok. cbn [sl_data sl_len sl_cap sl_elem_size].
      rewrite !length_inserts. repeat split; assumption || lia.
    + apply slice_elems_intro; cbn [sl_data sl_len sl_elem_size].
      * exact HE.
      * rewrite length_app, length_take, length_cons, length_drop,
          length_slice_elems. lia.
      * fold n. intros k x Hx.
        assert (Hti : length (take i (slice_elems s1)) = i)
          by (rewrite length_take, length_slice_elems; lia).
        destruct (decide (k < i)%nat) as [Hk|Hk].
        -- rewrite lookup_app_l, lookup_take_lt in Hx by lia.
           destruct (slice_elems_elim s1 k x Hok1 Hx) as (_ & Hlx & Hb).
           split; [exact Hlx|]. intros j0 Hj. rewrite <- (Hb j0 Hj). fold n.
           pose proof (offset_lt k i n j0 Hk Hj).
           rewrite !list_lookup_inserts_lt by lia. reflexivity.
        -- rewrite lookup_app_r, Hti in Hx by lia.
           destruct (k - i)%nat as [|d] eqn:Hd.
           ++ injection Hx as <-. assert (k = i) by lia. subst k.
              split; [exact Hn|]. intros j0 Hj.
              rewrite list_lookup_inserts
                by (rewrite ?length_inserts; lia).
              f_equal. lia.
           ++ change (drop i (slice_elems s1) !! d = Some x) in Hx.
              rewrite lookup_drop in Hx.
              assert (k = S (i + d)) by lia. subst k.
              destruct (slice_elems_elim s1 (i + d) x Hok1 Hx)
                as (Hk' & Hlx & Hb).
              split; [exact Hlx|]. intros j0 Hj. rewrite <- (Hb j0 Hj).
              fold n.
              pose proof (offset_above i d n j0) as Habove.
              assert (Hbelow : (S (i + d) * n + j0 < S (i + m) * n)%nat)
                by (apply offset_lt; lia).
              rewrite list_lookup_inserts_ge by lia.
              rewrite lookup_block_move by lia.
              f_equal. apply offset_shift.
    + reflexivity.
    + cbn [runtime_slice_cap sl_cap]. rewrite Hcap1, Hlen1. reflexivity.
  - intros Hgt. unfold runtime_slice_insert.
    now replace (index >? sl_len s) with true
      by (symmetry; rewrite Z.gtb_ltb; apply Z.ltb_lt; lia).
Qed.

(** X28: a subslice [start:end) within the length is a fresh slice that
    holds copies of the elements [start .. end-1], with length and capacity
    [end - start]; a range that is reversed or ends beyond the length, or a
    null slice, aborts. *)
Theorem slice_subslice_copies :
  forall (s : Slice) (start end_ : Z),
    slice_ok s ->
    0 <= start ->
    (start <= end_ <= sl_len s ->
     exists s',
       runtime_slice_subslice (Some s) start end_ = Returns s' /\
       slice_ok s' /\
       slice_elems s'
       = take (Z.to_nat (end_ - start))
           (drop (Z.to_nat start) (slice_elems s)) /\
       runtime_slice_len (Some s') = end_ - start /\
       runtime_slice_cap (Some s') = end_ - start) /\
    (end_ < start \/ sl_len s < end_ ->
     runtime_slice_subslice (Some s) start end_ = Aborts) /\
    runtime_slice_subslice None start end_ = Aborts.
Proof.
  intros s start end_ Hok Hstart.
  pose proof Hok as (HE & Hlen & Hcap & Hmul & Hdata).
  split; [|split; [|reflexivity]].
  - intros Hrange.
    set (st := Z.to_nat start). set (n := Z.to_nat (sl_elem_size s)).
    set (sl := Z.to_nat (end_ - start)).
    pose proof (offset_bound (end_ - start) (sl_elem_size s) (sl_cap s)).
    pose proof (offset_bound start (sl_elem_size s) (sl_cap s)).
    pose proof (offset_bound end_ (sl_elem_size s) (sl_cap s)).
    assert (Hblock : ((st + sl) * n <= length (sl_data s))%nat).
    { assert (Z.of_nat ((st + sl) * n) = end_ * sl_elem_size s).
      { replace (st + sl)%nat with (Z.to_nat end_) by lia.
        apply of_nat_offset; lia. }
      lia. }
    exists (mkSlice
              (list_inserts 0 (take (sl * n) (drop (st * n) (sl_data s)))
                 (repeat x00 (sl * n)))
              (end_ - start) (end_ - start) (sl_elem_size s)).
    split; [|split; [|split; [|split]]].
    + unfold runtime_slice_subslice.
      replace (start >? end_) with false
        by (symmetry; rewrite Z.gtb_ltb; apply Z.ltb_ge; lia).
      replace (end_ >? sl_len s) with false
        by (symmetry; rewrite Z.gtb_ltb; apply Z.ltb_ge; lia).
      cbn [orb]. cbv zeta.
      rewrite (wrap64_small (end_ - start)) by lia.
      rewrite (wrap64_small (start * sl_elem_size s)) by lia.
      rewrite (Z.mul_comm (sl_elem_size s) (end_ - start)).
      rewrite (wrap64_small ((end_ - start) * sl_elem_size s)) by lia.
      f_equal. f_equal.
      rewrite <- (of_nat_offset (end_ - start) (sl_elem_size s)) by lia.
      rewrite <- (of_nat_offset start (sl_elem_size s)) by lia.
      fold st n sl. unfold memcpy_into, memcpy_from.
      change (0 <? 0) with false. cbv iota.
      rewrite !Nat2Z.id, take_idemp. reflexivity.
    + unfold slice_ok. cbn [sl_data sl_len sl_cap sl_elem_size].
      rewrite length_inserts, repeat_length.
      unfold sl, n. rewrite of_nat_offset by lia.
      repeat split; lia.
    + apply slice_elems_intro; cbn [sl_data sl_len sl_elem_size].
      * exact HE.
      * rewrite length_take, length_drop, length_slice_elems. lia.
      * fold n sl st. intros k x Hx.
        apply lookup_take_Some in Hx. destruct Hx as [Hx Hk].
        rewrite lookup_drop in Hx.
        destruct (slice_elems_elim s (st + k) x Hok Hx) as (_ & Hlx & Hb).
        split; [exact Hlx|]. intros j Hj. rewrite <- (Hb j Hj). fold n.
        assert (Hl : length (take (sl * n) (drop (st * n) (sl_data s)))
                     = (sl * n)%nat)
          by (rewrite length_take, length_drop; lia).
        pose proof (offset_lt k sl n j Hk Hj) as Hp.
        rewrite list_lookup_inserts by (rewrite ?Hl, ?repeat_length; lia).
        rewrite lookup_take_lt by lia. rewrite lookup_drop.
        f_equal. lia.
    + reflexivity.
    + reflexivity.
  - intros Hbad. unfold runtime_slice_subslice.
    destruct Hbad as [Hbad|Hbad].
    + now replace (start >? end_) with true
        by (symmetry; rewrite Z.gtb_ltb; apply Z.ltb_lt; lia).
    + replace (end_ >? sl_len s) with true
        by (symmetry; rewrite Z.gtb_ltb; apply Z.ltb_lt; lia).
      now rewrite orb_true_r.
Qed.

(** The doubling loop of [runtime_slice_reserve] ends when the needed
    capacity is at most [2^63]: the fuel bounds the number of doublings. *)
Lemma reserve_loop_ends (needed : Z) :
  0 < needed <= 2 ^ 63 ->
  forall (fuel : nat) (c : Z),
    0 <= c ->
    (if c =? 0 then (1 <= fuel)%nat /\ needed <= 2 ^ (Z.of_nat fuel - 1)
     else needed <= c * 2 ^ Z.of_nat fuel) ->
    exists c',
      reserve_loop fuel c needed = Some c' /\
      needed <= c' /\
      (c < needed -> c' < 2 * needed) /\
      (needed <= c -> c' = c).
Proof.
  intros Hneeded fuel.
  induction fuel as [|fuel IH]; intros c Hc Hfuel.
  - destruct (c =? 0) eqn:H0; [lia|]. apply Z.eqb_neq in H0.
    change (Z.of_nat 0) with 0 in Hfuel. rewrite Z.pow_0_r in Hfuel.
    cbn [reserve_loop].
    replace (c <? needed) with false by (symmetry; apply Z.ltb_ge; lia).
    exists c. repeat split; lia.
  - cbn [reserve_loop].
    destruct (c <? needed) eqn:Hlt.
    + apply Z.ltb_lt in Hlt. cbv zeta.
      assert (Hpow : 2 ^ Z.of_nat (S fuel) = 2 * 2 ^ Z.of_nat fuel).
      { rewrite Nat2Z.inj_succ, Z.pow_succ_r by lia. reflexivity. }
      replace (2 ^ 63) with 9223372036854775808 in Hneeded by reflexivity.
      rewrite wrap64_small
        by (replace (2 ^ 64) with 18446744073709551616 by reflexivity; lia).
      destruct (c =? 0) eqn:H0.
      * apply Z.eqb_eq in H0. subst c. change (0 * 2 =? 0) with true.
        cbv iota.
        destruct (IH 1) as (c' & Hrun & Hge & Hup & Hsame); [lia| |].
        { change (1 =? 0) with false. cbv iota.
          replace (Z.of_nat (S fuel) - 1) with (Z.of_nat fuel) in Hfuel
            by lia.
          lia. }
        exists c'. split; [exact Hrun|]. split; [exact Hge|].
        split; [|lia]. intros _.
        destruct (Z.lt_ge_cases 1 needed) as [H1|H1]; [now apply Hup|].
        rewrite Hsame by lia. lia.
      * apply Z.eqb_neq in H0.
        replace (c * 2 =? 0) with false by (symmetry; apply Z.eqb_neq; lia).
        destruct (IH (c * 2)) as (c' & Hrun & Hge & Hup & Hsame); [lia| |].
        { replace (c * 2 =? 0) with false
            by (symmetry; apply Z.eqb_neq; lia).
          rewrite Hpow in Hfuel. lia. }
        exists c'. split; [exact Hrun|]. split; [exact Hge|].
        split; [|lia]. intros _.
        destruct (Z.lt_ge_cases (c * 2) needed) as [H1|H1];
          [now apply Hup|].
        rewrite Hsame by lia. lia.
    + apply Z.ltb_ge in Hlt. exists c. repeat split; lia.
Qed.

(** Slices that agree on the bytes in use have the same elements. *)
Lemma slice_elems_used s s' :
  slice_ok s ->
  sl_elem_size s' = sl_elem_size s ->
  sl_len s' = sl_len s ->
  (forall p, (p < Z.to_nat (sl_len s) * Z.to_nat (sl_elem_size s))%nat ->
             sl_data s' !! p = sl_data s !! p) ->
  slice_elems s' = slice_elems s.
Proof.
  intros Hok HE Hlen Hbytes.
  pose proof Hok as (HE0 & Hl & Hcap & Hmul & Hdata).
  apply slice_elems_intro.
  - now rewrite HE.
  - now rewrite length_slice_elems, Hlen.
  - rewrite HE. intros k x Hx.
    destruct (slice_elems_elim s k x Hok Hx) as (Hk & Hlx & Hb).
    split; [exact Hlx|]. intros j Hj. rewrite <- (Hb j Hj).
    apply Hbytes. now apply offset_lt.
Qed.

Lemma lookup_repeat_lt {A} (x : A) (n i : nat) :
  (i < n)%nat -> repeat x n !! i = Some x.
Proof.
  revert i. induction n as [|n IH]; intros i Hi; [lia|].
  destruct i as [|i]; [reflexivity|]. cbn [repeat]. apply IH. lia.
Qed.

(** X29: when the length plus the additional count is at most [2^63], a
    reserve ends (65 rounds of the doubling loop are enough), leaves a
    capacity of at least that many elements, and keeps the elements and
    the length; a capacity that already suffices is left as it is.  The
    reallocation is assumed to succeed and the new block to fit a
    [size_t]. *)
Theorem slice_reserve_capacity :
  forall (s : Slice) (additional : Z) (j : list byte) (fuel : nat),
    slice_ok s ->
    0 <= additional ->
    sl_len s + additional <= 2 ^ 63 ->
    sl_elem_size s * (2 * (sl_len s + additional)) < 2 ^ 64 ->
    (65 <= fuel)%nat ->
    exists s',
      runtime_slice_reserve fuel (Some s) additional (Some j)
      = Some (Returns s') /\
      slice_ok s' /\
      slice_elems s' = slice_elems s /\
      runtime_slice_len (Some s') = sl_len s /\
      sl_len s + additional <= runtime_slice_cap (Some s') /\
      (sl_len s + additional <= sl_cap s -> s' = s).
Proof.
  intros s additional j fuel Hok Hadd Hneeded HEneeded Hfuel.
  pose proof Hok as (HE & Hlen & Hcap & Hmul & Hdata).
  assert (H63 : 2 ^ 63 = 9223372036854775808) by reflexivity.
  assert (H64 : 2 ^ 64 = 18446744073709551616) by reflexivity.
  unfold runtime_slice_reserve. cbv zeta.
  rewrite (wrap64_small (sl_len s + additional)) by lia.
  destruct (sl_len s + additional >? sl_cap s) eqn:Hgt.
  - rewrite Z.gtb_ltb in Hgt. apply Z.ltb_lt in Hgt.
    destruct (reserve_loop_ends (sl_len s + additional)) with
      (fuel := fuel) (c := sl_cap s) as (c' & Hrun & Hge & Hup & _).
    + lia.
    + lia.
    + assert (Hp : 2 ^ 65 <= 2 ^ Z.of_nat fuel)
        by (apply Z.pow_le_mono_r; lia).
      assert (Hp' : 2 ^ 64 <= 2 ^ (Z.of_nat fuel - 1))
        by (apply Z.pow_le_mono_r; lia).
      replace (2 ^ 65) with 36893488147419103232 in Hp by reflexivity.
      destruct (sl_cap s =? 0) eqn:H0.
      * split; lia.
      * apply Z.eqb_neq in H0.
        assert (1 * 2 ^ Z.of_nat fuel <= sl_cap s * 2 ^ Z.of_nat fuel)
          by (apply Z.mul_le_mono_nonneg_r; lia).
        lia.
    + rewrite Hrun. specialize (Hup Hgt).
      assert (Hblock : 0 <= sl_elem_size s * c'
                       <= sl_elem_size s * (2 * (sl_len s + additional))).
      { split; [apply Z.mul_nonneg_nonneg; lia|].
        apply Z.mul_le_mono_nonneg_l; lia. }
      rewrite wrap64_small by lia.
      eexists. split; [reflexivity|].
      assert (Hgrown : (length (sl_data s)
                        <= Z.to_nat (sl_elem_size s * c'))%nat).
      { assert (sl_elem_size s * sl_cap s <= sl_elem_size s * c')
          by (apply Z.mul_le_mono_nonneg_l; lia).
        lia. }
      split; [|split; [|split; [|split]]].
      * unfold slice_ok, gc_realloc. cbn [sl_data sl_len sl_cap sl_elem_size].
        rewrite length_resize. repeat split; lia.
      * apply slice_elems_same; try assumption; try reflexivity.
        cbn [sl_data]. intros p Hp. unfold gc_realloc.
        rewrite lookup_resize by (rewrite ?length_app; lia).
        now apply lookup_app_l.
      * reflexivity.
      * cbn [runtime_slice_cap sl_cap]. exact Hge.
      * lia.
  - rewrite Z.gtb_ltb in Hgt. apply Z.ltb_ge in Hgt.
    exists s. repeat split; try assumption; try lia.
Qed.

(** X30: a copy is a slice in a fresh block with the same elements, length,
    capacity and element size, and zero bytes behind the elements; the copy
    of a null slice is null. *)
Theorem slice_copy_same_elems :
  forall (s : Slice),
    slice_ok s ->
    (exists s',
       runtime_slice_copy (Some s) = Some s' /\
       slice_ok s' /\
       slice_elems s' = slice_elems s /\
       runtime_slice_len (Some s') = sl_len s /\
       runtime_slice_cap (Some s') = sl_cap s /\
       sl_elem_size s' = sl_elem_size s /\
       forall p : nat,
         sl_elem_size s * sl_len s <= Z.of_nat p
                                   < sl_elem_size s * sl_cap s ->
         sl_data s' !! p = Some x00) /\
    runtime_slice_copy None = None.
Proof.
  intros s Hok.
  pose proof Hok as (HE & Hlen & Hcap & Hmul & Hdata).
  split; [|reflexivity].
  pose proof (offset_bound (sl_len s) (sl_elem_size s) (sl_cap s)) as Hu.
  pose proof (offset_bound (sl_cap s - sl_len s) (sl_elem_size s)
                (sl_cap s)) as Hr.
  rewrite (Z.mul_comm (sl_len s)) in Hu.
  rewrite (Z.mul_comm (sl_cap s - sl_len s)) in Hr.
  set (U := Z.to_nat (sl_elem_size s * sl_len s)).
  set (SZ := Z.to_nat (sl_elem_size s * sl_cap s)).
  set (R := Z.to_nat (sl_elem_size s * (sl_cap s - sl_len s))).
  set (d1 := list_inserts 0 (take U (sl_data s)) (repeat x00 SZ)).
  exists (mkSlice (if sl_len s <? sl_cap s
                   then list_inserts U (repeat x00 R) d1 else d1)
            (sl_len s) (sl_cap s) (sl_elem_size s)).
  assert (HU : (U <= SZ)%nat) by lia.
  assert (HR : sl_len s < sl_cap s -> (U + R)%nat = SZ).
  { intros Hroom. unfold U, R, SZ. rewrite <- Z2Nat.inj_add by lia.
    f_equal. lia. }
  assert (Hl1 : length d1 = SZ)
    by (unfold d1; now rewrite length_inserts, repeat_length).
  assert (Hlu : length (take U (sl_data s)) = U)
    by (rewrite length_take; lia).
  split; [|split; [|split; [|split; [|split; [|split]]]]].
  - unfold runtime_slice_copy. cbv zeta.
    rewrite (wrap64_small (sl_elem_size s * sl_cap s)) by lia.
    rewrite (wrap64_small (sl_elem_size s * sl_len s)) by lia.
    rewrite (wrap64_small (sl_cap s - sl_len s)) by lia.
    rewrite (wrap64_small (sl_elem_size s * (sl_cap s - sl_len s))) by lia.
    unfold memcpy_into, memset_into.
    change (0 <? 0) with false.
    replace (sl_elem_size s * sl_len s <? 0) with false
      by (symmetry; apply Z.ltb_ge; lia).
    reflexivity.
  - unfold slice_ok. cbn [sl_data sl_len sl_cap sl_elem_size].
    destruct (sl_len s <? sl_cap s);
      rewrite ?length_inserts, Hl1; repeat split; lia.
  - apply slice_elems_used; try assumption; try reflexivity.
    cbn [sl_data]. intros p Hp.
    assert (HpU : (p < U)%nat).
    { unfold U. rewrite Z2Nat.inj_mul by lia. lia. }
    assert (Hd1 : d1 !! p = sl_data s !! p).
    { unfold d1.
      rewrite list_lookup_inserts by (rewrite ?Hlu, ?repeat_length; lia).
      rewrite lookup_take_lt by lia. f_equal. lia. }
    destruct (sl_len s <? sl_cap s); [|exact Hd1].
    rewrite list_lookup_inserts_lt by exact HpU. exact Hd1.
  - reflexivity.
  - reflexivity.
  - reflexivity.
  - cbn [sl_data]. intros p Hp.
    destruct (sl_len s <? sl_cap s) eqn:Hroom.
    + apply Z.ltb_lt in Hroom. specialize (HR Hroom).
      rewrite list_lookup_inserts
        by (rewrite ?repeat_length, ?Hl1; lia).
      apply lookup_repeat_lt. lia.
    + apply Z.ltb_ge in Hroom. assert (sl_len s = sl_cap s) by lia.
      exfalso. rewrite H in Hp. lia.
Qed.

(** ** The further properties on concrete states *)

Lemma full_channel_world_holds : holds 1 1 1 full_channel_world 0 [[x05]].
Proof.
  exists full_channel. split; [vm_compute; reflexivity|].
  split; [|split; reflexivity].
  split; [lia|]. split.
  - unfold counters_ok. simpl. repeat split; lia.
  - unfold buffer_ok. simpl. repeat split; lia.
Defined.

Lemma empty_channel_world_holds : holds 1 1 1 empty_channel_world 0 [].
Proof.
  exists empty_channel. split; [vm_compute; reflexivity|].
  split; [|split; reflexivity].
  split; [lia|]. split.
  - unfold counters_ok. simpl. repeat split; lia.
  - unfold buffer_ok. simpl. repeat split; lia.
Defined.

Lemma worker0_full_world_holds : holds 1 1 1 worker0_full_world 0 [[x05]].
Proof.
  exists (mkChannel [x05] 1 1 0 0 1 0 None None).
  split; [vm_compute; reflexivity|].
  split; [|split; reflexivity].
  split; [lia|]. split.
  - unfold counters_ok. simpl. repeat split; lia.
  - unfold buffer_ok. simpl. repeat split; lia.
Defined.

Lemma worker0_empty_world_holds : holds 1 1 1 worker0_empty_world 0 [].
Proof.
  exists (mkChannel [x00] 1 1 0 0 0 0 None None).
  split; [vm_compute; reflexivity|].
  split; [|split; reflexivity].
  split; [lia|]. split.
  - unfold counters_ok. simpl. repeat split; lia.
  - unfold buffer_ok. simpl. repeat split; lia.
Defined.

(** X1 on the queue of worker 1 that holds legion 7: legion 9 goes behind it. *)
Lemma push_to_local_queue_appends_witness :
  (sched_wf one_legion_scheduler /\
   0 <= 1 < MAX_OS_THREADS /\
   queue_full 1 one_legion_scheduler = false) /\
  (exists s',
     push_to_local_queue 1 (Some 9%nat) one_legion_scheduler = (s', 1) /\
     sched_wf s' /\
     queue_contents 1 s' = queue_contents 1 one_legion_scheduler ++ [(Some 9%nat)] /\
     (forall t', t' <> 1 -> queue_contents t' s' = queue_contents t' one_legion_scheduler) /\
     s_active_legions s' = s_active_legions one_legion_scheduler /\
     s_current_legion s' = s_current_legion one_legion_scheduler).
Proof.
  assert (H1 : sched_wf one_legion_scheduler) by by_evaluation.
  assert (H2 : 0 <= 1 < MAX_OS_THREADS) by (unfold MAX_OS_THREADS; lia).
  assert (H3 : queue_full 1 one_legion_scheduler = false) by (vm_compute; reflexivity).
  split; [exact (conj H1 (conj H2 H3))|].
  exact (push_to_local_queue_appends one_legion_scheduler 1 (Some 9%nat) H1 H2 H3).
Defined.

(** X2 on the full queue of worker 0. *)
Lemma push_to_local_queue_full_witness :
  (sched_wf full_scheduler /\
   0 <= 0 < MAX_OS_THREADS) /\
  ((length (queue_contents 0 full_scheduler) <= 255)%nat /\
   (queue_full 0 full_scheduler = true <-> length (queue_contents 0 full_scheduler) = 255%nat) /\
   (queue_full 0 full_scheduler = true -> push_to_local_queue 0 (Some 5000%nat) full_scheduler = (full_scheduler, 0))).
Proof.
  assert (H1 : sched_wf full_scheduler) by by_evaluation.
  assert (H2 : 0 <= 0 < MAX_OS_THREADS) by (unfold MAX_OS_THREADS; lia).
  split; [exact (conj H1 H2)|].
  exact (push_to_local_queue_full full_scheduler 0 (Some 5000%nat) H1 H2).
Defined.

(** X3 on the queue of worker 1 that holds legion 7. *)
Lemma pop_from_local_queue_fifo_witness :
  (sched_wf one_legion_scheduler /\
   0 <= 1 < MAX_OS_THREADS) /\
  (match queue_contents 1 one_legion_scheduler with
   | [] => pop_from_local_queue 1 one_legion_scheduler = (one_legion_scheduler, None)
   | x :: rest =>
       exists s',
         pop_from_local_queue 1 one_legion_scheduler = (s', x) /\
         sched_wf s' /\
         queue_contents 1 s' = rest /\
         (forall t', t' <> 1 -> queue_contents t' s' = queue_contents t' one_legion_scheduler)
   end).
Proof.
  assert (H1 : sched_wf one_legion_scheduler) by by_evaluation.
  assert (H2 : 0 <= 1 < MAX_OS_THREADS) by (unfold MAX_OS_THREADS; lia).
  split; [exact (conj H1 H2)|].
  exact (pop_from_local_queue_fifo one_legion_scheduler 1 H1 H2).
Defined.

(** X5 with legion 7 on the queue of worker 1, compared with worker 1. *)
Lemma find_least_loaded_thread_minimal_witness :
  (0 <= 1 < MAX_OS_THREADS) /\
  (let best := find_least_loaded_thread one_legion_scheduler in
   0 <= best < MAX_OS_THREADS /\
   get_queue_length best one_legion_scheduler <= get_queue_length 1 one_legion_scheduler /\
   (get_queue_length 1 one_legion_scheduler = get_queue_length best one_legion_scheduler -> best <= 1)).
Proof.
  assert (H1 : 0 <= 1 < MAX_OS_THREADS) by (unfold MAX_OS_THREADS; lia).
  split; [exact H1|].
  exact (find_least_loaded_thread_minimal one_legion_scheduler 1 H1).
Defined.

(** X6 for worker 0 while legion 7 waits on the queue of worker 1. *)
Lemma find_work_takes_first_nonempty_witness :
  (sched_wf one_legion_scheduler /\
   0 <= 0 < MAX_OS_THREADS) /\
  ((Forall (fun u => queue_contents u one_legion_scheduler = []) (search_order 0) ->
    find_work 0 one_legion_scheduler = (one_legion_scheduler, None)) /\
   (forall pre u post l rest,
      search_order 0 = pre ++ u :: post ->
      Forall (fun v => queue_contents v one_legion_scheduler = []) pre ->
      queue_contents u one_legion_scheduler = Some l :: rest ->
      exists s',
        find_work 0 one_legion_scheduler = (s', Some l) /\
        sched_wf s' /\
        queue_contents u s' = rest /\
        (forall v, v <> u -> queue_contents v s' = queue_contents v one_legion_scheduler))).
Proof.
  assert (H1 : sched_wf one_legion_scheduler) by by_evaluation.
  assert (H2 : 0 <= 0 < MAX_OS_THREADS) by (unfold MAX_OS_THREADS; lia).
  split; [exact (conj H1 H2)|].
  exact (find_work_takes_first_nonempty one_legion_scheduler 0 H1 H2).
Defined.

(** X7 for legion 7 under the idle scheduler. *)
Lemma runtime_legion_start_appends_witness :
  (g_scheduler two_legions_world = Some idle_scheduler /\
   sched_wf idle_scheduler /\
   queue_full (find_least_loaded_thread idle_scheduler) idle_scheduler = false) /\
  (exists s',
     runtime_legion_start (Some 7%nat) two_legions_world = set_g_scheduler (Some s') two_legions_world /\
     sched_wf s' /\
     queue_contents (find_least_loaded_thread idle_scheduler) s'
     = queue_contents (find_least_loaded_thread idle_scheduler) idle_scheduler ++ [Some 7%nat] /\
     (forall t, t <> find_least_loaded_thread idle_scheduler ->
                queue_contents t s' = queue_contents t idle_scheduler) /\
     s_active_legions s' = wrap_int (s_active_legions idle_scheduler + 1)).
Proof.
  assert (H1 : g_scheduler two_legions_world = Some idle_scheduler) by (vm_compute; reflexivity).
  assert (H2 : sched_wf idle_scheduler) by by_evaluation.
  assert (H3 : queue_full (find_least_loaded_thread idle_scheduler) idle_scheduler = false) by (vm_compute; reflexivity).
  split; [exact (conj H1 (conj H2 H3))|].
  exact (runtime_legion_start_appends two_legions_world idle_scheduler 7%nat H1 H2 H3).
Defined.

(** X8 for legion 7 as the current legion of worker 1, and for legion 7 as
    the current legion of worker 0. *)
Lemma runtime_legion_yield_requeues_witness :
  (exists (s : Scheduler) (L : Legion),
     (g_scheduler full_channel_world = Some s /\
      sched_wf s /\
      0 <= 1 < MAX_OS_THREADS /\
      zlookup (s_current_legion s) 1 = Some (Some 7%nat) /\
      legions full_channel_world !! 7%nat = Some L /\
      queue_full 1 s = false) /\
     exists s' L',
       g_scheduler (runtime_legion_yield (set_thread_id 1) full_channel_world)
       = Some s' /\
       queue_contents 1 s' = queue_contents 1 s ++ [Some 7%nat] /\
       (forall u, u <> 1 -> queue_contents u s' = queue_contents u s) /\
       s_active_legions s' = s_active_legions s /\
       legions (runtime_legion_yield (set_thread_id 1) full_channel_world)
         !! 7%nat = Some L' /\
       l_state L' = LEGION_STATE_RUNNABLE /\
       l_thread_id L' = -1 /\
       runtime_get_current_legion (set_thread_id 1)
         (runtime_legion_yield (set_thread_id 1) full_channel_world) = None /\
       channels (runtime_legion_yield (set_thread_id 1) full_channel_world)
       = channels full_channel_world) /\
  (exists (s : Scheduler) (L : Legion),
     (g_scheduler worker0_full_world = Some s /\
      sched_wf s /\
      0 <= 0 < MAX_OS_THREADS /\
      zlookup (s_current_legion s) 0 = Some (Some 7%nat) /\
      legions worker0_full_world !! 7%nat = Some L /\
      queue_full 0 s = false) /\
     runtime_get_current_legion (set_thread_id 0) worker0_full_world = None /\
     runtime_legion_yield (set_thread_id 0) worker0_full_world
     = worker0_full_world).
Proof.
  split.
  - assert (H : exists (s : Scheduler) (L : Legion),
              g_scheduler full_channel_world = Some s /\
              sched_wf s /\
              0 <= 1 < MAX_OS_THREADS /\
              zlookup (s_current_legion s) 1 = Some (Some 7%nat) /\
              legions full_channel_world !! 7%nat = Some L /\
              queue_full 1 s = false).
    { eexists _, _.
      split; [vm_compute; reflexivity|].
      split; [by_evaluation|].
      split; [unfold MAX_OS_THREADS; lia|].
      split; [vm_compute; reflexivity|].
      split; [vm_compute; reflexivity|].
      vm_compute; reflexivity. }
    destruct H as (s & L & H1 & H2 & H3 & H4 & H5 & H6).
    assert (Hpos : 0 < 1) by lia.
    exists s, L.
    split; [exact (conj H1 (conj H2 (conj H3 (conj H4 (conj H5 H6)))))|].
    exact (proj1 (runtime_legion_yield_requeues 1 full_channel_world s
                    7%nat L H1 H2 H3 H4 H5 H6) Hpos).
  - assert (H : exists (s : Scheduler) (L : Legion),
              g_scheduler worker0_full_world = Some s /\
              sched_wf s /\
              0 <= 0 < MAX_OS_THREADS /\
              zlookup (s_current_legion s) 0 = Some (Some 7%nat) /\
              legions worker0_full_world !! 7%nat = Some L /\
              queue_full 0 s = false).
    { eexists _, _.
      split; [vm_compute; reflexivity|].
      split; [by_evaluation|].
      split; [unfold MAX_OS_THREADS; lia|].
      split; [vm_compute; reflexivity|].
      split; [vm_compute; reflexivity|].
      vm_compute; reflexivity. }
    destruct H as (s & L & H1 & H2 & H3 & H4 & H5 & H6).
    exists s, L.
    split; [exact (conj H1 (conj H2 (conj H3 (conj H4 (conj H5 H6)))))|].
    exact (proj2 (runtime_legion_yield_requeues 0 worker0_full_world s
                    7%nat L H1 H2 H3 H4 H5 H6) eq_refl).
Defined.

(** X9 under a scheduler, for legion 7 on worker 1, and with no scheduler. *)
Lemma runtime_legion_yield_outside_legion_witness :
  (g_scheduler full_channel_world <> None /\
   (runtime_get_current_legion 1 full_channel_world = None ->
    runtime_legion_yield 1 full_channel_world = full_channel_world) /\
   runtime_get_current_legion 1
     (runtime_legion_block 1 (Some 7%nat) (Some 1%nat) full_channel_world)
   = None /\
   runtime_legion_yield 1
     (runtime_legion_block 1 (Some 7%nat) (Some 1%nat) full_channel_world)
   = runtime_legion_block 1 (Some 7%nat) (Some 1%nat) full_channel_world) /\
  (g_scheduler empty_world = None /\
   fault (runtime_legion_yield 1 empty_world) = true /\
   fault (runtime_legion_block 1 (Some 7%nat) (Some 1%nat) empty_world)
   = true /\
   legions (runtime_legion_block 1 (Some 7%nat) (Some 1%nat) empty_world)
   = legions empty_world).
Proof.
  assert (H1 : g_scheduler full_channel_world <> None)
    by (vm_compute; discriminate).
  assert (H2 : g_scheduler empty_world = None) by reflexivity.
  split.
  - split; [exact H1|].
    exact (proj1 (runtime_legion_yield_outside_legion 1 full_channel_world
                    7%nat (Some 1%nat)) H1).
  - split; [exact H2|].
    exact (proj2 (runtime_legion_yield_outside_legion 1 empty_world
                    7%nat (Some 1%nat)) H2).
Defined.

(** X10 for legion 7 blocking on the channel at address 1. *)
Lemma runtime_legion_block_effect_witness :
  exists (s : Scheduler) (L : Legion),
    (g_scheduler full_channel_world = Some s /\
     legions full_channel_world !! 7%nat = Some L) /\
    (exists s' L',
       g_scheduler (runtime_legion_block 1 (Some 7%nat) (Some 1%nat) full_channel_world) = Some s' /\
       legions (runtime_legion_block 1 (Some 7%nat) (Some 1%nat) full_channel_world) !! 7%nat = Some L' /\
       l_state L' = LEGION_STATE_BLOCKED /\
       l_blocked_on L' = (Some 1%nat) /\
       l_next L' = l_next L /\
       s_active_legions s' = wrap_int (s_active_legions s - 1) /\
       (forall t, queue_contents t s' = queue_contents t s) /\
       channels (runtime_legion_block 1 (Some 7%nat) (Some 1%nat) full_channel_world) = channels full_channel_world /\
       (forall l', 7%nat <> l' ->
          legions (runtime_legion_block 1 (Some 7%nat) (Some 1%nat) full_channel_world) !! l'
          = legions full_channel_world !! l')).
Proof.
  assert (H : exists (s : Scheduler) (L : Legion),
            g_scheduler full_channel_world = Some s /\
            legions full_channel_world !! 7%nat = Some L).
  { eexists _, _.
    split; [vm_compute; reflexivity|].
    vm_compute; reflexivity. }
  destruct H as (s & L & H1 & H2).
  exists s, L. split; [exact (conj H1 H2)|].
  exact (runtime_legion_block_effect 1 full_channel_world s 7%nat L (Some 1%nat) H1 H2).
Defined.

(** X11 for legion 8, which is parked in a send. *)
Lemma runtime_legion_unblock_requeues_witness :
  exists (s : Scheduler) (L : Legion),
    (g_scheduler full_channel_world = Some s /\
     sched_wf s /\
     legions full_channel_world !! 8%nat = Some L /\
     l_state L = LEGION_STATE_BLOCKED /\
     queue_full (find_least_loaded_thread s) s = false) /\
    (exists s' L',
       g_scheduler (runtime_legion_unblock (Some 8%nat) full_channel_world) = Some s' /\
       legions (runtime_legion_unblock (Some 8%nat) full_channel_world) !! 8%nat = Some L' /\
       l_state L' = LEGION_STATE_RUNNABLE /\
       l_blocked_on L' = None /\
       l_next L' = l_next L /\
       queue_contents (find_least_loaded_thread s) s'
       = queue_contents (find_least_loaded_thread s) s ++ [Some 8%nat] /\
       s_active_legions s' = wrap_int (wrap_int (s_active_legions s + 1) + 1) /\
       unblock_legion_from_channel (Some 8%nat) full_channel_world
       = runtime_legion_unblock (Some 8%nat) full_channel_world).
Proof.
  assert (H : exists (s : Scheduler) (L : Legion),
            g_scheduler full_channel_world = Some s /\
            sched_wf s /\
            legions full_channel_world !! 8%nat = Some L /\
            l_state L = LEGION_STATE_BLOCKED /\
            queue_full (find_least_loaded_thread s) s = false).
  { eexists _, _.
    split; [vm_compute; reflexivity|].
    split; [by_evaluation|].
    split; [vm_compute; reflexivity|].
    split; [vm_compute; reflexivity|].
    vm_compute; reflexivity. }
  destruct H as (s & L & H1 & H2 & H3 & H4 & H5).
  exists s, L. split; [exact (conj H1 (conj H2 (conj H3 (conj H4 H5))))|].
  exact (runtime_legion_unblock_requeues full_channel_world s 8%nat L H1 H2 H3 H4 H5).
Defined.

(** X12 for the spawned legion 7 dispatched on worker 1. *)
Lemma dispatch_makes_current_witness :
  exists (L : Legion),
    (g_scheduler two_legions_world = Some idle_scheduler /\
     length (s_current_legion idle_scheduler) = 4%nat /\
     0 <= 1 < MAX_OS_THREADS /\
     legions two_legions_world !! 7%nat = Some L /\
     l_state L = LEGION_STATE_RUNNABLE) /\
    (exists L',
       legions (dispatch 1 (Some 7%nat) two_legions_world) !! 7%nat = Some L' /\
       l_state L' = LEGION_STATE_RUNNING /\
       l_thread_id L' = 1 /\
       runtime_get_current_legion (set_thread_id 1) (dispatch 1 (Some 7%nat) two_legions_world)
       = (if 1 =? 0 then None else Some 7%nat)).
Proof.
  assert (H : exists (L : Legion),
            g_scheduler two_legions_world = Some idle_scheduler /\
            length (s_current_legion idle_scheduler) = 4%nat /\
            0 <= 1 < MAX_OS_THREADS /\
            legions two_legions_world !! 7%nat = Some L /\
            l_state L = LEGION_STATE_RUNNABLE).
  { eexists _.
    split; [vm_compute; reflexivity|].
    split; [reflexivity|].
    split; [unfold MAX_OS_THREADS; lia|].
    split; [vm_compute; reflexivity|].
    reflexivity. }
  destruct H as (L & H1 & H2 & H3 & H4 & H5).
  exists L. split; [exact (conj H1 (conj H2 (conj H3 (conj H4 H5))))|].
  exact (dispatch_makes_current two_legions_world idle_scheduler 1 7%nat L H1 H2 H3 H4 H5).
Defined.

(** X13 on a new channel of capacity 2. *)
Lemma try_send_behaviour_witness :
  (2 < 2 ^ 64 /\
   holds 1 2 1%nat fresh_channel_world 0 (@nil (list byte)) /\
   Z.of_nat (length [x09]) = 1) /\
  ((0 = 0 -> (length (@nil (list byte)) < Z.to_nat 2)%nat ->
    exists w',
      runtime_channel_try_send (Some 1%nat) [x09] fresh_channel_world = (w', 1) /\
      holds 1 2 1%nat w' 0 ((@nil (list byte)) ++ [[x09]]) /\
      legions w' = legions fresh_channel_world /\
      g_scheduler w' = g_scheduler fresh_channel_world) /\
   (0 <> 0 \/ (Z.to_nat 2 <= length (@nil (list byte)))%nat ->
    runtime_channel_try_send (Some 1%nat) [x09] fresh_channel_world = (fresh_channel_world, 0))).
Proof.
  assert (H1 : 2 < 2 ^ 64) by lia.
  assert (H2 : holds 1 2 1%nat fresh_channel_world 0 (@nil (list byte))) by (apply holds_new; lia).
  assert (H3 : Z.of_nat (length [x09]) = 1) by reflexivity.
  split; [exact (conj H1 (conj H2 H3))|].
  exact (try_send_behaviour 1 2 1%nat fresh_channel_world 0 (@nil (list byte)) [x09] H1 H2 H3).
Defined.

(** X14 on the closed channel that still buffers 1 and 2. *)
Lemma try_recv_behaviour_witness :
  (2 < 2 ^ 64 /\
   holds 1 2 1%nat closed_channel_world 1 [[x01]; [x02]]) /\
  (match [[x01]; [x02]] with
   | v :: q' =>
       exists w',
         runtime_channel_try_recv (Some 1%nat) true closed_channel_world
         = (w', 1, Written (Some v)) /\
         holds 1 2 1%nat w' 1 q' /\
         legions w' = legions closed_channel_world /\
         g_scheduler w' = g_scheduler closed_channel_world
   | [] =>
       runtime_channel_try_recv (Some 1%nat) true closed_channel_world
       = (closed_channel_world, 0, if 1 =? 0 then NotWritten else Written None)
   end).
Proof.
  assert (H1 : 2 < 2 ^ 64) by lia.
  assert (H2 : holds 1 2 1%nat closed_channel_world 1 [[x01]; [x02]]) by (exact closed_channel_world_holds).
  split; [exact (conj H1 H2)|].
  exact (try_recv_behaviour 1 2 1%nat closed_channel_world 1 [[x01]; [x02]] H1 H2).
Defined.

(** X15 for legion 7 on worker 1, which parks in a send on the full channel
    and in a recv on the empty channel, and for legion 7 on worker 0, which
    waits on the condition variable. *)
Lemma full_send_and_empty_recv_block_witness :
  (holds 1 1 1 full_channel_world 0 [[x05]] /\
   (Z.to_nat 1 <= length [[x05]])%nat /\
   runtime_get_current_legion 1 full_channel_world = Some 7%nat /\
   exists w',
     runtime_channel_send 1 (Some 1%nat) [x07] full_channel_world
     = (w', SendParked) /\
     holds 1 1 1 w' 0 [[x05]]) /\
  (holds 1 1 1 empty_channel_world 0 [] /\
   runtime_get_current_legion 1 empty_channel_world = Some 7%nat /\
   exists w',
     runtime_channel_recv 1 (Some 1%nat) empty_channel_world
     = (w', RecvParked) /\
     holds 1 1 1 w' 0 []) /\
  (holds 1 1 1 worker0_full_world 0 [[x05]] /\
   runtime_channel_send (set_thread_id 0) (Some 1%nat) [x07]
     worker0_full_world
   = (worker0_full_world, SendCondWait)) /\
  (holds 1 1 1 worker0_empty_world 0 [] /\
   runtime_channel_recv (set_thread_id 0) (Some 1%nat) worker0_empty_world
   = (worker0_empty_world, RecvCondWait)).
Proof.
  assert (Hlen : (Z.to_nat 1 <= length [[x05]])%nat) by (simpl; lia).
  assert (Hcur1 : runtime_get_current_legion 1 full_channel_world
                  = Some 7%nat) by (vm_compute; reflexivity).
  assert (Hcur2 : runtime_get_current_legion 1 empty_channel_world
                  = Some 7%nat) by (vm_compute; reflexivity).
  split; [|split; [|split]].
  - split; [exact full_channel_world_holds|]. split; [exact Hlen|].
    split; [exact Hcur1|].
    exact (proj1 (proj1 (full_send_and_empty_recv_block 1 1 1%nat 1
                           full_channel_world [[x05]] [x07]
                           full_channel_world_holds) Hlen) 7%nat Hcur1).
  - split; [exact empty_channel_world_holds|]. split; [exact Hcur2|].
    exact (proj1 (proj2 (full_send_and_empty_recv_block 1 1 1%nat 1
                           empty_channel_world [] [x07]
                           empty_channel_world_holds) eq_refl)
             7%nat Hcur2).
  - split; [exact worker0_full_world_holds|].
    exact (proj2 (proj2 (proj1 (full_send_and_empty_recv_block 1 1 1%nat 1
                                  worker0_full_world [[x05]] [x07]
                                  worker0_full_world_holds) Hlen))).
  - split; [exact worker0_empty_world_holds|].
    exact (proj2 (proj2 (proj2 (full_send_and_empty_recv_block 1 1 1%nat 1
                                  worker0_empty_world [] [x07]
                                  worker0_empty_world_holds) eq_refl))).
Defined.

(** X17 for operations on the channel at address 1 while another channel
    lives at address 2. *)
Lemma channel_ops_leave_other_channels_witness :
  (1%nat <> 2%nat /\
   exists c, channels two_channels_world !! 2%nat = Some c) /\
  channels
    (run_ops (Some 1%nat)
       [OpTrySend [x09]; OpSend 0 [x0a]; OpRecv 0; OpTryRecv true; OpClose]
       two_channels_world) !! 2%nat
  = channels two_channels_world !! 2%nat.
Proof.
  assert (H1 : 1%nat <> 2%nat) by lia.
  assert (H2 : exists c, channels two_channels_world !! 2%nat = Some c)
    by (eexists; vm_compute; reflexivity).
  split; [exact (conj H1 H2)|].
  exact (channel_ops_leave_other_channels 1%nat 2%nat
           [OpTrySend [x09]; OpSend 0 [x0a]; OpRecv 0; OpTryRecv true;
            OpClose]
           two_channels_world H1).
Defined.

(** X19 on the strings ab and cd. *)
Lemma runtime_string_concat_bytes_witness :
  (string_ok str_ab /\
   string_ok str_cd /\
   str_len str_ab + str_len str_cd + 1 < 2 ^ 64) /\
  (let r := runtime_string_concat (Some str_ab) (Some str_cd) in
   str_len r = str_len str_ab + str_len str_cd /\
   str_bytes r = str_bytes str_ab ++ str_bytes str_cd /\
   default [] (str_data r) !! Z.to_nat (str_len r) = Some x00 /\
   string_ok r /\
   str_bytes (runtime_string_concat None (Some str_cd)) = str_bytes str_cd /\
   str_bytes (runtime_string_concat (Some str_ab) None) = str_bytes str_ab /\
   str_bytes (runtime_string_concat None None) = []).
Proof.
  assert (H1 : string_ok str_ab) by (split; [by_evaluation|eexists; split; [vm_compute; reflexivity|by_evaluation]]).
  assert (H2 : string_ok str_cd) by (split; [by_evaluation|eexists; split; [vm_compute; reflexivity|by_evaluation]]).
  assert (H3 : str_len str_ab + str_len str_cd + 1 < 2 ^ 64) by by_evaluation.
  split; [exact (conj H1 (conj H2 H3))|].
  exact (runtime_string_concat_bytes str_ab str_cd H1 H2 H3).
Defined.

(** X20 on a new map: the key ab is found again, and the empty string is not
    found under the key of length 0 with a null data block. *)
Lemma hashmap_get_after_put_same_witness :
  (hashmap_ok false runtime_hashmap_new /\
   string_ok str_ab /\
   string_ok str_ab /\
   string_equal (Some str_ab) (Some str_ab) <> 0) /\
  (exists m',
     runtime_hashmap_put false (Some runtime_hashmap_new) (Some str_ab)
       (Some 5%nat) = Some m' /\
     runtime_hashmap_get false (Some m') (Some str_ab) = Some 5%nat /\
     runtime_hashmap_contains_key false (Some m') (Some str_ab) = 1) /\
  (string_ok str_empty /\
   str_len str_empty = 0 /\
   exists m0,
     runtime_hashmap_put false (Some runtime_hashmap_new)
       (Some (mkString 0 None)) (Some 5%nat) = Some m0 /\
     runtime_string_equal (Some (mkString 0 None)) (Some str_empty) = 1 /\
     runtime_hashmap_contains_key false (Some m0) (Some (mkString 0 None))
     = 1 /\
     runtime_hashmap_contains_key false (Some m0) (Some str_empty) = 0 /\
     runtime_hashmap_get false (Some m0) (Some str_empty) = None).
Proof.
  assert (H1 : hashmap_ok false runtime_hashmap_new)
    by (apply hashmap_new_ok).
  assert (H2 : string_ok str_ab)
    by (split; [by_evaluation|eexists; split;
        [vm_compute; reflexivity|by_evaluation]]).
  assert (H3 : string_equal (Some str_ab) (Some str_ab) <> 0)
    by by_evaluation.
  assert (H4 : string_ok str_empty)
    by (split; [by_evaluation|eexists; split;
        [vm_compute; reflexivity|by_evaluation]]).
  assert (H5 : str_len str_empty = 0) by reflexivity.
  assert (H6 : exists m0,
            runtime_hashmap_put false (Some runtime_hashmap_new)
              (Some (mkString 0 None)) (Some 5%nat) = Some m0)
    by (eexists; vm_compute; reflexivity).
  split; [exact (conj H1 (conj H2 (conj H2 H3)))|].
  split.
  - exact (proj1 (hashmap_get_after_put_same false runtime_hashmap_new
                    str_ab str_ab (Some 5%nat) H1 H2 H2 H3)).
  - split; [exact H4|]. split; [exact H5|].
    destruct H6 as (m0 & H6). exists m0. split; [exact H6|].
    exact (proj2 (hashmap_get_after_put_same false runtime_hashmap_new
                    str_ab str_ab (Some 5%nat) H1 H2 H2 H3)
             str_empty m0 H4 H5 H6).
Defined.

(** X21 on a new map and the keys ab and cd. *)
Lemma hashmap_get_after_put_other_witness :
  (hashmap_ok false runtime_hashmap_new /\
   string_equal (Some str_ab) (Some str_cd) = 0) /\
  (exists m',
     runtime_hashmap_put false (Some runtime_hashmap_new) (Some str_ab) (Some 5%nat) = Some m' /\
     runtime_hashmap_get false (Some m') (Some str_cd)
     = runtime_hashmap_get false (Some runtime_hashmap_new) (Some str_cd) /\
     runtime_hashmap_contains_key false (Some m') (Some str_cd)
     = runtime_hashmap_contains_key false (Some runtime_hashmap_new) (Some str_cd)).
Proof.
  assert (H1 : hashmap_ok false runtime_hashmap_new) by (apply hashmap_new_ok).
  assert (H2 : string_equal (Some str_ab) (Some str_cd) = 0) by (vm_compute; reflexivity).
  split; [exact (conj H1 H2)|].
  exact (hashmap_get_after_put_other false runtime_hashmap_new str_ab str_cd (Some 5%nat) H1 H2).
Defined.

(** X22 on a new map and the key ab. *)
Lemma hashmap_put_size_witness :
  (hashmap_ok false runtime_hashmap_new /\
   hm_size runtime_hashmap_new + 1 < 2 ^ 64) /\
  (exists m',
     runtime_hashmap_put false (Some runtime_hashmap_new) (Some str_ab) (Some 5%nat) = Some m' /\
     hashmap_ok false m' /\
     runtime_hashmap_len (Some m')
     = runtime_hashmap_len (Some runtime_hashmap_new)
       + (1 - runtime_hashmap_contains_key false (Some runtime_hashmap_new) (Some str_ab)) /\
     runtime_hashmap_is_empty (Some m') = 0).
Proof.
  assert (H1 : hashmap_ok false runtime_hashmap_new) by (apply hashmap_new_ok).
  assert (H2 : hm_size runtime_hashmap_new + 1 < 2 ^ 64) by by_evaluation.
  split; [exact (conj H1 H2)|].
  exact (hashmap_put_size false runtime_hashmap_new str_ab (Some 5%nat) H1 H2).
Defined.

(** X23 on three two-byte elements, index 1. *)
Lemma slice_set_then_get_witness :
  (slice_ok three_pairs /\
   0 <= 1 /\
   Z.of_nat (length [x0a; x0b]) = sl_elem_size three_pairs) /\
  ((1 < sl_len three_pairs ->
    exists s' off,
      runtime_slice_set (Some three_pairs) 1 [x0a; x0b] = Returns s' /\
      slice_ok s' /\
      sl_len s' = sl_len three_pairs /\
      slice_elems s' = <[Z.to_nat 1 := [x0a; x0b]]> (slice_elems three_pairs) /\
      runtime_slice_get (Some s') 1 = Returns off /\
      slice_deref s' off = [x0a; x0b]) /\
   (sl_len three_pairs <= 1 ->
    runtime_slice_set (Some three_pairs) 1 [x0a; x0b] = Aborts /\
    runtime_slice_get (Some three_pairs) 1 = Aborts) /\
   runtime_slice_set None 1 [x0a; x0b] = Aborts /\
   runtime_slice_get None 1 = Aborts).
Proof.
  assert (H1 : slice_ok three_pairs) by by_evaluation.
  assert (H2 : 0 <= 1) by lia.
  assert (H3 : Z.of_nat (length [x0a; x0b]) = sl_elem_size three_pairs) by reflexivity.
  split; [exact (conj H1 (conj H2 H3))|].
  exact (slice_set_then_get three_pairs 1 [x0a; x0b] H1 H2 H3).
Defined.

(** X24 on a full slice of three two-byte elements. *)
Lemma slice_push_appends_witness :
  (slice_ok three_pairs /\
   Z.of_nat (length [x07; x08]) = sl_elem_size three_pairs /\
   2 * sl_cap three_pairs < 2 ^ 64 /\
   sl_elem_size three_pairs * (2 * sl_cap three_pairs) < 2 ^ 64 /\
   sl_elem_size three_pairs < 2 ^ 64) /\
  (exists s',
     runtime_slice_push (Some three_pairs) [x07; x08] (Some (@nil byte)) = Returns s' /\
     slice_ok s' /\
     slice_elems s' = slice_elems three_pairs ++ [[x07; x08]] /\
     runtime_slice_len (Some s') = sl_len three_pairs + 1 /\
     runtime_slice_cap (Some s')
     = (if sl_len three_pairs <? sl_cap three_pairs then sl_cap three_pairs
        else if sl_cap three_pairs =? 0 then 1 else 2 * sl_cap three_pairs)).
Proof.
  assert (H1 : slice_ok three_pairs) by by_evaluation.
  assert (H2 : Z.of_nat (length [x07; x08]) = sl_elem_size three_pairs) by reflexivity.
  assert (H3 : 2 * sl_cap three_pairs < 2 ^ 64) by by_evaluation.
  assert (H4 : sl_elem_size three_pairs * (2 * sl_cap three_pairs) < 2 ^ 64) by by_evaluation.
  assert (H5 : sl_elem_size three_pairs < 2 ^ 64) by by_evaluation.
  split; [exact (conj H1 (conj H2 (conj H3 (conj H4 H5))))|].
  exact (slice_push_appends three_pairs [x07; x08] (@nil byte) H1 H2 H3 H4 H5).
Defined.

(** X25 on three two-byte elements. *)
Lemma slice_pop_takes_last_witness :
  (slice_ok three_pairs) /\
  ((sl_len three_pairs = 0 -> runtime_slice_pop (Some three_pairs) = (Some three_pairs, None)) /\
   (sl_len three_pairs <> 0 ->
    exists s' last,
      runtime_slice_pop (Some three_pairs) = (Some s', Some last) /\
      slice_ok s' /\
      slice_elems three_pairs = slice_elems s' ++ [last] /\
      runtime_slice_len (Some s') = sl_len three_pairs - 1 /\
      runtime_slice_cap (Some s') = sl_cap three_pairs) /\
   runtime_slice_pop None = (None, None)).
Proof.
  assert (H1 : slice_ok three_pairs) by by_evaluation.
  split; [exact H1|].
  exact (slice_pop_takes_last three_pairs H1).
Defined.

(** X26 on three two-byte elements, index 1. *)
Lemma slice_remove_deletes_witness :
  (slice_ok three_pairs /\
   0 <= 1) /\
  ((1 < sl_len three_pairs ->
    exists s',
      runtime_slice_remove (Some three_pairs) 1 = Returns s' /\
      slice_ok s' /\
      slice_elems s' = delete (Z.to_nat 1) (slice_elems three_pairs) /\
      runtime_slice_len (Some s') = sl_len three_pairs - 1 /\
      runtime_slice_cap (Some s') = sl_cap three_pairs) /\
   (sl_len three_pairs <= 1 -> runtime_slice_remove (Some three_pairs) 1 = Aborts) /\
   runtime_slice_remove None 1 = Aborts).
Proof.
  assert (H1 : slice_ok three_pairs) by by_evaluation.
  assert (H2 : 0 <= 1) by lia.
  split; [exact (conj H1 H2)|].
  exact (slice_remove_deletes three_pairs 1 H1 H2).
Defined.

(** X27 on a full slice of three two-byte elements, index 1. *)
Lemma slice_insert_places_witness :
  (slice_ok three_pairs /\
   0 <= 1 /\
   Z.of_nat (length [x07; x08]) = sl_elem_size three_pairs /\
   2 * sl_cap three_pairs < 2 ^ 64 /\
   sl_elem_size three_pairs * (2 * sl_cap three_pairs) < 2 ^ 64 /\
   sl_elem_size three_pairs < 2 ^ 64) /\
  ((1 <= sl_len three_pairs ->
    exists s',
      runtime_slice_insert (Some three_pairs) 1 [x07; x08] (Some (@nil byte)) = Returns s' /\
      slice_ok s' /\
      slice_elems s'
      = take (Z.to_nat 1) (slice_elems three_pairs)
          ++ [x07; x08] :: drop (Z.to_nat 1) (slice_elems three_pairs) /\
      runtime_slice_len (Some s') = sl_len three_pairs + 1 /\
      runtime_slice_cap (Some s')
      = (if sl_len three_pairs <? sl_cap three_pairs then sl_cap three_pairs
         else if sl_cap three_pairs =? 0 then 1 else 2 * sl_cap three_pairs)) /\
   (sl_len three_pairs < 1 ->
    runtime_slice_insert (Some three_pairs) 1 [x07; x08] (Some (@nil byte)) = Aborts) /\
   runtime_slice_insert None 1 [x07; x08] (Some (@nil byte)) = Aborts).
Proof.
  assert (H1 : slice_ok three_pairs) by by_evaluation.
  assert (H2 : 0 <= 1) by lia.
  assert (H3 : Z.of_nat (length [x07; x08]) = sl_elem_size three_pairs) by reflexivity.
  assert (H4 : 2 * sl_cap three_pairs < 2 ^ 64) by by_evaluation.
  assert (H5 : sl_elem_size three_pairs * (2 * sl_cap three_pairs) < 2 ^ 64) by by_evaluation.
  assert (H6 : sl_elem_size three_pairs < 2 ^ 64) by by_evaluation.
  split; [exact (conj H1 (conj H2 (conj H3 (conj H4 (conj H5 H6)))))|].
  exact (slice_insert_places three_pairs 1 [x07; x08] (@nil byte) H1 H2 H3 H4 H5 H6).
Defined.

(** X28 on three two-byte elements, the range from 1 to 3. *)
Lemma slice_subslice_copies_witness :
  (slice_ok three_pairs /\
   0 <= 1) /\
  ((1 <= 3 <= sl_len three_pairs ->
    exists s',
      runtime_slice_subslice (Some three_pairs) 1 3 = Returns s' /\
      slice_ok s' /\
      slice_elems s'
      = take (Z.to_nat (3 - 1))
          (drop (Z.to_nat 1) (slice_elems three_pairs)) /\
      runtime_slice_len (Some s') = 3 - 1 /\
      runtime_slice_cap (Some s') = 3 - 1) /\
   (3 < 1 \/ sl_len three_pairs < 3 ->
    runtime_slice_subslice (Some three_pairs) 1 3 = Aborts) /\
   runtime_slice_subslice None 1 3 = Aborts).
Proof.
  assert (H1 : slice_ok three_pairs) by by_evaluation.
  assert (H2 : 0 <= 1) by lia.
  split; [exact (conj H1 H2)|].
  exact (slice_subslice_copies three_pairs 1 3 H1 H2).
Defined.

(** X29 on a full slice of three two-byte elements, five more. *)
Lemma slice_reserve_capacity_witness :
  (slice_ok three_pairs /\
   0 <= 5 /\
   sl_len three_pairs + 5 <= 2 ^ 63 /\
   sl_elem_size three_pairs * (2 * (sl_len three_pairs + 5)) < 2 ^ 64 /\
   (65 <= 65%nat)%nat) /\
  (exists s',
     runtime_slice_reserve 65%nat (Some three_pairs) 5 (Some (@nil byte))
     = Some (Returns s') /\
     slice_ok s' /\
     slice_elems s' = slice_elems three_pairs /\
     runtime_slice_len (Some s') = sl_len three_pairs /\
     sl_len three_pairs + 5 <= runtime_slice_cap (Some s') /\
     (sl_len three_pairs + 5 <= sl_cap three_pairs -> s' = three_pairs)).
Proof.
  assert (H1 : slice_ok three_pairs) by by_evaluation.
  assert (H2 : 0 <= 5) by lia.
  assert (H3 : sl_len three_pairs + 5 <= 2 ^ 63) by by_evaluation.
  assert (H4 : sl_elem_size three_pairs * (2 * (sl_len three_pairs + 5)) < 2 ^ 64) by by_evaluation.
  assert (H5 : (65 <= 65%nat)%nat) by lia.
  split; [exact (conj H1 (conj H2 (conj H3 (conj H4 H5))))|].
  exact (slice_reserve_capacity three_pairs 5 (@nil byte) 65%nat H1 H2 H3 H4 H5).
Defined.

(** X30 on three two-byte elements. *)
Lemma slice_copy_same_elems_witness :
  (slice_ok three_pairs) /\
  ((exists s',
      runtime_slice_copy (Some three_pairs) = Some s' /\
      slice_ok s' /\
      slice_elems s' = slice_elems three_pairs /\
      runtime_slice_len (Some s') = sl_len three_pairs /\
      runtime_slice_cap (Some s') = sl_cap three_pairs /\
      sl_elem_size s' = sl_elem_size three_pairs /\
      forall p : nat,
        sl_elem_size three_pairs * sl_len three_pairs <= Z.of_nat p
                                  < sl_elem_size three_pairs * sl_cap three_pairs ->
        sl_data s' !! p = Some x00) /\
   runtime_slice_copy None = None).
Proof.
  assert (H1 : slice_ok three_pairs) by by_evaluation.
  split; [exact H1|].
  exact (slice_copy_same_elems three_pairs H1).
Defined.
